(** * Shimmer: the image-to-sound synthesis engine

    A shallow embedding of the engine's TypeScript sources and the
    properties its specification states about them.

    - [JS]        JavaScript numbers (exact rationals extended with NaN)
    - [Analyzer]  src/engine/imageAnalyzer.ts
    - [Frequency] src/utils/frequencyUtils.ts
    - [WebAudio]  the automation timeline of an AudioParam
    - [Granular]  GranularEngine
    - [Effects]   EffectsChain
    - [LayerNode] src/engine/AudioLayerNode.ts
    - [Scheduler] src/engine/animationLoop.ts

    Numbers.  A JavaScript [number] is modelled as an exact rational or
    NaN: the rounding of IEEE-754 doubles is not modelled, and the two
    infinities are not represented.  Every result of an arithmetic
    operation is stored in lowest terms ([Qred]), so that two results are
    equal as terms exactly when they are equal as rationals. *)

From Stdlib Require Import QArith Qround Qabs Qreduction Qminmax ZArith Lia Lqa Bool
  Strings.Byte Sorted.
From Stdlib Require Import Qpower.
From stdpp Require Import gmap strings list pretty.

(* ================================================================== *)
(** * JavaScript numbers *)
(* ================================================================== *)

Module JS.

Local Open Scope Q_scope.

Inductive num : Type :=
| Num (q : Q)
| NaN.

Arguments Num q%_Q.

Definition Qltb (x y : Q) : bool := negb (Qle_bool y x).

(** [Math.trunc] on rationals: rounding toward zero. *)
Definition Qtrunc (x : Q) : Z :=
  if Qltb x 0 then (- Qfloor (- x))%Z else Qfloor x.

Definition lift1 (f : Q -> Q) (a : num) : num :=
  match a with
  | Num x => Num (Qred (f x))
  | NaN => NaN
  end.

Definition lift2 (f : Q -> Q -> Q) (a b : num) : num :=
  match a, b with
  | Num x, Num y => Num (Qred (f x y))
  | _, _ => NaN
  end.

Definition add : num -> num -> num := lift2 Qplus.
Definition sub : num -> num -> num := lift2 Qminus.
Definition mul : num -> num -> num := lift2 Qmult.

(** [a / b].  [0 / 0] is NaN.  A non-zero dividend over zero would be an
    infinity, which the model does not represent; it is NaN here too. *)
Definition div (a b : num) : num :=
  match a, b with
  | Num x, Num y => if Qeq_bool y 0 then NaN else Num (Qred (x / y))
  | _, _ => NaN
  end.

(** [a % b]: the remainder has the sign of the dividend. *)
Definition rem (a b : num) : num :=
  match a, b with
  | Num x, Num y =>
      if Qeq_bool y 0 then NaN
      else Num (Qred (x - y * inject_Z (Qtrunc (x / y))))
  | _, _ => NaN
  end.

(** Comparisons are false as soon as one side is NaN. *)
Definition ltb (a b : num) : bool :=
  match a, b with
  | Num x, Num y => Qltb x y
  | _, _ => false
  end.

Definition leb (a b : num) : bool :=
  match a, b with
  | Num x, Num y => Qle_bool x y
  | _, _ => false
  end.

Definition gtb (a b : num) : bool := ltb b a.
Definition geb (a b : num) : bool := leb b a.

(** [a === b] *)
Definition eqb (a b : num) : bool :=
  match a, b with
  | Num x, Num y => Qeq_bool x y
  | _, _ => false
  end.

(** [Math.min] and [Math.max] return NaN if any argument is NaN. *)
Definition min (a b : num) : num :=
  match a, b with
  | Num x, Num y => Num (if Qle_bool x y then x else y)
  | _, _ => NaN
  end.

Definition max (a b : num) : num :=
  match a, b with
  | Num x, Num y => Num (if Qle_bool x y then y else x)
  | _, _ => NaN
  end.

Definition floor (a : num) : num :=
  match a with
  | Num x => Num (inject_Z (Qfloor x))
  | NaN => NaN
  end.

Definition abs (a : num) : num :=
  match a with
  | Num x => Num (Qabs x)
  | NaN => NaN
  end.

Definition of_Z (z : Z) : num := Num (inject_Z z).
Definition of_nat (n : nat) : num := of_Z (Z.of_nat n).

Definition is_num (a : num) : bool :=
  match a with
  | Num _ => true
  | NaN => false
  end.

(** Equality of numbers as values: rationals up to [Qeq], NaN with itself. *)
Definition same (a b : num) : Prop :=
  match a, b with
  | Num x, Num y => x == y
  | NaN, NaN => True
  | _, _ => False
  end.

(** The order on numbers that are not NaN. *)
Definition le (a b : num) : Prop :=
  match a, b with
  | Num x, Num y => x <= y
  | _, _ => False
  end.

Definition lt (a b : num) : Prop :=
  match a, b with
  | Num x, Num y => x < y
  | _, _ => False
  end.

(** [arr[i]] on an array of numbers used in arithmetic: [undefined]
    behaves as NaN. *)
Definition index (arr : list num) (i : nat) : num :=
  match arr !! i with
  | Some v => v
  | None => NaN
  end.

(** [Math.round]: the nearest integer, halves rounded up. *)
Definition round (a : num) : num :=
  match a with
  | Num x => Num (inject_Z (Qfloor (x + (1#2))))
  | NaN => NaN
  end.

(** [arr[k]] for a number [k]: the element when [k] is an integer index
    in range, [undefined] (NaN in arithmetic) otherwise. *)
Definition get (arr : list num) (k : num) : num :=
  match k with
  | Num q =>
      if Qeq_bool q (inject_Z (Qfloor q)) && Qle_bool 0 q
      then index arr (Z.to_nat (Qfloor q))
      else NaN
  | NaN => NaN
  end.

(** [Math.pow(2, k)].  Every exponent passed in the modelled code is the
    result of [Math.floor]; the power is taken at the integer part. *)
Definition pow2 (k : num) : num :=
  match k with
  | Num q => Num (Qred (Qpower 2 (Qfloor q)))
  | NaN => NaN
  end.

(** The integer [k] with [2^k <= x < 2^(k+1)], for [0 < x]. *)
Definition Qfloor_log2 (x : Q) : Z :=
  if Qle_bool 1 x then Z.log2 (Qfloor x)
  else (- Z.log2_up (Qceiling (/ x)))%Z.

(** [Math.floor(Math.log2(x))]; not a number unless [0 < x]. *)
Definition floor_log2 (a : num) : num :=
  match a with
  | Num x => if Qltb 0 x then Num (inject_Z (Qfloor_log2 x)) else NaN
  | NaN => NaN
  end.

End JS.

Declare Scope js_scope.
Delimit Scope js_scope with js.
Bind Scope js_scope with JS.num.
Infix "+" := JS.add : js_scope.
Infix "-" := JS.sub : js_scope.
Infix "*" := JS.mul : js_scope.
Infix "/" := JS.div : js_scope.
Infix "mod" := JS.rem : js_scope.
Infix "<?" := JS.ltb : js_scope.
Infix "<=?" := JS.leb : js_scope.
Infix ">?" := JS.gtb : js_scope.
Infix ">=?" := JS.geb : js_scope.
Infix "=?" := JS.eqb : js_scope.
Abbreviation Num := JS.Num.
Abbreviation NaN := JS.NaN.
Abbreviation num := JS.num.

(* ================================================================== *)
(** * imageAnalyzer.ts *)
(* ================================================================== *)

Module Analyzer.

Local Open Scope js_scope.

Inductive ScaleType : Type :=
| major | minor | pentatonic | wholetone | chromatic.

Inductive ArchetypeId : Type :=
| tonal | rhythmic | textural | sub | spectral | chromatic_noise.

#[global] Instance ArchetypeId_eq_dec : EqDecision ArchetypeId.
Proof. solve_decision. Defined.

#[global] Instance ScaleType_eq_dec : EqDecision ScaleType.
Proof. solve_decision. Defined.

(** A generated mode.  The [params] field ([tuneParams]) is left out of
    the record: its bin-weight curves need [Math.pow] at fractional
    exponents and [Math.exp], and nothing stated below reads it. *)
Record GeneratedMode : Type := {
  gm_id : string;
  gm_name : string;
  gm_description : string;
  gm_archetype : ArchetypeId;
  gm_score : num;
}.

Record ImageProfile : Type := {
  rootHz : num;
  scale : ScaleType;
  scaleRatios : list num;
  warmth : num;
  saturation : num;
  brightness : num;
  contrast : num;
  detuneSpread : num;
  rhythmicDensity : num;
  spatialLow : num;
  spatialMid : num;
  spatialHigh : num;
  generatedModes : list GeneratedMode;
}.

Definition SCALES (s : ScaleType) : list num :=
  match s with
  | major      => [Num 1; Num (9/8); Num (5/4); Num (4/3); Num (3/2); Num (5/3); Num (15/8)]
  | minor      => [Num 1; Num (9/8); Num (6/5); Num (4/3); Num (3/2); Num (8/5); Num (9/5)]
  | pentatonic => [Num 1; Num (9/8); Num (5/4); Num (3/2); Num (5/3)]
  | wholetone  => [Num 1; Num (9/8); Num (5/4); Num (45/32); Num (3/2); Num (27/16)]
  | chromatic  => [Num 1; Num (16/15); Num (9/8); Num (6/5); Num (5/4); Num (4/3);
                   Num (45/32); Num (3/2); Num (8/5); Num (5/3); Num (9/5); Num (15/8)]
  end.

Definition ROOT_NOTES : list num :=
  [Num 110; Num 116.54; Num 123.47; Num 130.81; Num 138.59; Num 146.83;
   Num 155.56; Num 164.81; Num 174.61; Num 185; Num 196; Num 207.65].

(** ** Archetype scoring *)

Definition scoreTonal (p : ImageProfile) : num :=
  (Num 1 - contrast p) * Num 0.4 + (brightness p / Num 255) * Num 0.3
  + (Num 1 - spatialHigh p) * Num 0.3.

Definition scoreRhythmic (p : ImageProfile) : num :=
  contrast p * Num 0.5 + spatialMid p * Num 0.3 + rhythmicDensity p * Num 0.2.

Definition scoreTextural (p : ImageProfile) : num :=
  spatialHigh p * Num 0.5 + contrast p * Num 0.3
  + (Num 1 - JS.abs (saturation p - Num 0.4)) * Num 0.2.

Definition scoreSub (p : ImageProfile) : num :=
  (Num 1 - brightness p / Num 255) * Num 0.5 + (Num 1 - warmth p) * Num 0.3
  + spatialLow p * Num 0.2.

Definition scoreSpectral (p : ImageProfile) : num :=
  let spatialVariety :=
    Num 1 - JS.max (JS.max (spatialLow p) (spatialMid p)) (spatialHigh p)
    + JS.min (JS.min (spatialLow p) (spatialMid p)) (spatialHigh p) in
  saturation p * Num 0.4 + spatialVariety * Num 0.4
  + (brightness p / Num 255) * Num 0.2.

Definition scoreChromaticNoise (p : ImageProfile) : num :=
  contrast p * Num 0.4 + (Num 1 - saturation p) * Num 0.3
  + spatialHigh p * Num 0.3.

(** ** Mode names *)

Definition names (a : ArchetypeId) : list (string * string) :=
  match a with
  | tonal =>
      [("Sustain", "Long smooth tones shaped by the image's gradients");
       ("Flow", "Continuous tones following the image's luminance curves");
       ("Drift", "Slowly evolving tones, blurred across the spectrum")]
  | rhythmic =>
      [("Pulse", "Edges trigger percussive hits at the image's own rhythm");
       ("Strike", "Hard edges become sharp percussive events");
       ("Pattern", "The image's structure drives rhythmic repetition")]
  | textural =>
      [("Grain", "Fine texture becomes dense granular clusters");
       ("Dust", "High-frequency detail scattered across the spectrum");
       ("Scatter", "Image texture randomises grain timing and pitch")]
  | sub =>
      [("Deep", "Dark regions generate low sub-bass rumble");
       ("Ground", "Image darkness anchors a deep sustained bass layer");
       ("Weight", "The image's mass expressed as sub-bass pressure")]
  | spectral =>
      [("Shimmer", "All frequency bands active — the full image as sound");
       ("Chorus", "Wide spectral spread, image colours in stereo");
       ("Aura", "The image's complete spectral fingerprint")]
  | chromatic_noise =>
      [("Chaos", "High contrast becomes atonal noise bursts");
       ("Static", "Image edges and transitions become chromatic noise");
       ("Glitch", "The image's harshest moments expressed as glitch")]
  end.

Definition nameForArchetype (a : ArchetypeId) (p : ImageProfile) : string * string :=
  let warm := warmth p >? Num 0.6 in
  let dark := brightness p <? Num 100 in
  let saturated := saturation p >? Num 0.5 in
  let pool := names a in
  let idx := ((if warm then 1 else 0) + (if dark then 2 else 0)
              + (if saturated then 1 else 0))%nat in
  default (EmptyString, EmptyString) (pool !! (idx mod length pool)%nat).

Definition archetypeName (a : ArchetypeId) : string :=
  match a with
  | tonal => "tonal"
  | rhythmic => "rhythmic"
  | textural => "textural"
  | sub => "sub"
  | spectral => "spectral"
  | chromatic_noise => "chromatic_noise"
  end.

(** ** Pixel reads *)

(** [pixelData[i]] used in arithmetic: a byte, or NaN past the end. *)
Definition px (pixelData : list byte) (i : nat) : num :=
  match pixelData !! i with
  | Some b => JS.of_Z (Z.of_N (Byte.to_N b))
  | None => NaN
  end.

Definition luma (pixelData : list byte) (i : nat) : num :=
  Num 0.299 * px pixelData i + Num 0.587 * px pixelData (i + 1)
  + Num 0.114 * px pixelData (i + 2).

(** [Math.max(1, Math.floor((width * height) / k))], times the four bytes
    of a pixel: the distance between two visited offsets. *)
Definition stride (width height k : Z) : nat :=
  Z.to_nat (Z.max 1 (width * height / k) * 4).

(** ** Spatial frequency estimation *)

Record SpatialAcc : Type := {
  diffClose : num;
  diffMid : num;
  diffFar : num;
  n : nat;
}.

(** The body of the loop of [estimateSpatialFreqs] at offset [i]. *)
Definition spatialStep (pixelData : list byte) (i : nat) (acc : SpatialAcc) : SpatialAcc :=
  let l0 := luma pixelData i in
  let l1 := luma pixelData (i + 4) in
  let l4 := luma pixelData (i + 4 * 4) in
  let l8 := luma pixelData (Nat.min (i + 8 * 4) (length pixelData - 4)) in
  {| diffClose := diffClose acc + JS.abs (l0 - l1);
     diffMid := diffMid acc + JS.abs (l0 - l4);
     diffFar := diffFar acc + JS.abs (l0 - l8);
     n := S (n acc) |}.

(** [for (let i = 0; i < pixelData.length - 8 * 4; i += step * 4)] *)
Fixpoint spatialLoop (fuel : nat) (pixelData : list byte) (stride i : nat)
    (acc : SpatialAcc) : SpatialAcc :=
  match fuel with
  | O => acc
  | S fuel' =>
      if (Z.of_nat i <? Z.of_nat (length pixelData) - 8 * 4)%Z
      then spatialLoop fuel' pixelData stride (i + stride)
             (spatialStep pixelData i acc)
      else acc
  end.

Record Spatial : Type := { low : num; mid : num; high : num }.

Definition estimateSpatialFreqs (pixelData : list byte) (width height : Z) : Spatial :=
  let acc := spatialLoop (length pixelData) pixelData (stride width height 2048) 0
               {| diffClose := Num 0; diffMid := Num 0; diffFar := Num 0; n := 0 |} in
  let maxD := Num 255 in
  {| high := JS.min (diffClose acc / JS.of_nat (n acc) / maxD * Num 4) (Num 1);
     mid := JS.min (diffMid acc / JS.of_nat (n acc) / maxD * Num 3) (Num 1);
     low := JS.min (diffFar acc / JS.of_nat (n acc) / maxD * Num 2) (Num 1) |}.

(** ** Colour statistics *)

Record ColorAcc : Type := {
  totalR : num;
  totalG : num;
  totalB : num;
  count : nat;
  brightnessValues : list num;
}.

Definition colorStep (pixelData : list byte) (i : nat) (acc : ColorAcc) : ColorAcc :=
  let r := px pixelData i in
  let g := px pixelData (i + 1) in
  let b := px pixelData (i + 2) in
  {| totalR := totalR acc + r;
     totalG := totalG acc + g;
     totalB := totalB acc + b;
     count := S (count acc);
     brightnessValues :=
       brightnessValues acc ++ [Num 0.299 * r + Num 0.587 * g + Num 0.114 * b] |}.

(** [for (let i = 0; i < pixelData.length; i += step * 4)] *)
Fixpoint colorLoop (fuel : nat) (pixelData : list byte) (stride i : nat)
    (acc : ColorAcc) : ColorAcc :=
  match fuel with
  | O => acc
  | S fuel' =>
      if (i <? length pixelData)%nat
      then colorLoop fuel' pixelData stride (i + stride) (colorStep pixelData i acc)
      else acc
  end.

(** [arr.reduce((a, b) => a + b, 0)] *)
Definition sum (arr : list num) : num := foldl JS.add (Num 0) arr.

(** ** Selection of the modes *)

Record Scored : Type := { archetype : ArchetypeId; score : num }.

(** The comparator [(a, b) => b.score - a.score]. *)
Definition byScoreDesc (a b : Scored) : num := score b - score a.

(** [Array.prototype.sort]: a stable sort; [x] goes after [y] only when
    the comparator is positive, and a NaN comparison counts as [+0]. *)
Fixpoint insert (x : Scored) (l : list Scored) : list Scored :=
  match l with
  | [] => [x]
  | y :: l' => if byScoreDesc x y >? Num 0 then y :: insert x l' else x :: l
  end.

Definition sort (l : list Scored) : list Scored := foldr insert [] l.

Definition MIN_MODES : nat := 3.
Definition MAX_MODES : nat := 5.
Definition THRESHOLD : num := Num 0.25.

(** [arr.filter((s, i) => ...)], from index [i] on. *)
Fixpoint filteri {A : Type} (f : A -> nat -> bool) (i : nat) (l : list A) : list A :=
  match l with
  | [] => []
  | x :: l' => if f x i then x :: filteri f (S i) l' else filteri f (S i) l'
  end.

Definition keep (s : Scored) (i : nat) : bool :=
  (i <? MIN_MODES)%nat || ((i <? MAX_MODES)%nat && (score s >=? THRESHOLD)).

Definition select (scores : list Scored) : list Scored :=
  filteri keep 0 (sort scores).

(** ** analyzeImage *)

Section AnalyzeImage.

(** [Math.sqrt] on the non-negative rationals. *)
Variable sqrtQ : Q -> Q.

Definition sqrt (a : num) : num :=
  match a with
  | Num x => if JS.Qltb x 0 then NaN else Num (Qred (sqrtQ (Qred x)))
  | NaN => NaN
  end.

Definition scoreAll (p : ImageProfile) : list Scored :=
  [ {| archetype := tonal;           score := scoreTonal p |};
    {| archetype := rhythmic;        score := scoreRhythmic p |};
    {| archetype := textural;        score := scoreTextural p |};
    {| archetype := sub;             score := scoreSub p |};
    {| archetype := spectral;        score := scoreSpectral p |};
    {| archetype := chromatic_noise; score := scoreChromaticNoise p |} ].

Definition makeMode (p : ImageProfile) (idx : nat) (s : Scored) : GeneratedMode :=
  let '(name, description) := nameForArchetype (archetype s) p in
  {| gm_id := archetypeName (archetype s) +:+ "-" +:+ pretty idx;
     gm_name := name;
     gm_description := description;
     gm_archetype := archetype s;
     gm_score := score s |}.

(** The hue, in turns, of the mean colour. *)
Definition hueOf (avgR avgG avgB : num) : num :=
  let maxC := JS.max (JS.max avgR avgG) avgB in
  let minC := JS.min (JS.min avgR avgG) avgB in
  if maxC - minC >? Num 1 then
    (if maxC =? avgR then ((avgG - avgB) / (maxC - minC) + Num 6) mod Num 6
     else if maxC =? avgG then (avgB - avgR) / (maxC - minC) + Num 2
     else (avgR - avgG) / (maxC - minC) + Num 4) / Num 6
  else Num 0.

(** The decision table of the scale. *)
Definition scaleOf (saturation warmth contrast : num) : ScaleType :=
  if saturation <? Num 0.15 then
    (if contrast >? Num 0.6 then chromatic else wholetone)
  else if warmth >? Num 0.6 then
    (if contrast >? Num 0.5 then major else pentatonic)
  else if warmth <? Num 0.4 then minor
  else pentatonic.

(** [analyzeImage] after its sampling loop: from the sums of the loop and
    the spatial estimate to the profile. *)
Definition profileOf (acc : ColorAcc) (spatial : Spatial) : ImageProfile :=
  let avgR := totalR acc / JS.of_nat (count acc) in
  let avgG := totalG acc / JS.of_nat (count acc) in
  let avgB := totalB acc / JS.of_nat (count acc) in
  let len := JS.of_nat (length (brightnessValues acc)) in
  let avgBrightness := sum (brightnessValues acc) / len in
  let variance :=
    foldl (fun a v => a + (v - avgBrightness) * (v - avgBrightness)) (Num 0)
      (brightnessValues acc) / len in
  let contrast := JS.min (sqrt variance / Num 80) (Num 1) in
  let warmth :=
    JS.max (Num 0) (JS.min (Num 1) ((avgR - avgB) / Num 128 * Num 0.5 + Num 0.5)) in
  let maxC := JS.max (JS.max avgR avgG) avgB in
  let minC := JS.min (JS.min avgR avgG) avgB in
  let saturation := if maxC >? Num 0 then (maxC - minC) / maxC else Num 0 in
  let hue := hueOf avgR avgG avgB in
  let rootIdx := JS.floor (hue * Num 12) mod Num 12 in
  let rootHz := JS.get ROOT_NOTES rootIdx in
  let scale := scaleOf saturation warmth contrast in
  let detuneSpread := JS.min (saturation * Num 1.5) (Num 1) in
  let rhythmicDensity := contrast in
  let profile :=
    {| rootHz := rootHz; scale := scale; scaleRatios := SCALES scale;
       warmth := warmth; saturation := saturation; brightness := avgBrightness;
       contrast := contrast; detuneSpread := detuneSpread;
       rhythmicDensity := rhythmicDensity;
       spatialLow := low spatial; spatialMid := mid spatial;
       spatialHigh := high spatial;
       generatedModes := [] (* filled below *) |} in
  let selected := select (scoreAll profile) in
  {| rootHz := rootHz; scale := scale; scaleRatios := SCALES scale;
     warmth := warmth; saturation := saturation; brightness := avgBrightness;
     contrast := contrast; detuneSpread := detuneSpread;
     rhythmicDensity := rhythmicDensity;
     spatialLow := low spatial; spatialMid := mid spatial;
     spatialHigh := high spatial;
     generatedModes := imap (makeMode profile) selected |}.

(** The sampling loop of [analyzeImage], from offset 0 and empty sums. *)
Definition colorStats (pixelData : list byte) (width height : Z) : ColorAcc :=
  colorLoop (length pixelData) pixelData (stride width height 4096) 0
    {| totalR := Num 0; totalG := Num 0; totalB := Num 0;
       count := 0; brightnessValues := [] |}.

Definition analyzeImage (pixelData : list byte) (width height : Z) : ImageProfile :=
  profileOf (colorStats pixelData width height)
    (estimateSpatialFreqs pixelData width height).

End AnalyzeImage.

(** ** snapToScale *)

(** [while (note < profile.rootHz) note *= 2;]  [None]: the loop is still
    running when the fuel is spent. *)
Fixpoint raise (fuel : nat) (note root : num) : option num :=
  match fuel with
  | O => None
  | S fuel' => if note <? root then raise fuel' (note * Num 2) root else Some note
  end.

(** [while (note > profile.rootHz * 4) note /= 2;] *)
Fixpoint lower (fuel : nat) (note bound : num) : option num :=
  match fuel with
  | O => None
  | S fuel' => if note >? bound then lower fuel' (note / Num 2) bound else Some note
  end.

(** [dist < bestDist], where [bestDist] starts at [Infinity] ([None]). *)
Definition closer (dist : num) (bestDist : option num) : bool :=
  match bestDist with
  | None => JS.is_num dist
  | Some d => dist <? d
  end.

(** The loop [for (const r of profile.scaleRatios)] over [(best, bestDist)]. *)
Definition nearest (inOctave : num) (ratios : list num) : num :=
  fst (foldl (fun '(best, bestDist) r =>
                let dist := JS.abs (inOctave - r) in
                if closer dist bestDist then (r, Some dist) else (best, bestDist))
             (JS.index ratios 0, None) ratios).

Definition snapToScale (fuel : nat) (hz : num) (p : ImageProfile) : option num :=
  note ← raise fuel hz (rootHz p);
  note ← lower fuel note (rootHz p * Num 4);
  let ratio := note / rootHz p in
  let octaveMult := JS.pow2 (JS.floor_log2 ratio) in
  let inOctave := ratio / octaveMult in
  let best := nearest inOctave (scaleRatios p) in
  Some (rootHz p * octaveMult * best).

End Analyzer.

(* ================================================================== *)
(** * frequencyUtils.ts *)
(* ================================================================== *)

Module Frequency.

Import Analyzer.
Local Open Scope js_scope.

Definition BASE_NOTE : num := Num 110.
Definition PENTATONIC_RATIOS : list num :=
  [Num 1; Num (9/8); Num (5/4); Num (3/2); Num (5/3)].

Definition brightnessToFrequency (brightness : num) (profile : option ImageProfile) : num :=
  match profile with
  | Some p =>
      let normalized := brightness / Num 255 in
      let octaveShift := JS.floor (normalized * Num 3) in
      let posInOctave := (normalized * Num 3) mod Num 1 in
      let degreeCount := JS.of_nat (length (scaleRatios p)) in
      let degree := JS.floor (posInOctave * degreeCount) in
      let ratio := JS.get (scaleRatios p) (JS.min degree (degreeCount - Num 1)) in
      rootHz p * JS.pow2 octaveShift * ratio
  | None =>
      let normalized := brightness / Num 255 in
      let octave := JS.floor (normalized * Num 3) in
      let degree := JS.floor (((normalized * Num 3) mod Num 1) * Num 5) in
      BASE_NOTE * JS.pow2 octave * JS.get PENTATONIC_RATIOS degree
  end.

Definition binToFrequency (binIdx numBins : num) (profile : option ImageProfile) : num :=
  let t := binIdx / numBins in
  let brightness := t * Num 255 in
  brightnessToFrequency brightness profile.

End Frequency.

(* ================================================================== *)
(** * The automation timeline of an AudioParam *)
(* ================================================================== *)

(** The engine never reads an audio signal; it only schedules values on
    [AudioParam]s.  This module follows the automation-event list of the
    Web Audio API: the events of a parameter are kept ordered by time, an
    event replaces an event of the same kind at the same time and otherwise
    goes after the events scheduled at that time. *)

Module WebAudio.

Local Open Scope Q_scope.

Inductive Event : Type :=
| SetValue (v : num) (t : Q)
| LinearRamp (v : num) (t : Q)
| ExponentialRamp (v : num) (t : Q)
| SetTarget (v : num) (t : Q) (timeConstant : num).

Definition time (e : Event) : Q :=
  match e with
  | SetValue _ t | LinearRamp _ t | ExponentialRamp _ t | SetTarget _ t _ => t
  end.

Definition same_kind (a b : Event) : bool :=
  match a, b with
  | SetValue _ _, SetValue _ _
  | LinearRamp _ _, LinearRamp _ _
  | ExponentialRamp _ _, ExponentialRamp _ _
  | SetTarget _ _ _, SetTarget _ _ _ => true
  | _, _ => false
  end.

Record AudioParam : Type := {
  defaultValue : num;
  events : list Event;
}.

Definition param (v : num) : AudioParam := {| defaultValue := v; events := [] |}.

Fixpoint insertEvent (e : Event) (l : list Event) : list Event :=
  match l with
  | [] => [e]
  | x :: l' =>
      if Qeq_bool (time x) (time e) && same_kind x e then e :: l'
      else if Qle_bool (time x) (time e) then x :: insertEvent e l'
      else e :: l
  end.

Definition schedule (e : Event) (p : AudioParam) : AudioParam :=
  {| defaultValue := defaultValue p; events := insertEvent e (events p) |}.

(** [cancelScheduledValues(t)]: drops every event at or after [t]. *)
Definition cancelScheduledValues (t : Q) (p : AudioParam) : AudioParam :=
  {| defaultValue := defaultValue p;
     events := List.filter (fun e => JS.Qltb (time e) t) (events p) |}.

Definition setValueAtTime (v : num) (t : Q) : AudioParam -> AudioParam :=
  schedule (SetValue v t).
Definition linearRampToValueAtTime (v : num) (t : Q) : AudioParam -> AudioParam :=
  schedule (LinearRamp v t).
Definition exponentialRampToValueAtTime (v : num) (t : Q) : AudioParam -> AudioParam :=
  schedule (ExponentialRamp v t).
Definition setTargetAtTime (v : num) (t : Q) (timeConstant : num)
  : AudioParam -> AudioParam :=
  schedule (SetTarget v t timeConstant).

(** The value an event leaves the parameter at when its time is reached.
    An exponential approach ([SetTarget]) has no rational value. *)
Definition reached (e : Event) : option num :=
  match e with
  | SetValue v _ | LinearRamp v _ | ExponentialRamp v _ => Some v
  | SetTarget _ _ _ => None
  end.

(** The value of the parameter at time [t]; [None] where the value lies on
    an exponential curve. *)
Definition valueAt (p : AudioParam) (t : Q) : option num :=
  let past := List.filter (fun e => Qle_bool (time e) t) (events p) in
  let future := List.filter (fun e => JS.Qltb t (time e)) (events p) in
  let start := match last past with
               | None => Some (defaultValue p)
               | Some e => reached e
               end in
  let t0 := match last past with None => 0 | Some e => time e end in
  match future with
  | LinearRamp v1 t1 :: _ =>
      v0 ← start;
      Some (v0 + (v1 - v0) * Num ((t - t0) / (t1 - t0)))%js
  | ExponentialRamp _ _ :: _ => None
  | _ => start
  end.

End WebAudio.

(* ================================================================== *)
(** * GranularEngine *)
(* ================================================================== *)

Module Granular.

Import WebAudio.
Local Open Scope js_scope.

Definition MAX_GRAINS : nat := 32.

Record AudioBuffer : Type := { duration : num }.

(** What the engine reads from its [AudioContext] and from [Math.random]
    during one call: the [n]-th draw made by the engine is [random n]. *)
Record Env : Type := {
  currentTime : Q;
  sampleRate : num;
  random : nat -> num;
}.

(** A started [AudioBufferSourceNode].  Its playback rate
    [2^(semitones/12)] is kept through its exponent. *)
Record Grain : Type := {
  offsetSec : num;
  grainDur : num;
  semitones : num;
  startTime : Q;
}.

Record GrainSlot : Type := {
  gain : AudioParam;
  pan : AudioParam;
  busy : bool;
  source : option Grain;
  envelope : option num;
}.

Record GranularParams : Type := {
  grainDensity : num;
  grainDuration : num;
  position : num;
  positionScatter : num;
  pitchShift : num;
  pitchScatter : num;
  stereoWidth : num;
  amplitude : num;
  attackRatio : num;
}.

(** The engine.  [draws] counts the calls to [Math.random] so far and
    [started] lists the sources started on the audio context, latest
    first. *)
Record GranularEngine : Type := {
  buffer : option AudioBuffer;
  slots : list GrainSlot;
  grainTimer : num;
  _active : bool;
  hannCache : list num;
  draws : nat;
  started : list Grain;
}.

Definition freshSlot : GrainSlot :=
  {| gain := param (Num 0); pan := param (Num 0);
     busy := false; source := None; envelope := None |}.

Definition constructor : GranularEngine :=
  {| buffer := None; slots := replicate MAX_GRAINS freshSlot;
     grainTimer := Num 0; _active := true; hannCache := [];
     draws := 0; started := [] |}.

Definition setBuffer (b : AudioBuffer) (e : GranularEngine) : GranularEngine :=
  {| buffer := Some b; slots := slots e; grainTimer := grainTimer e;
     _active := _active e; hannCache := []; draws := draws e;
     started := started e |}.

Definition stopSlot (now : Q) (s : GrainSlot) : GrainSlot :=
  {| gain := setValueAtTime (Num 0) now (gain s); pan := pan s;
     busy := false; source := None; envelope := None |}.

Definition stopAllGrains (now : Q) (e : GranularEngine) : GranularEngine :=
  {| buffer := buffer e; slots := stopSlot now <$> slots e;
     grainTimer := Num 0; _active := _active e; hannCache := hannCache e;
     draws := draws e; started := started e |}.

Definition clearBuffer (now : Q) (e : GranularEngine) : GranularEngine :=
  stopAllGrains now
    {| buffer := None; slots := slots e; grainTimer := grainTimer e;
       _active := _active e; hannCache := hannCache e; draws := draws e;
       started := started e |}.

Definition reset (now : Q) (e : GranularEngine) : GranularEngine :=
  let e' := stopAllGrains now e in
  {| buffer := buffer e'; slots := slots e'; grainTimer := Num 0;
     _active := _active e'; hannCache := hannCache e'; draws := draws e';
     started := started e' |}.

Definition disconnect (now : Q) (e : GranularEngine) : GranularEngine :=
  stopAllGrains now
    {| buffer := buffer e; slots := slots e; grainTimer := grainTimer e;
       _active := false; hannCache := hannCache e; draws := draws e;
       started := started e |}.

(** [getFreeSlot]: the first slot that is not busy, with its index. *)
Definition getFreeSlot (e : GranularEngine) : option (nat * GrainSlot) :=
  list_find (fun s => busy s = false) (slots e).

(** [getHann]: the cache key of the envelope, added to the cache when it is
    not there yet. *)
Definition hannBucket (samples : num) : num :=
  JS.round (samples / Num 64) * Num 64.

Definition sameValueZero (a b : num) : bool :=
  match a, b with
  | Num x, Num y => Qeq_bool x y
  | NaN, NaN => true
  | _, _ => false
  end.

Definition getHann (samples : num) (cache : list num) : list num :=
  let bucket := hannBucket samples in
  if existsb (sameValueZero bucket) cache then cache else bucket :: cache.

Definition fireGrain (env : Env) (params : GranularParams) (e : GranularEngine)
  : GranularEngine :=
  match buffer e with
  | None => e
  | Some buf =>
      match getFreeSlot e with
      | None => e (* all slots busy: drop grain *)
      | Some (i, slot) =>
          let now := currentTime env in
          let sr := sampleRate env in
          let bufDur := duration buf in
          let scatter :=
            positionScatter params * (random env (draws e) - Num 0.5) * Num 2 in
          let pos := JS.max (Num 0) (JS.min (Num 1) (position params + scatter)) in
          let offsetSec := pos * bufDur in
          let grainDur := JS.max (Num 0.015) (grainDuration params) in
          let grainSamples := JS.round (grainDur * sr) in
          let pitchScatterSemitones :=
            (random env (draws e + 1) - Num 0.5) * Num 2 * pitchScatter params in
          let totalSemitones := pitchShift params + pitchScatterSemitones in
          let pan' := (random env (draws e + 2) - Num 0.5) * Num 2 * stereoWidth params in
          let src := {| offsetSec := offsetSec; grainDur := grainDur;
                        semitones := totalSemitones; startTime := now |} in
          let slot' :=
            {| gain := setValueAtTime (amplitude params) now (gain slot);
               pan := setValueAtTime (JS.max (Num (-1)) (JS.min (Num 1) pan')) now
                        (pan slot);
               busy := true;
               source := Some src;
               envelope := Some (hannBucket grainSamples) |} in
          {| buffer := buffer e;
             slots := <[i := slot']> (slots e);
             grainTimer := grainTimer e;
             _active := _active e;
             hannCache := getHann grainSamples (hannCache e);
             draws := draws e + 3;
             started := src :: started e |}
      end
  end.

(** The [onended] callback of the source playing in slot [i]. *)
Definition onended (now : Q) (i : nat) (e : GranularEngine) : GranularEngine :=
  match slots e !! i with
  | None => e
  | Some slot =>
      {| buffer := buffer e;
         slots := <[i := {| gain := setValueAtTime (Num 0) now (gain slot);
                            pan := pan slot; busy := false;
                            source := None; envelope := None |}]> (slots e);
         grainTimer := grainTimer e; _active := _active e;
         hannCache := hannCache e; draws := draws e; started := started e |}
  end.

Definition setTimer (t : num) (e : GranularEngine) : GranularEngine :=
  {| buffer := buffer e; slots := slots e; grainTimer := t;
     _active := _active e; hannCache := hannCache e; draws := draws e;
     started := started e |}.

(** [while (this.grainTimer >= interval) { ... }]; [None]: the loop is
    still running when the fuel is spent. *)
Fixpoint tickLoop (fuel : nat) (env : Env) (params : GranularParams)
    (interval : num) (e : GranularEngine) : option GranularEngine :=
  match fuel with
  | O => None
  | S fuel' =>
      if grainTimer e >=? interval
      then tickLoop fuel' env params interval
             (fireGrain env params (setTimer (grainTimer e - interval) e))
      else Some e
  end.

Definition tick (fuel : nat) (env : Env) (params : GranularParams) (dt : num)
    (e : GranularEngine) : option GranularEngine :=
  if negb (_active e) || negb (bool_decide (is_Some (buffer e))) then Some e
  else
    let e' := setTimer (grainTimer e + dt) e in
    let interval := Num 1 / JS.max (Num 1) (grainDensity params) in
    tickLoop fuel env params interval e'.

End Granular.

(* ================================================================== *)
(** * types/index.ts *)
(* ================================================================== *)

Module Types.

Inductive PixelMappingMode : Type :=
| glide | drift | pm_sub | strike | grain | weave | mangle.

Inductive SoundSource : Type := synth | sample.

Inductive ScanDirection : Type :=
| horizontal | vertical | diagonal_down | diagonal_up.

Inductive OscillatorType : Type := sine | square | sawtooth | triangle.

Record LayerEffects : Type := {
  reverbEnabled : bool;
  reverbMix : num;
  reverbDecay : num;
  delayEnabled : bool;
  delayTime : num;
  delayFeedback : num;
  delayMix : num;
  distortionEnabled : bool;
  distortionAmount : num;
  flangerEnabled : bool;
  flangerRate : num;
  flangerDepth : num;
  flangerMix : num;
  chorusEnabled : bool;
  chorusRate : num;
  chorusDepth : num;
  chorusMix : num;
  eqEnabled : bool;
  eqLowGain : num;
  eqMidGain : num;
  eqHighGain : num;
  eqMidFreq : num;
}.

Definition defaultEffects : LayerEffects :=
  {| reverbEnabled := false; reverbMix := Num 0.3; reverbDecay := Num 2;
     delayEnabled := false; delayTime := Num 0.3; delayFeedback := Num 0.4;
     delayMix := Num 0.4;
     distortionEnabled := false; distortionAmount := Num 100;
     flangerEnabled := false; flangerRate := Num 0.5; flangerDepth := Num 0.004;
     flangerMix := Num 0.5;
     chorusEnabled := false; chorusRate := Num 1.5; chorusDepth := Num 0.008;
     chorusMix := Num 0.5;
     eqEnabled := false; eqLowGain := Num 0; eqMidGain := Num 0;
     eqHighGain := Num 0; eqMidFreq := Num 1000 |}.

(** A layer record.  The fields the code reads through [??] may be
    missing on a record loaded from an old save file. *)
Record RectLayer : Type := {
  id : string;
  x : num;
  y : num;
  width : num;
  height : num;
  scanX : num;
  scanPos : option num;
  scanSpeed : num;
  scanDirection : option ScanDirection;
  volume : num;
  muted : bool;
  generatedModeId : option string;
  pixelMode : PixelMappingMode;
  soundSource : SoundSource;
  oscillatorType : OscillatorType;
  sampleBuffer : option Granular.AudioBuffer;
  color : string;
  label : string;
  selected : bool;
  effects : LayerEffects;
  paramOverrides : option (gmap string num);
  pitchSemitones : option num;
}.

End Types.

(* ================================================================== *)
(** * EffectsChain *)
(* ================================================================== *)

Module Effects.

Import WebAudio.
Local Open Scope js_scope.

(** The chain's state: the gain of every wet and dry [GainNode], the
    parameters [applyEffects] ramps, the waveshaper curve (through its
    amount), the convolver's buffer (through the decay it was made from),
    and [lastReverbDecay].  [impulseResponses] lists the decays
    [makeImpulseResponse] was called with, latest first. *)
Record EffectsChain : Type := {
  distortionNode_curve : option num;
  distortionWet : AudioParam;
  distortionBypass : AudioParam;
  eqLow_gain : AudioParam;
  eqMid_gain : AudioParam;
  eqMid_frequency : AudioParam;
  eqHigh_gain : AudioParam;
  eqWet : AudioParam;
  eqBypass : AudioParam;
  flangerLFO_frequency : AudioParam;
  flangerLFOGain : AudioParam;
  flangerWet : AudioParam;
  flangerBypass : AudioParam;
  chorusLFO_frequency : AudioParam;
  chorusLFOGain : AudioParam;
  chorusWet : AudioParam;
  chorusBypass : AudioParam;
  delayNode_delayTime : AudioParam;
  delayFeedbackGain : AudioParam;
  delayWet : AudioParam;
  delayDry : AudioParam;
  reverbNode_buffer : option num;
  reverbWet : AudioParam;
  reverbDry : AudioParam;
  lastReverbDecay : num;
  impulseResponses : list num;
}.

(** The constructor sets each parameter with [setValueAtTime(v, now)]. *)
Definition constructor (now : Q) : EffectsChain :=
  let at_ v := setValueAtTime (Num v) now (param (Num v)) in
  {| distortionNode_curve := None;
     distortionWet := setValueAtTime (Num 0) now (param (Num 1));
     distortionBypass := at_ 1%Q;
     eqLow_gain := param (Num 0);
     eqMid_gain := param (Num 0);
     eqMid_frequency := setValueAtTime (Num 1000) now (param (Num 350));
     eqHigh_gain := param (Num 0);
     eqWet := setValueAtTime (Num 0) now (param (Num 1));
     eqBypass := at_ 1%Q;
     flangerLFO_frequency := setValueAtTime (Num 0.5) now (param (Num 440));
     flangerLFOGain := setValueAtTime (Num 0.003) now (param (Num 1));
     flangerWet := setValueAtTime (Num 0) now (param (Num 1));
     flangerBypass := at_ 1%Q;
     chorusLFO_frequency := setValueAtTime (Num 1.5) now (param (Num 440));
     chorusLFOGain := setValueAtTime (Num 0.006) now (param (Num 1));
     chorusWet := setValueAtTime (Num 0) now (param (Num 1));
     chorusBypass := at_ 1%Q;
     delayNode_delayTime := setValueAtTime (Num 0.3) now (param (Num 0));
     delayFeedbackGain := setValueAtTime (Num 0.4) now (param (Num 1));
     delayWet := setValueAtTime (Num 0) now (param (Num 1));
     delayDry := at_ 1%Q;
     reverbNode_buffer := None;
     reverbWet := setValueAtTime (Num 0) now (param (Num 1));
     reverbDry := at_ 1%Q;
     lastReverbDecay := Num (-1);
     impulseResponses := [] |}.

(** The test [Math.abs(fx.reverbDecay - this.lastReverbDecay) > 0.05]. *)
Definition decayChanged (fx : Types.LayerEffects) (c : EffectsChain) : bool :=
  JS.abs (Types.reverbDecay fx - lastReverbDecay c) >? Num 0.05.

Definition applyEffects (now : Q) (fx : Types.LayerEffects) (c : EffectsChain)
  : EffectsChain :=
  let ramp := 0.05%Q in
  let to v p := linearRampToValueAtTime v (now + ramp)%Q p in
  let rebuild := Types.reverbEnabled fx && decayChanged fx c in
  {| (* Distortion *)
     distortionNode_curve :=
       if Types.distortionEnabled fx then Some (Types.distortionAmount fx)
       else distortionNode_curve c;
     distortionWet :=
       to (if Types.distortionEnabled fx then Num 1 else Num 0) (distortionWet c);
     distortionBypass :=
       to (if Types.distortionEnabled fx then Num 0 else Num 1) (distortionBypass c);
     (* EQ *)
     eqLow_gain :=
       if Types.eqEnabled fx then to (Types.eqLowGain fx) (eqLow_gain c)
       else eqLow_gain c;
     eqMid_gain :=
       if Types.eqEnabled fx then to (Types.eqMidGain fx) (eqMid_gain c)
       else eqMid_gain c;
     eqMid_frequency :=
       if Types.eqEnabled fx then to (Types.eqMidFreq fx) (eqMid_frequency c)
       else eqMid_frequency c;
     eqHigh_gain :=
       if Types.eqEnabled fx then to (Types.eqHighGain fx) (eqHigh_gain c)
       else eqHigh_gain c;
     eqWet := to (if Types.eqEnabled fx then Num 1 else Num 0) (eqWet c);
     eqBypass := to (if Types.eqEnabled fx then Num 0 else Num 1) (eqBypass c);
     (* Flanger *)
     flangerLFO_frequency := to (Types.flangerRate fx) (flangerLFO_frequency c);
     flangerLFOGain := to (Types.flangerDepth fx) (flangerLFOGain c);
     flangerWet :=
       to (if Types.flangerEnabled fx then Types.flangerMix fx else Num 0)
          (flangerWet c);
     flangerBypass :=
       to (if Types.flangerEnabled fx then Num 1 - Types.flangerMix fx else Num 1)
          (flangerBypass c);
     (* Chorus *)
     chorusLFO_frequency := to (Types.chorusRate fx) (chorusLFO_frequency c);
     chorusLFOGain := to (Types.chorusDepth fx) (chorusLFOGain c);
     chorusWet :=
       to (if Types.chorusEnabled fx then Types.chorusMix fx else Num 0)
          (chorusWet c);
     chorusBypass :=
       to (if Types.chorusEnabled fx then Num 1 - Types.chorusMix fx else Num 1)
          (chorusBypass c);
     (* Delay *)
     delayNode_delayTime := to (Types.delayTime fx) (delayNode_delayTime c);
     delayFeedbackGain := to (Types.delayFeedback fx) (delayFeedbackGain c);
     delayWet :=
       to (if Types.delayEnabled fx then Types.delayMix fx else Num 0) (delayWet c);
     delayDry := to (Num 1) (delayDry c);
     (* Reverb: only rebuild impulse response when decay value changes *)
     reverbNode_buffer :=
       if rebuild then Some (Types.reverbDecay fx) else reverbNode_buffer c;
     reverbWet :=
       to (if Types.reverbEnabled fx then Types.reverbMix fx else Num 0)
          (reverbWet c);
     reverbDry :=
       to (if Types.reverbEnabled fx
           then Num 1 - Types.reverbMix fx * Num 0.5 else Num 1)
          (reverbDry c);
     lastReverbDecay :=
       if Types.reverbEnabled fx
       then (if decayChanged fx c then Types.reverbDecay fx else lastReverbDecay c)
       else Num (-1) (* reset so next enable rebuilds IR *);
     impulseResponses :=
       if rebuild then Types.reverbDecay fx :: impulseResponses c
       else impulseResponses c |}.

(** A run of [applyEffects] calls, each with the time it is made at. *)
Definition run (calls : list (Q * Types.LayerEffects)) (c : EffectsChain)
  : EffectsChain :=
  foldl (fun c '(now, fx) => applyEffects now fx c) c calls.

End Effects.

(* ================================================================== *)
(** * ModeParams (imageAnalyzer.ts) *)
(* ================================================================== *)

Module ModeParams.

Record OscillatorWeighting : Type := {
  sine : num; triangle : num; sawtooth : num; square : num;
}.

Record t : Type := {
  archetype : Analyzer.ArchetypeId;
  binWeightCurve : list num;
  spectralSmoothing : num;
  detuneSpread : num;
  oscillatorType : OscillatorWeighting;
  attackTime : num;
  releaseTime : num;
  triggerThreshold : num;
  grainDensity : num;
  grainWidth : num;
  rootHz : num;
  scaleRatios : list num;
  harmonicRichness : num;
  stereoWidth : num;
  colorChannelBalance : num * num * num;
  outputGain : num;
}.

End ModeParams.

(* ================================================================== *)
(** * AudioLayerNode.ts *)
(* ================================================================== *)

Module LayerNode.

Import WebAudio.
Local Open Scope js_scope.

Definition NUM_BINS : nat := 24.

Inductive FilterType : Type := allpass | peaking | lowpass.

Record Oscillator : Type := {
  frequency : AudioParam;
  detune : AudioParam;
  type : Types.OscillatorType;
}.

Record AudioLayerNode : Type := {
  _connected : bool;
  currentParams : option ModeParams.t;
  masterGain : AudioParam;
  specOscs : list Oscillator;
  specGains : list AudioParam;
  smoothedBins : list num;
  lastBinFreqs : list num;
  sampleSource : option Granular.AudioBuffer;
  sampleGain : AudioParam;
  sampleModeGain : AudioParam;
  sampleFilter_type : FilterType;
  sampleModeLevel : num;
  granular : option Granular.GranularEngine;
  sampleBuffer : option Granular.AudioBuffer;
  granularScanPos : num;
  pitchSemitones : num;
  lastTriggerTime : num;
  grainTimer : num;
  strikeEnvelope : list num;
  specMixGate : AudioParam;
  mangleSend : AudioParam;
  sampleMangleSend : AudioParam;
  mangleReturn : AudioParam;
}.

(** [dominantOscType]: the first entry, in the order of the keys
    [sine, triangle, sawtooth, square], that no later entry exceeds. *)
Definition dominantOscType (w : ModeParams.OscillatorWeighting) : Types.OscillatorType :=
  let entries := [(Types.sine, ModeParams.sine w);
                  (Types.triangle, ModeParams.triangle w);
                  (Types.sawtooth, ModeParams.sawtooth w);
                  (Types.square, ModeParams.square w)] in
  fst (foldl (fun a b => if snd b >? snd a then b else a)
             (Types.sine, ModeParams.sine w) (tail entries)).

(** [p.cancelScheduledValues(now); p.setValueAtTime(v, now)] *)
Definition snap (v : num) (now : Q) (p : AudioParam) : AudioParam :=
  setValueAtTime v now (cancelScheduledValues now p).

Definition silenceAllBins (now : Q) (gains : list AudioParam) : list AudioParam :=
  snap (Num 0) now <$> gains.

(** The object [{ rootHz, scaleRatios } as ImageProfile]: every other
    field is absent; no reader of this object looks at them. *)
Definition tuning (rootHz : num) (scaleRatios : list num) : Analyzer.ImageProfile :=
  {| Analyzer.rootHz := rootHz; Analyzer.scale := Analyzer.pentatonic;
     Analyzer.scaleRatios := scaleRatios;
     Analyzer.warmth := NaN; Analyzer.saturation := NaN;
     Analyzer.brightness := NaN; Analyzer.contrast := NaN;
     Analyzer.detuneSpread := NaN; Analyzer.rhythmicDensity := NaN;
     Analyzer.spatialLow := NaN; Analyzer.spatialMid := NaN;
     Analyzer.spatialHigh := NaN; Analyzer.generatedModes := [] |}.

(** One step of the loop of [updateBinFrequencies], on oscillator [i]. *)
Definition retune (now : Q) (profile : Analyzer.ImageProfile) (i : nat)
    (osc : Oscillator) (last : num) : Oscillator * num :=
  let freq := Frequency.binToFrequency (JS.of_nat i) (JS.of_nat NUM_BINS)
                (Some profile) in
  if JS.abs (last - freq) >? Num 0.5
  then ({| frequency := linearRampToValueAtTime freq (now + 0.1)%Q (frequency osc);
           detune := detune osc; type := type osc |}, freq)
  else (osc, last).

Definition updateBinFrequencies (now : Q) (profile : Analyzer.ImageProfile)
    (oscs : list Oscillator) (lasts : list num) : list Oscillator * list num :=
  let r := imap (fun i '(osc, last) => retune now profile i osc last)
             (zip oscs lasts) in
  (fst <$> r, snd <$> r).

(** [_initSampleRouting]: the fields it assigns, from the node [n] whose
    [currentParams] is already the new mode. *)
Record Routing : Type := {
  r_sampleSource : option Granular.AudioBuffer;
  r_granular : option Granular.GranularEngine;
  r_granularScanPos : num;
  r_sampleGain : AudioParam;
  r_sampleModeGain : AudioParam;
}.

Definition _initSampleRouting (now : Q) (params : option ModeParams.t)
    (n : AudioLayerNode) : Routing :=
  match sampleBuffer n with
  | None =>
      {| r_sampleSource := sampleSource n; r_granular := granular n;
         r_granularScanPos := granularScanPos n;
         r_sampleGain := sampleGain n; r_sampleModeGain := sampleModeGain n |}
  | Some buffer =>
      let archetype := default Analyzer.tonal (ModeParams.archetype <$> params) in
      let useGranular :=
        bool_decide (archetype = Analyzer.textural)
        || bool_decide (archetype = Analyzer.chromatic_noise) in
      if useGranular then
        let g := default Granular.constructor (granular n) in
        {| r_sampleSource := None;
           r_granular := Some (Granular.reset now (Granular.setBuffer buffer g));
           r_granularScanPos := Num 0;
           r_sampleGain := snap (Num 0) now (sampleGain n);
           r_sampleModeGain := snap (Num 0) now (sampleModeGain n) |}
      else
        {| r_sampleSource := Some buffer;
           r_granular := Granular.reset now <$> granular n;
           r_granularScanPos := granularScanPos n;
           r_sampleGain := snap (Num 0.8) now (sampleGain n);
           r_sampleModeGain := snap (Num 1) now (sampleModeGain n) |}
  end.

Definition setModeParams (now : Q) (params : ModeParams.t) (n : AudioLayerNode)
  : AudioLayerNode :=
  let '(oscs, lasts) :=
    updateBinFrequencies now
      (tuning (ModeParams.rootHz params) (ModeParams.scaleRatios params))
      (specOscs n) (lastBinFreqs n) in
  let oscType := dominantOscType (ModeParams.oscillatorType params) in
  let oscs :=
    (fun osc => {| frequency := frequency osc;
                   detune := setTargetAtTime (Num 0) now (Num 0.05)
                               (cancelScheduledValues now (detune osc));
                   type := oscType |}) <$> oscs in
  let r := _initSampleRouting now (Some params) n in
  {| _connected := _connected n;
     currentParams := Some params;
     masterGain := masterGain n;
     specOscs := oscs;
     specGains := silenceAllBins now (specGains n);
     smoothedBins := (fun _ => Num 0) <$> smoothedBins n;
     lastBinFreqs := lasts;
     sampleSource := r_sampleSource r;
     sampleGain := r_sampleGain r;
     sampleModeGain := r_sampleModeGain r;
     sampleFilter_type := allpass;
     sampleModeLevel := Num 0;
     granular := r_granular r;
     sampleBuffer := sampleBuffer n;
     granularScanPos := r_granularScanPos r;
     pitchSemitones := pitchSemitones n;
     lastTriggerTime := Num 0;
     grainTimer := Num 0;
     strikeEnvelope := strikeEnvelope n;
     specMixGate := snap (Num 1) now (specMixGate n);
     mangleSend := snap (Num 0) now (mangleSend n);
     sampleMangleSend := snap (Num 0) now (sampleMangleSend n);
     mangleReturn := snap (Num 0) now (mangleReturn n) |}.

(** The node as its constructor leaves it, at time [now]. *)
Definition constructor (now : Q) : AudioLayerNode :=
  let freq i := Frequency.binToFrequency (JS.of_nat i) (JS.of_nat NUM_BINS) None in
  {| _connected := true;
     currentParams := None;
     masterGain := setValueAtTime (Num 0) now (param (Num 1));
     specOscs :=
       (fun i => {| frequency := setValueAtTime (freq i) now (param (Num 440));
                    detune := param (Num 0); type := Types.sine |})
       <$> seq 0 NUM_BINS;
     specGains := replicate NUM_BINS (setValueAtTime (Num 0) now (param (Num 1)));
     smoothedBins := replicate NUM_BINS (Num 0);
     lastBinFreqs := freq <$> seq 0 NUM_BINS;
     sampleSource := None;
     sampleGain := setValueAtTime (Num 0) now (param (Num 1));
     sampleModeGain := setValueAtTime (Num 0) now (param (Num 1));
     sampleFilter_type := allpass;
     sampleModeLevel := Num 0;
     granular := None;
     sampleBuffer := None;
     granularScanPos := Num 0;
     pitchSemitones := Num 0;
     lastTriggerTime := Num 0;
     grainTimer := Num 0;
     strikeEnvelope := replicate NUM_BINS (Num 0);
     specMixGate := setValueAtTime (Num 1) now (param (Num 1));
     mangleSend := setValueAtTime (Num 0) now (param (Num 1));
     sampleMangleSend := setValueAtTime (Num 0) now (param (Num 1));
     mangleReturn := setValueAtTime (Num 0) now (param (Num 1)) |}.

End LayerNode.

(* ================================================================== *)
(** * animationLoop.ts and the layer store *)
(* ================================================================== *)

Module Scheduler.

Import Types.
Local Open Scope js_scope.

(** The state of the store (useSonimageStore.ts). *)
Record SonimageState : Type := {
  imageNaturalWidth : Z;
  imageNaturalHeight : Z;
  cachedPixelData : option (list byte);
  imageProfile : option Analyzer.ImageProfile;
  rootOverride : option num;
  scaleOverride : option Analyzer.ScaleType;
  layers : list RectLayer;
  selectedLayerId : option string;
  isPlaying : bool;
  isRecording : bool;
  masterVolume : num;
}.

(** What one layer contributes to [scanUpdates]: the value stored under
    its id, the new scan position, and the scan head in image
    coordinates. *)
Record Scan : Type := {
  scanXUpdate : num;
  newScanPos : num;
  absX : num;
  absY : num;
}.

Definition advance (layer : RectLayer) (delta : num) : Scan :=
  let dir := default horizontal (scanDirection layer) in
  let speed := scanSpeed layer * delta in
  match dir with
  | horizontal =>
      let newScanX := (scanX layer + speed) mod JS.max (width layer) (Num 1) in
      {| scanXUpdate := newScanX;
         newScanPos := newScanX / JS.max (width layer) (Num 1);
         absX := JS.floor (x layer + newScanX);
         absY := JS.floor (y layer + height layer / Num 2) |}
  | vertical =>
      let newScanPos :=
        (default (Num 0) (scanPos layer)
         + speed / JS.max (height layer) (Num 1)) mod Num 1 in
      {| scanXUpdate := scanX layer; (* scanX unchanged *)
         newScanPos := newScanPos;
         absX := JS.floor (x layer + width layer / Num 2);
         absY := JS.floor (y layer + newScanPos * height layer) |}
  | _ =>
      let newScanPos :=
        (default (Num 0) (scanPos layer)
         + speed / JS.max (JS.max (width layer) (height layer)) (Num 1))
        mod Num 1 in
      {| scanXUpdate := scanX layer;
         newScanPos := newScanPos;
         absX := JS.floor (x layer + newScanPos * width layer);
         absY := JS.floor (y layer +
                   match dir with
                   | diagonal_down => newScanPos * height layer
                   | _ => (Num 1 - newScanPos) * height layer
                   end) |}
  end.

(** The body of [layers.forEach] as far as [scanUpdates] goes.  A layer
    without an audio node is skipped. *)
Definition visit (audioNodeMap : gset string) (delta : num)
    (scanUpdates : gmap string num) (layer : RectLayer) : gmap string num :=
  if bool_decide (id layer ∈ audioNodeMap) then
    let s := advance layer delta in
    <[id layer +:+ ":absY" := absY s]>
      (<[id layer +:+ ":absX" := absX s]>
         (<[id layer +:+ ":pos" := newScanPos s]>
            (<[id layer := scanXUpdate s]> scanUpdates)))
  else scanUpdates.

Definition collect (audioNodeMap : gset string) (delta : num)
    (read : list RectLayer) : gmap string num :=
  foldl (visit audioNodeMap delta) ∅ read.

(** The function mapped over [state.layers] by the write-back. *)
Definition writeBackLayer (scanUpdates : gmap string num) (l : RectLayer) : RectLayer :=
  match scanUpdates !! id l with
  | None => l
  | Some sx =>
      {| id := id l; x := x l; y := y l; width := width l; height := height l;
         scanX := sx;
         scanPos :=
           Some (default (default (Num 0) (scanPos l))
                   (scanUpdates !! (id l +:+ ":pos")));
         scanSpeed := scanSpeed l; scanDirection := scanDirection l;
         volume := volume l; muted := muted l;
         generatedModeId := generatedModeId l; pixelMode := pixelMode l;
         soundSource := soundSource l; oscillatorType := oscillatorType l;
         sampleBuffer := sampleBuffer l; color := color l; label := label l;
         selected := selected l; effects := effects l;
         paramOverrides := paramOverrides l;
         pitchSemitones := pitchSemitones l |}
  end.

(** [store.setState((state) => ({ layers: state.layers.map(...) }))] *)
Definition writeBack (scanUpdates : gmap string num) (state : SonimageState)
  : SonimageState :=
  {| imageNaturalWidth := imageNaturalWidth state;
     imageNaturalHeight := imageNaturalHeight state;
     cachedPixelData := cachedPixelData state;
     imageProfile := imageProfile state;
     rootOverride := rootOverride state;
     scaleOverride := scaleOverride state;
     layers := writeBackLayer scanUpdates <$> layers state;
     selectedLayerId := selectedLayerId state;
     isPlaying := isPlaying state;
     isRecording := isRecording state;
     masterVolume := masterVolume state |}.

(** One frame of the loop, as a function of the state it read at the start
    ([read]) and of the state the store holds when the write-back runs. *)
Definition frame (audioNodeMap : gset string) (delta : num) (read : SonimageState)
    (state : SonimageState) : SonimageState :=
  if isPlaying read && bool_decide (is_Some (cachedPixelData read))
     && negb (bool_decide (layers read = []))
  then writeBack (collect audioNodeMap delta (layers read)) state
  else state.

End Scheduler.

(* ================================================================== *)
(** * colorUtils.ts *)
(* ================================================================== *)

Module ColorUtils.

Local Open Scope js_scope.

Definition rgbToHsl (r g b : num) : num * num * num :=
  let rn := r / Num 255 in
  let gn := g / Num 255 in
  let bn := b / Num 255 in
  let max := JS.max (JS.max rn gn) bn in
  let min := JS.min (JS.min rn gn) bn in
  let l := (max + min) / Num 2 in
  if max =? min then (Num 0, Num 0, l)
  else
    let d := max - min in
    let s := if l >? Num 0.5 then d / (Num 2 - max - min) else d / (max + min) in
    let h :=
      if max =? rn then ((gn - bn) / d + (if gn <? bn then Num 6 else Num 0)) / Num 6
      else if max =? gn then ((bn - rn) / d + Num 2) / Num 6
      else ((rn - gn) / d + Num 4) / Num 6 in
    (h * Num 360, s, l).

End ColorUtils.

(* ================================================================== *)
(** * EffectsChain: the distortion curve *)
(* ================================================================== *)

Module Curve.

Local Open Scope js_scope.

Section MakeDistortionCurve.

(** [Math.PI], a double. *)
Variable PI : Q.

(** The samples are kept as numbers: the rounding of the [Float32Array]
    is not modelled. *)
Definition makeDistortionCurve (amount : num) : list num :=
  let n := 256%nat in
  let k := amount in
  (fun i =>
     let x := (JS.of_nat i * Num 2) / JS.of_nat n - Num 1 in
     ((Num PI + k) * x) / (Num PI + k * JS.abs x))
  <$> seq 0 n.

End MakeDistortionCurve.

End Curve.

(* ================================================================== *)
(** * AudioLayerNode.ts: the smoothing helpers *)
(* ================================================================== *)

Module Smoothing.

Local Open Scope js_scope.

(** [Math.sign] *)
Definition sign (a : num) : num :=
  match a with
  | Num q => if JS.Qltb 0 q then Num 1 else if JS.Qltb q 0 then Num (-1) else Num 0
  | NaN => NaN
  end.

Definition slew (current target maxRate dt : num) : num :=
  let delta := target - current in
  let maxDelta := maxRate * dt in
  if JS.abs delta <? maxDelta then target
  else current + sign delta * maxDelta.

(** [slewBins] updates [current] in place; the array it leaves. *)
Definition slewBins (current target : list num) (rate dt : num) : list num :=
  let maxDelta := rate * dt in
  imap (fun i c =>
          let delta := JS.index target i - c in
          c + sign delta * JS.min (JS.abs delta) maxDelta)
       current.

End Smoothing.

(* ================================================================== *)
(** * saveLoad and the actions of the store (useSonimageStore.ts) *)
(* ================================================================== *)

(** A save file.  The fields [loadSaveFile] reads through [??] may be
    missing in a file written by an older version. *)
Module SaveFile.

Record SerializedLayer : Type := {
  id : string;
  x : num;
  y : num;
  width : num;
  height : num;
  scanX : num;
  scanPos : option num;
  scanSpeed : num;
  scanDirection : option Types.ScanDirection;
  volume : num;
  muted : bool;
  generatedModeId : option string;
  pixelMode : Types.PixelMappingMode;
  soundSource : Types.SoundSource;
  oscillatorType : Types.OscillatorType;
  color : string;
  label : string;
  effects : Types.LayerEffects;
  paramOverrides : option (gmap string num);
  pitchSemitones : option num;
}.

Record t : Type := {
  version : Z;
  imageDataUrl : string;
  layers : list SerializedLayer;
}.

End SaveFile.

Module Store.

Import Types Scheduler.

(** The function mapped over [layers] by [serializeComposition]. *)
Definition serializeLayer (l : RectLayer) : SaveFile.SerializedLayer :=
  {| SaveFile.id := id l; SaveFile.x := x l; SaveFile.y := y l;
     SaveFile.width := width l; SaveFile.height := height l;
     SaveFile.scanX := scanX l;
     SaveFile.scanPos := Some (default (Num 0) (scanPos l));
     SaveFile.scanSpeed := scanSpeed l;
     SaveFile.scanDirection := Some (default horizontal (scanDirection l));
     SaveFile.volume := volume l; SaveFile.muted := muted l;
     SaveFile.generatedModeId := generatedModeId l;
     SaveFile.pixelMode := pixelMode l;
     SaveFile.soundSource := soundSource l;
     SaveFile.oscillatorType := oscillatorType l; SaveFile.color := color l;
     SaveFile.label := label l; SaveFile.effects := effects l;
     SaveFile.paramOverrides := Some (default ∅ (paramOverrides l));
     SaveFile.pitchSemitones := Some (default (Num 0) (pitchSemitones l)) |}.

Definition serializeComposition (imageDataUrl : string) (layers : list RectLayer)
  : SaveFile.t :=
  {| SaveFile.version := 1; SaveFile.imageDataUrl := imageDataUrl;
     SaveFile.layers := serializeLayer <$> layers |}.

(** The function mapped over [save.layers] by [loadSaveFile].  [s.effects]
    has every field of [LayerEffects], so spreading it over
    [defaultEffects] gives [s.effects]. *)
Definition loadLayer (s : SaveFile.SerializedLayer) : RectLayer :=
  {| id := SaveFile.id s; x := SaveFile.x s; y := SaveFile.y s;
     width := SaveFile.width s; height := SaveFile.height s;
     scanX := SaveFile.scanX s;
     scanPos := Some (default (Num 0) (SaveFile.scanPos s));
     scanSpeed := SaveFile.scanSpeed s;
     scanDirection := Some (default horizontal (SaveFile.scanDirection s));
     volume := SaveFile.volume s; muted := SaveFile.muted s;
     generatedModeId := SaveFile.generatedModeId s;
     pixelMode := SaveFile.pixelMode s;
     soundSource := SaveFile.soundSource s;
     oscillatorType := SaveFile.oscillatorType s; sampleBuffer := None;
     color := SaveFile.color s; label := SaveFile.label s; selected := false;
     effects := SaveFile.effects s;
     paramOverrides := Some (default ∅ (SaveFile.paramOverrides s));
     pitchSemitones := Some (default (Num 0) (SaveFile.pitchSemitones s)) |}.

(** [loadSaveFile], on the fields of the store this record has. *)
Definition loadSaveFile (save : SaveFile.t) (state : SonimageState) : SonimageState :=
  {| imageNaturalWidth := imageNaturalWidth state;
     imageNaturalHeight := imageNaturalHeight state;
     cachedPixelData := cachedPixelData state; imageProfile := None;
     rootOverride := rootOverride state;
     scaleOverride := scaleOverride state;
     layers := loadLayer <$> SaveFile.layers save; selectedLayerId := None;
     isPlaying := false; isRecording := isRecording state;
     masterVolume := masterVolume state |}.

(** [set((state) => ({ layers: state.layers.map(f) }))] *)
Definition mapLayers (f : RectLayer -> RectLayer) (state : SonimageState)
  : SonimageState :=
  {| imageNaturalWidth := imageNaturalWidth state;
     imageNaturalHeight := imageNaturalHeight state;
     cachedPixelData := cachedPixelData state;
     imageProfile := imageProfile state; rootOverride := rootOverride state;
     scaleOverride := scaleOverride state; layers := f <$> layers state;
     selectedLayerId := selectedLayerId state; isPlaying := isPlaying state;
     isRecording := isRecording state; masterVolume := masterVolume state |}.

(** [l.id === id ? f(l) : l] *)
Definition onLayer (layerId : string) (f : RectLayer -> RectLayer) (l : RectLayer)
  : RectLayer :=
  if bool_decide (id l = layerId) then f l else l.

Definition removeLayer (layerId : string) (state : SonimageState) : SonimageState :=
  {| imageNaturalWidth := imageNaturalWidth state;
     imageNaturalHeight := imageNaturalHeight state;
     cachedPixelData := cachedPixelData state;
     imageProfile := imageProfile state; rootOverride := rootOverride state;
     scaleOverride := scaleOverride state;
     layers := filter (fun l => id l <> layerId) (layers state);
     selectedLayerId := (if bool_decide (selectedLayerId state = Some layerId) then None
        else selectedLayerId state); isPlaying := isPlaying state;
     isRecording := isRecording state; masterVolume := masterVolume state |}.

Definition selectLayer (layerId : option string) (state : SonimageState)
  : SonimageState :=
  let select l :=
    {| id := id l; x := x l; y := y l; width := width l; height := height l;
       scanX := scanX l; scanPos := scanPos l; scanSpeed := scanSpeed l;
       scanDirection := scanDirection l; volume := volume l;
       muted := muted l; generatedModeId := generatedModeId l;
       pixelMode := pixelMode l; soundSource := soundSource l;
       oscillatorType := oscillatorType l; sampleBuffer := sampleBuffer l;
       color := color l; label := label l;
       selected := bool_decide (Some (id l) = layerId); effects := effects l;
       paramOverrides := paramOverrides l;
       pitchSemitones := pitchSemitones l |} in
  {| imageNaturalWidth := imageNaturalWidth state;
     imageNaturalHeight := imageNaturalHeight state;
     cachedPixelData := cachedPixelData state;
     imageProfile := imageProfile state; rootOverride := rootOverride state;
     scaleOverride := scaleOverride state; layers := select <$> layers state;
     selectedLayerId := layerId; isPlaying := isPlaying state;
     isRecording := isRecording state; masterVolume := masterVolume state |}.

Definition toggleMute (layerId : string) : SonimageState -> SonimageState :=
  mapLayers (onLayer layerId (fun l =>
    {| id := id l; x := x l; y := y l; width := width l; height := height l;
       scanX := scanX l; scanPos := scanPos l; scanSpeed := scanSpeed l;
       scanDirection := scanDirection l; volume := volume l;
       muted := negb (muted l); generatedModeId := generatedModeId l;
       pixelMode := pixelMode l; soundSource := soundSource l;
       oscillatorType := oscillatorType l; sampleBuffer := sampleBuffer l;
       color := color l; label := label l; selected := selected l;
       effects := effects l; paramOverrides := paramOverrides l;
       pitchSemitones := pitchSemitones l |})).

Definition setGeneratedMode (layerId modeId : string)
  : SonimageState -> SonimageState :=
  mapLayers (onLayer layerId (fun l =>
    {| id := id l; x := x l; y := y l; width := width l; height := height l;
       scanX := scanX l; scanPos := scanPos l; scanSpeed := scanSpeed l;
       scanDirection := scanDirection l; volume := volume l;
       muted := muted l; generatedModeId := Some modeId;
       pixelMode := pixelMode l; soundSource := soundSource l;
       oscillatorType := oscillatorType l; sampleBuffer := sampleBuffer l;
       color := color l; label := label l; selected := selected l;
       effects := effects l; paramOverrides := paramOverrides l;
       pitchSemitones := pitchSemitones l |})).

(** An empty patch resets the overrides; any other patch is merged over
    them, its keys winning. *)
Definition setParamOverride (layerId : string) (patch : gmap string num)
  : SonimageState -> SonimageState :=
  mapLayers (onLayer layerId (fun l =>
    {| id := id l; x := x l; y := y l; width := width l; height := height l;
       scanX := scanX l; scanPos := scanPos l; scanSpeed := scanSpeed l;
       scanDirection := scanDirection l; volume := volume l;
       muted := muted l; generatedModeId := generatedModeId l;
       pixelMode := pixelMode l; soundSource := soundSource l;
       oscillatorType := oscillatorType l; sampleBuffer := sampleBuffer l;
       color := color l; label := label l; selected := selected l;
       effects := effects l;
       paramOverrides := Some (if bool_decide (patch = ∅) then ∅
               else patch ∪ default ∅ (paramOverrides l));
       pitchSemitones := pitchSemitones l |})).

End Store.

(* ================================================================== *)
(** * Properties *)
(* ================================================================== *)

(** ** The scheduler's write-back (animationLoop.ts) *)

Module SchedulerSpec.

Import Types Scheduler.

(** Every field of a layer record other than [scanX] and [scanPos]. *)
Definition otherFieldsKept (l l' : RectLayer) : Prop :=
  id l' = id l /\ x l' = x l /\ y l' = y l /\ width l' = width l
  /\ height l' = height l /\ scanSpeed l' = scanSpeed l
  /\ scanDirection l' = scanDirection l /\ volume l' = volume l
  /\ muted l' = muted l /\ generatedModeId l' = generatedModeId l
  /\ pixelMode l' = pixelMode l /\ soundSource l' = soundSource l
  /\ oscillatorType l' = oscillatorType l /\ sampleBuffer l' = sampleBuffer l
  /\ color l' = color l /\ label l' = label l /\ selected l' = selected l
  /\ effects l' = effects l /\ paramOverrides l' = paramOverrides l
  /\ pitchSemitones l' = pitchSemitones l.

(** Every field of the store other than [layers]. *)
Definition restOfStoreKept (s s' : SonimageState) : Prop :=
  imageNaturalWidth s' = imageNaturalWidth s
  /\ imageNaturalHeight s' = imageNaturalHeight s
  /\ cachedPixelData s' = cachedPixelData s
  /\ imageProfile s' = imageProfile s
  /\ rootOverride s' = rootOverride s
  /\ scaleOverride s' = scaleOverride s
  /\ selectedLayerId s' = selectedLayerId s
  /\ isPlaying s' = isPlaying s
  /\ isRecording s' = isRecording s
  /\ masterVolume s' = masterVolume s.

Lemma writeBackLayer_keeps scanUpdates l :
  otherFieldsKept l (writeBackLayer scanUpdates l).
Proof.
  unfold writeBackLayer.
  destruct (scanUpdates !! id l); repeat split.
Qed.

Lemma writeBack_lookup scanUpdates state i :
  layers (writeBack scanUpdates state) !! i
  = writeBackLayer scanUpdates <$> layers state !! i.
Proof. simpl. apply list_lookup_fmap. Qed.

(** C5.  Whatever the scheduler read at the start of the frame ([read])
    and whatever the store holds when the write-back runs ([state]), the
    frame leaves the store with the same number of layers in the same
    order, and every layer keeps, in every field other than [scanX] and
    [scanPos], the value the store held at write-back time; the rest of the
    store is untouched as well. *)
Theorem frame_writes_scan_fields_only
    (audioNodeMap : gset string) (delta : num) (read state : SonimageState) :
  let state' := frame audioNodeMap delta read state in
  length (layers state') = length (layers state)
  /\ (forall i l, layers state !! i = Some l ->
        exists l', layers state' !! i = Some l' /\ otherFieldsKept l l')
  /\ restOfStoreKept state state'.
Proof.
  unfold frame.
  destruct (isPlaying read && _ && _); simpl.
  - split; [apply length_fmap|]. split.
    + intros i l Hl. exists (writeBackLayer (collect audioNodeMap delta (layers read)) l).
      split; [|apply writeBackLayer_keeps].
      rewrite list_lookup_fmap, Hl. reflexivity.
    + repeat split.
  - split; [reflexivity|]. split.
    + intros i l Hl. exists l. split; [assumption|]. repeat split.
    + repeat split.
Qed.

End SchedulerSpec.

(** ** The granular engine *)

Module GranularSpec.

Import WebAudio Granular.

(** The number of idle slots of a pool. *)
Fixpoint idleCount (l : list GrainSlot) : nat :=
  match l with
  | [] => 0
  | s :: l' => (if busy s then 0 else 1) + idleCount l'
  end.

(** A run of [tick] calls, each with its parameters and frame time. *)
Fixpoint ticks (fuel : nat) (env : Env) (calls : list (GranularParams * num))
    (e : GranularEngine) : option GranularEngine :=
  match calls with
  | [] => Some e
  | (params, dt) :: calls' =>
      e' ← tick fuel env params dt e; ticks fuel env calls' e'
  end.

(** The interval the specification names, [1 / grainDensity], and the one
    the code computes, [1 / Math.max(1, grainDensity)]. *)
Definition statedInterval (g : Q) : Q := (1 / g)%Q.
Definition clampedInterval (g : Q) : Q := (1 / (if Qle_bool 1 g then g else 1))%Q.

(** [tick] fires one grain per elapsed [interval]: from a timer [t] and a
    frame time [d], with enough fuel, the loop ends, it has fired
    [floor((t + d) / interval)] grains and it keeps the remainder. *)
Definition firesPerInterval (interval : Q) (env : Env) (params : GranularParams)
    (t d : Q) (e : GranularEngine) : Prop :=
  let k := Z.to_nat (Qfloor ((t + d) / interval)) in
  forall fuel, k < fuel ->
    exists r,
      tick fuel env params (Num d) e
      = Some (setTimer (Num r) (Nat.iter k (fireGrain env params) e))
      /\ (r == t + d - inject_Z (Z.of_nat k) * interval)%Q
      /\ (r < interval)%Q
      /\ (0 <= t + d -> 0 <= r)%Q.

(** A concrete engine: a two-second buffer just loaded into a new engine,
    a 44.1 kHz context and a constant random source. *)
Definition env0 : Env :=
  {| currentTime := 0; sampleRate := Num 44100; random := fun _ => Num 0.5 |}.

Definition loaded0 : GranularEngine :=
  setBuffer {| duration := Num 2 |} Granular.constructor.

Definition withDensity (g : num) : GranularParams :=
  {| grainDensity := g; grainDuration := Num 0.05; position := Num 0.5;
     positionScatter := Num 0.1; pitchShift := Num 0; pitchScatter := Num 0;
     stereoWidth := Num 0.5; amplitude := Num 0.5; attackRatio := Num 0.15 |}.

(** *** Elementary facts *)

Lemma setTimer_same e : setTimer (grainTimer e) e = e.
Proof. destruct e; reflexivity. Qed.

Lemma setTimer_setTimer a b e : setTimer a (setTimer b e) = setTimer a e.
Proof. reflexivity. Qed.

Lemma fireGrain_setTimer env params a e :
  fireGrain env params (setTimer a e) = setTimer a (fireGrain env params e).
Proof.
  unfold fireGrain, getFreeSlot; simpl.
  destruct (buffer e); [|reflexivity].
  destruct (list_find _ (slots e)) as [[i s]|]; reflexivity.
Qed.

Lemma iter_fireGrain_setTimer env params a k e :
  Nat.iter k (fireGrain env params) (setTimer a e)
  = setTimer a (Nat.iter k (fireGrain env params) e).
Proof.
  induction k as [|k IH]; simpl; [reflexivity|].
  rewrite IH. apply fireGrain_setTimer.
Qed.

Lemma fireGrain_grainTimer env params e :
  grainTimer (fireGrain env params e) = grainTimer e.
Proof.
  unfold fireGrain.
  destruct (buffer e); [|reflexivity].
  destruct (getFreeSlot e) as [[i s]|]; reflexivity.
Qed.

Lemma fireGrain_buffer env params e :
  buffer (fireGrain env params e) = buffer e.
Proof.
  unfold fireGrain.
  destruct (buffer e) eqn:E; [|assumption].
  destruct (getFreeSlot e) as [[i s]|]; simpl; congruence.
Qed.

Lemma fireGrain_slots_length env params e :
  length (slots (fireGrain env params e)) = length (slots e).
Proof.
  unfold fireGrain.
  destruct (buffer e); [|reflexivity].
  destruct (getFreeSlot e) as [[i s]|]; simpl; [apply length_insert|reflexivity].
Qed.

(** *** The pool *)

Lemma find_idle_None l :
  list_find (fun s => busy s = false) l = None <-> idleCount l = 0.
Proof.
  induction l as [|s l IH]; simpl; [tauto|].
  destruct (decide (busy s = false)) as [E|E].
  - rewrite E. simpl. split; discriminate.
  - destruct (busy s); [|congruence]. simpl.
    destruct (list_find _ l) as [[j s']|]; simpl.
    + split; [discriminate|]. intros H. apply IH in H. discriminate.
    + split; [intros _; apply IH; reflexivity|reflexivity].
Qed.

Lemma find_idle_Some l i s s' :
  list_find (fun s => busy s = false) l = Some (i, s) ->
  busy s' = true ->
  S (idleCount (<[i := s']> l)) = idleCount l.
Proof.
  revert i. induction l as [|x l IH]; intros i; simpl; [discriminate|].
  destruct (decide (busy x = false)) as [E|E].
  - intros [= <- <-] Hs'. simpl. rewrite Hs', E. reflexivity.
  - destruct (busy x) eqn:Ex; [|congruence].
    destruct (list_find _ l) as [[j y]|] eqn:F; simpl; [|discriminate].
    intros [= <- <-] Hs'. simpl. rewrite Ex. simpl.
    apply (IH j); [reflexivity|assumption].
Qed.

Lemma idleCount_0_busy l :
  idleCount l = 0 <-> Forall (fun s => busy s = true) l.
Proof.
  induction l as [|s l IH]; simpl.
  - split; [constructor|reflexivity].
  - destruct (busy s) eqn:E; simpl.
    + rewrite IH. split; [intros H; constructor; assumption|].
      intros H. inversion H; assumption.
    + split; [discriminate|]. intros H. inversion H; congruence.
Qed.

Lemma fireGrain_full env params e :
  idleCount (slots e) = 0 -> fireGrain env params e = e.
Proof.
  intros H. apply find_idle_None in H.
  unfold fireGrain, getFreeSlot. rewrite H.
  destruct (buffer e); reflexivity.
Qed.

Lemma fireGrain_idle env params b e :
  buffer e = Some b -> 0 < idleCount (slots e) ->
  S (idleCount (slots (fireGrain env params e))) = idleCount (slots e)
  /\ length (started (fireGrain env params e)) = S (length (started e)).
Proof.
  intros Hb Hidle. unfold fireGrain, getFreeSlot. rewrite Hb.
  destruct (list_find _ (slots e)) as [[i s]|] eqn:F.
  - simpl. split; [|reflexivity].
    eapply find_idle_Some; [exact F|reflexivity].
  - apply find_idle_None in F. lia.
Qed.

(** A burst of [k] grains on a pool with a buffer: as many play as there
    are idle slots, the others change nothing. *)
Lemma burst env params b k e :
  buffer e = Some b ->
  let e' := Nat.iter k (fireGrain env params) e in
  buffer e' = Some b
  /\ idleCount (slots e') = idleCount (slots e) - k
  /\ length (started e') = length (started e) + Nat.min k (idleCount (slots e)).
Proof.
  intros Hb. cbv zeta. induction k as [|k IH].
  - change (Nat.iter 0 (fireGrain env params) e) with e.
    split; [assumption|]. split; lia.
  - rewrite Nat.iter_succ. destruct IH as (Hb' & Hidle & Hst).
    rewrite fireGrain_buffer. split; [assumption|].
    destruct (idleCount (slots (Nat.iter k (fireGrain env params) e))) eqn:E.
    + rewrite fireGrain_full by assumption. rewrite E, Hst. split; lia.
    + destruct (fireGrain_idle env params b _ Hb') as (H1 & H2); [lia|].
      rewrite H2, Hst. split; lia.
Qed.

Lemma iter_full env params k e :
  idleCount (slots e) = 0 -> Nat.iter k (fireGrain env params) e = e.
Proof.
  intros H. induction k as [|k IH]; simpl; [reflexivity|].
  rewrite IH. apply fireGrain_full; assumption.
Qed.


(** *** The timer loop *)

Lemma Qfloor_unique (x : Q) (z : Z) :
  (inject_Z z <= x)%Q -> (x < inject_Z z + 1)%Q -> Qfloor x = z.
Proof.
  intros Hl Hu.
  pose proof (Qfloor_le x) as H1. pose proof (Qlt_floor x) as H2.
  rewrite inject_Z_plus in H2. change (inject_Z 1) with 1%Q in H2.
  assert (inject_Z z < inject_Z (Qfloor x) + 1)%Q as A by lra.
  assert (inject_Z (Qfloor x) < inject_Z z + 1)%Q as B by lra.
  change 1%Q with (inject_Z 1) in A, B.
  rewrite <- inject_Z_plus in A, B.
  rewrite <- Zlt_Qlt in A, B. lia.
Qed.

Lemma Qdiv_lt_1 (t i : Q) : (0 < i)%Q -> (t / i < 1)%Q <-> (t < i)%Q.
Proof.
  intros Hi. split; intros H.
  - apply (Qmult_lt_compat_r _ _ i) in H; [|assumption].
    rewrite Qmult_1_l in H. unfold Qdiv in H.
    rewrite <- Qmult_assoc, (Qmult_comm (/ i)), Qmult_inv_r, Qmult_1_r in H; lra.
  - apply Qlt_shift_div_r; lra.
Qed.

Lemma Qfloor_div_pred (t i : Q) :
  (0 < i)%Q -> Qfloor ((t - i) / i) = (Qfloor (t / i) - 1)%Z.
Proof.
  intros Hi.
  assert (inject_Z (Qfloor (t / i) - 1) == inject_Z (Qfloor (t / i)) - 1)%Q as Hz.
  { unfold Z.sub. rewrite inject_Z_plus, inject_Z_opp. reflexivity. }
  assert ((t - i) / i == t / i - 1)%Q as Hd by (field; lra).
  apply Qfloor_unique; rewrite Hz, Hd.
  - pose proof (Qfloor_le (t / i)). lra.
  - pose proof (Qlt_floor (t / i)) as H. rewrite inject_Z_plus in H.
    change (inject_Z 1) with 1%Q in H. lra.
Qed.

Lemma tickLoop_spec env params (i : Q) :
  (0 < i)%Q ->
  forall k t e fuel,
    grainTimer e = Num t ->
    Z.to_nat (Qfloor (t / i)) = k ->
    k < fuel ->
    exists r,
      tickLoop fuel env params (Num i) e
      = Some (setTimer (Num r) (Nat.iter k (fireGrain env params) e))
      /\ (r == t - inject_Z (Z.of_nat k) * i)%Q
      /\ (r < i)%Q
      /\ (0 <= t -> 0 <= r)%Q.
Proof.
  intros Hi. induction k as [|k IH]; intros t e fuel Ht Hk Hfuel.
  - destruct fuel as [|fuel]; [lia|]. simpl. rewrite Ht. simpl.
    assert (t < i)%Q as Hlt.
    { apply Qdiv_lt_1; [assumption|].
      pose proof (Qlt_floor (t / i)) as H. rewrite inject_Z_plus in H.
      change (inject_Z 1) with 1%Q in H.
      assert (Qfloor (t / i) <= 0)%Z as Hz by lia.
      rewrite Zle_Qle in Hz. change (inject_Z 0) with 0%Q in Hz. lra. }
    destruct (Qle_bool i t) eqn:E.
    { apply Qle_bool_iff in E. lra. }
    exists t. split; [|split; [|split]].
    + rewrite <- Ht, setTimer_same. reflexivity.
    + change (inject_Z (Z.of_nat 0)) with 0%Q. lra.
    + assumption.
    + tauto.
  - destruct fuel as [|fuel]; [lia|]. simpl tickLoop. rewrite Ht. simpl.
    assert (i <= t)%Q as Hle.
    { destruct (Qlt_le_dec t i) as [Hlt|]; [|assumption].
      apply Qdiv_lt_1 in Hlt; [|assumption].
      pose proof (Qfloor_le (t / i)) as H.
      assert (1 <= Qfloor (t / i))%Z as Hz by lia.
      rewrite Zle_Qle in Hz. change (inject_Z 1) with 1%Q in Hz. lra. }
    destruct (Qle_bool i t) eqn:E.
    2:{ apply Qle_bool_iff in Hle. congruence. }
    destruct (IH (Qred (t - i))
                (fireGrain env params (setTimer (Num (Qred (t - i))) e)) fuel)
      as (r & Hr & Heq & Hlt & Hpos).
    + rewrite fireGrain_grainTimer. reflexivity.
    + rewrite (Qfloor_comp _ ((t - i) / i)) by (rewrite Qred_correct; reflexivity).
      rewrite Qfloor_div_pred by assumption. lia.
    + lia.
    + exists r. split; [|split; [|split]].
      * rewrite Hr. f_equal.
        rewrite fireGrain_setTimer, iter_fireGrain_setTimer, setTimer_setTimer.
        rewrite <- Nat.iter_succ_r. reflexivity.
      * rewrite Heq, Qred_correct.
        rewrite Nat2Z.inj_succ. unfold Z.succ. rewrite inject_Z_plus.
        change (inject_Z 1) with 1%Q. ring.
      * assumption.
      * intros _. apply Hpos. rewrite Qred_correct. lra.
Qed.




(** C10.  While no buffer is set, or once the engine is disconnected, any
    run of [tick] calls returns at once whatever the fuel, and leaves the
    engine exactly as it was, timer included; so the first [tick] after a
    buffer is set behaves as if the unloaded frames had not happened. *)
Theorem tick_unloaded_changes_nothing
    (fuel : nat) (env : Env) (calls : list (GranularParams * num))
    (e : GranularEngine) :
  buffer e = None \/ _active e = false
  \/ (exists now e0, e = disconnect now e0) ->
  ticks fuel env calls e = Some e
  /\ forall b params dt,
       (e' ← ticks fuel env calls e; tick fuel env params dt (setBuffer b e'))
       = tick fuel env params dt (setBuffer b e).
Proof.
  intros H.
  assert (forall params dt, tick fuel env params dt e = Some e) as Htick.
  { intros params dt. unfold tick.
    destruct H as [H|[H|(now & e0 & ->)]].
    - rewrite H. simpl. rewrite orb_true_r. reflexivity.
    - rewrite H. reflexivity.
    - reflexivity. }
  assert (ticks fuel env calls e = Some e) as Hticks.
  { induction calls as [|[params dt] calls IH]; simpl; [reflexivity|].
    rewrite Htick. simpl. assumption. }
  split; [assumption|]. intros b params dt. rewrite Hticks. reflexivity.
Qed.

Lemma tick_unloaded_changes_nothing_witness :
  ticks 0 env0 [(withDensity (Num 10), Num 60); (withDensity (Num 80), Num 3600)]
    Granular.constructor = Some Granular.constructor
  /\ forall b params dt,
       (e' ← ticks 0 env0
               [(withDensity (Num 10), Num 60); (withDensity (Num 80), Num 3600)]
               Granular.constructor;
        tick 0 env0 params dt (setBuffer b e'))
       = tick 0 env0 params dt (setBuffer b Granular.constructor).
Proof.
  apply (tick_unloaded_changes_nothing 0 env0 _ Granular.constructor).
  left. reflexivity.
Defined.

(** C3.  The pool has 32 slots and firing never changes their number.  A
    grain takes the first idle slot: that slot becomes busy with a started
    source and no other slot changes.  When every slot is busy the call
    changes nothing at all.  A burst of 40 grains on the empty pool of a
    loaded engine starts 32 sources, leaves every slot busy, and its last 8
    calls change nothing. *)
Theorem pool_takes_first_idle_and_drops_when_full
    (env : Env) (params : GranularParams) (b : AudioBuffer) (e : GranularEngine) :
  buffer e = Some b ->
  let fire := fireGrain env params in
  length (slots Granular.constructor) = 32
  /\ length (slots (fire e)) = length (slots e)
  /\ (forall i s, getFreeSlot e = Some (i, s) ->
        slots e !! i = Some s /\ busy s = false
        /\ (forall j s', j < i -> slots e !! j = Some s' -> busy s' = true)
        /\ (exists s1, slots (fire e) !! i = Some s1
                       /\ busy s1 = true /\ is_Some (source s1))
        /\ (forall j, j <> i -> slots (fire e) !! j = slots e !! j)
        /\ length (started (fire e)) = S (length (started e)))
  /\ (Forall (fun s => busy s = true) (slots e) -> fire e = e)
  /\ (let e0 := setBuffer b Granular.constructor in
      length (started (Nat.iter 40 fire e0)) = 32
      /\ Forall (fun s => busy s = true) (slots (Nat.iter 40 fire e0))
      /\ Nat.iter 40 fire e0 = Nat.iter 32 fire e0).
Proof.
  intros Hb fire. subst fire. split; [reflexivity|].
  split; [apply fireGrain_slots_length|]. split; [|split].
  - intros i s Hfree. pose proof Hfree as Hfind.
    unfold getFreeSlot in Hfind. apply list_find_Some in Hfind.
    destruct Hfind as (Hi & Hs & Hfirst).
    split; [assumption|]. split; [assumption|]. split.
    { intros j s' Hj Hs'. specialize (Hfirst j s' Hs' Hj).
      destruct (busy s'); congruence. }
    unfold fireGrain. rewrite Hb, Hfree. simpl.
    split; [|split; [|reflexivity]].
    + eexists. split; [apply list_lookup_insert_eq; eapply lookup_lt_Some; eassumption|].
      simpl. split; [reflexivity|]. eexists; reflexivity.
    + intros j Hj. apply list_lookup_insert_ne. congruence.
  - intros Hfull. apply fireGrain_full. apply idleCount_0_busy. assumption.
  - intros e0. subst e0. set (e0 := setBuffer b Granular.constructor).
    destruct (burst env params b 40 e0 eq_refl) as (_ & Hidle & Hst).
    destruct (burst env params b 32 e0 eq_refl) as (_ & Hidle32 & _).
    split; [exact Hst|]. split.
    + apply idleCount_0_busy. rewrite Hidle. reflexivity.
    + change 40 with (8 + 32). rewrite Nat.iter_add.
      apply iter_full. rewrite Hidle32. reflexivity.
Qed.

Lemma pool_takes_first_idle_and_drops_when_full_witness :
  let fire := fireGrain env0 (withDensity (Num 80)) in
  length (started (Nat.iter 40 fire loaded0)) = 32
  /\ Forall (fun s => busy s = true) (slots (Nat.iter 40 fire loaded0))
  /\ Nat.iter 40 fire loaded0 = Nat.iter 32 fire loaded0.
Proof.
  exact (proj2 (proj2 (proj2 (proj2
    (pool_takes_first_idle_and_drops_when_full env0 (withDensity (Num 80))
       {| duration := Num 2 |} loaded0 eq_refl))))).
Defined.

End GranularSpec.

(** ** Automation timelines *)

Module WebAudioSpec.

Import WebAudio.
Local Open Scope Q_scope.

(** A list of linear ramps at strictly increasing times, all after [lo]. *)
Fixpoint rampsAfter (lo : Q) (l : list Event) : Prop :=
  match l with
  | [] => True
  | LinearRamp _ t :: l' => lo < t /\ rampsAfter t l'
  | _ :: _ => False
  end.

Definition upTo (t : Q) (l : list Event) : Prop :=
  Forall (fun e => time e <= t) l.

Lemma Qltb_true x y : JS.Qltb x y = true <-> x < y.
Proof.
  unfold JS.Qltb. rewrite negb_true_iff.
  split; intros H.
  - destruct (Qlt_le_dec x y) as [|Hle]; [assumption|].
    apply Qle_bool_iff in Hle. congruence.
  - destruct (Qle_bool y x) eqn:E; [|reflexivity].
    apply Qle_bool_iff in E. lra.
Qed.

Lemma Qltb_false x y : JS.Qltb x y = false <-> y <= x.
Proof.
  unfold JS.Qltb. rewrite negb_false_iff. apply Qle_bool_iff.
Qed.

Lemma Qle_bool_false x y : Qle_bool x y = false <-> y < x.
Proof.
  split; intros H.
  - destruct (Qlt_le_dec y x) as [|Hle]; [assumption|].
    apply Qle_bool_iff in Hle. congruence.
  - destruct (Qle_bool x y) eqn:E; [|reflexivity].
    apply Qle_bool_iff in E. lra.
Qed.

Lemma Qeq_bool_false x y : ~ x == y -> Qeq_bool x y = false.
Proof.
  intros H. destruct (Qeq_bool x y) eqn:E; [|reflexivity].
  apply Qeq_bool_iff in E. contradiction.
Qed.

(** An event later than every event of the list goes to its end. *)
Lemma insertEvent_later e l :
  Forall (fun x => time x < time e) l -> insertEvent e l = l ++ [e].
Proof.
  induction 1 as [|x l Hx _ IH]; simpl; [reflexivity|].
  rewrite Qeq_bool_false by lra. simpl.
  assert (Qle_bool (time x) (time e) = true) as -> by (apply Qle_bool_iff; lra).
  rewrite IH. reflexivity.
Qed.

(** Once every event is in the past, the parameter rests at the value the
    last event reached. *)
Lemma valueAt_settled p t :
  upTo t (events p) ->
  valueAt p t = match last (events p) with
                | None => Some (defaultValue p)
                | Some e => reached e
                end.
Proof.
  intros H. unfold valueAt.
  assert (List.filter (fun e => Qle_bool (time e) t) (events p) = events p) as ->.
  { induction H as [|x l Hx _ IH]; simpl; [reflexivity|].
    apply Qle_bool_iff in Hx. rewrite Hx, IH. reflexivity. }
  assert (List.filter (fun e => JS.Qltb t (time e)) (events p) = []) as ->.
  { induction H as [|x l Hx _ IH]; simpl; [reflexivity|].
    apply Qltb_false in Hx. rewrite Hx, IH. reflexivity. }
  reflexivity.
Qed.

(** [cancelScheduledValues(now); setValueAtTime(v, now)] leaves the
    parameter at [v] from [now] on. *)
Lemma valueAt_snap v now p t :
  now <= t -> valueAt (LayerNode.snap v now p) t = Some v.
Proof.
  intros Ht. unfold LayerNode.snap, setValueAtTime, schedule.
  set (kept := List.filter (fun e => JS.Qltb (time e) now) (events p)).
  assert (Forall (fun x => time x < now) kept) as Hkept.
  { subst kept. apply List.Forall_forall. intros x Hx.
    apply filter_In in Hx. destruct Hx as [_ Hx]. apply Qltb_true in Hx. exact Hx. }
  simpl events at 1.
  rewrite valueAt_settled; cbn [events cancelScheduledValues].
  - fold kept. rewrite (insertEvent_later (SetValue v now)) by exact Hkept.
    rewrite last_snoc. reflexivity.
  - fold kept. rewrite (insertEvent_later (SetValue v now)) by exact Hkept.
    apply Forall_app. split.
    + eapply Forall_impl; [exact Hkept|]. simpl. intros x Hx. lra.
    + constructor; [simpl; lra|constructor].
Qed.

(** A ramp scheduled no earlier than every ramp of the list ends it. *)
Lemma insertEvent_ramp v t lo l :
  rampsAfter lo l -> upTo t l -> lo < t ->
  exists l', insertEvent (LinearRamp v t) l = l' ++ [LinearRamp v t]
             /\ rampsAfter lo (l' ++ [LinearRamp v t])
             /\ upTo t (l' ++ [LinearRamp v t]).
Proof.
  revert lo. induction l as [|x l IH]; intros lo Hs Hu Hlo.
  - exists []. simpl. repeat split; [assumption|]. constructor; [simpl; lra|constructor].
  - destruct x as [| v1 t1 | |]; simpl in Hs; try contradiction.
    destruct Hs as [Hlo1 Hs]. inversion Hu as [|? ? Ht1 Hu']; subst. simpl in Ht1.
    simpl. destruct (Qeq_bool t1 t) eqn:E; simpl.
    + apply Qeq_bool_iff in E. destruct l as [|y l].
      * exists []. simpl. repeat split; [assumption|].
        constructor; [simpl; lra|constructor].
      * destruct y; simpl in Hs; try contradiction.
        inversion Hu' as [|? ? Hy _]; subst. simpl in Hy. lra.
    + assert (t1 < t) as Hlt.
      { destruct (Qlt_le_dec t1 t) as [|Hle]; [assumption|].
        assert (t1 == t) as Heq by lra. apply Qeq_bool_iff in Heq. congruence. }
      assert (Qle_bool t1 t = true) as -> by (apply Qle_bool_iff; lra).
      destruct (IH t1 Hs Hu' Hlt) as (l' & -> & Hs' & Hu'').
      exists (LinearRamp v1 t1 :: l'). simpl. repeat split; try assumption.
      constructor; [simpl; lra|assumption].
Qed.

End WebAudioSpec.

(** ** The layer synthesizer (AudioLayerNode.ts) *)

Module LayerNodeSpec.

Import WebAudio LayerNode.

(** C4.  For every mode, every node state and every call time [now],
    right after [setModeParams] the node has as many bin gains as before
    (24 on a node made by the constructor), every bin gain is 0 from [now]
    on, so are the gains of the mangle send, of the sample mangle send and
    of the mangle return, and every entry of [smoothedBins] is 0; nothing
    but the call itself is needed for this. *)
Theorem setModeParams_silences_every_bin
    (now t0 : Q) (params : ModeParams.t) (n : AudioLayerNode) :
  let n' := setModeParams now params n in
  length (specGains n') = length (specGains n)
  /\ length (specGains (setModeParams now params (constructor t0))) = 24
  /\ (forall g t, g ∈ specGains n' -> (now <= t)%Q -> valueAt g t = Some (Num 0))
  /\ (forall t, (now <= t)%Q ->
        valueAt (mangleSend n') t = Some (Num 0)
        /\ valueAt (sampleMangleSend n') t = Some (Num 0)
        /\ valueAt (mangleReturn n') t = Some (Num 0))
  /\ length (smoothedBins n') = length (smoothedBins n)
  /\ (forall v, v ∈ smoothedBins n' -> v = Num 0).
Proof.
  intros n'. subst n'. unfold setModeParams.
  destruct (updateBinFrequencies now _ (specOscs n) (lastBinFreqs n)) as [oscs lasts].
  destruct (updateBinFrequencies now _ (specOscs (constructor t0))
              (lastBinFreqs (constructor t0))) as [oscs0 lasts0].
  cbn [specGains mangleSend sampleMangleSend mangleReturn smoothedBins].
  unfold silenceAllBins.
  split; [apply length_fmap|]. split; [reflexivity|]. split; [|split; [|split]].
  - intros g t Hg Ht. apply list_elem_of_fmap in Hg. destruct Hg as (p & -> & _).
    apply WebAudioSpec.valueAt_snap. assumption.
  - intros t Ht. repeat split; apply WebAudioSpec.valueAt_snap; assumption.
  - apply length_fmap.
  - intros v Hv. apply list_elem_of_fmap in Hv. destruct Hv as (? & -> & _).
    reflexivity.
Qed.

End LayerNodeSpec.

(** ** The effects chain *)

Module EffectsSpec.

Import WebAudio Types Effects.

(** [a] and [b] are more than 0.05 apart: the test of [applyEffects]. *)
Definition far (a b : num) : Prop :=
  JS.gtb (JS.abs (JS.sub a b)) (Num 0.05) = true.

(** Rebuild decays, oldest first, each far from the decay cached before
    it, starting from the cached decay [prev]. *)
Fixpoint spaced (prev : num) (builds : list num) : Prop :=
  match builds with
  | [] => True
  | d :: builds' => far d prev /\ spaced d builds'
  end.

(** The reading of the specification: every rebuild is far from the
    rebuild before it (decays oldest first). *)
Fixpoint farFromPrevious (builds : list num) : Prop :=
  match builds with
  | d0 :: ((d1 :: _) as builds') => far d1 d0 /\ farFromPrevious builds'
  | _ => True
  end.

Definition withReverb (enabled : bool) (decay : num) : LayerEffects :=
  {| reverbEnabled := enabled; reverbMix := reverbMix defaultEffects;
     reverbDecay := decay;
     delayEnabled := delayEnabled defaultEffects;
     delayTime := delayTime defaultEffects;
     delayFeedback := delayFeedback defaultEffects;
     delayMix := delayMix defaultEffects;
     distortionEnabled := distortionEnabled defaultEffects;
     distortionAmount := distortionAmount defaultEffects;
     flangerEnabled := flangerEnabled defaultEffects;
     flangerRate := flangerRate defaultEffects;
     flangerDepth := flangerDepth defaultEffects;
     flangerMix := flangerMix defaultEffects;
     chorusEnabled := chorusEnabled defaultEffects;
     chorusRate := chorusRate defaultEffects;
     chorusDepth := chorusDepth defaultEffects;
     chorusMix := chorusMix defaultEffects;
     eqEnabled := eqEnabled defaultEffects;
     eqLowGain := eqLowGain defaultEffects;
     eqMidGain := eqMidGain defaultEffects;
     eqHighGain := eqHighGain defaultEffects;
     eqMidFreq := eqMidFreq defaultEffects |}.

Lemma not_far_self d : ~ far d d.
Proof.
  unfold far. destruct d as [q|]; simpl; [|discriminate].
  intros H. apply WebAudioSpec.Qltb_true in H.
  assert (Qred (q - q) == 0)%Q as E by (rewrite Qred_correct; ring).
  rewrite E in H. discriminate H.
Qed.

Lemma decayChanged_far fx c :
  decayChanged fx c = true <-> far (reverbDecay fx) (lastReverbDecay c).
Proof. reflexivity. Qed.

Lemma last_nonempty {A : Type} (x : A) (l : list A) (d d' : A) :
  List.last (x :: l) d = List.last (x :: l) d'.
Proof.
  revert x. induction l as [|y l IH]; intros x; [reflexivity|].
  change (List.last (y :: l) d = List.last (y :: l) d'). apply IH.
Qed.

(** While reverb stays enabled, each rebuild is far from the decay cached
    before it, and the cache ends at the last rebuild. *)
Lemma run_enabled calls :
  Forall (fun call => reverbEnabled (snd call) = true) calls ->
  forall c, exists builds,
    impulseResponses (run calls c) = rev builds ++ impulseResponses c
    /\ spaced (lastReverbDecay c) builds
    /\ lastReverbDecay (run calls c) = List.last builds (lastReverbDecay c).
Proof.
  induction 1 as [|[now fx] calls Hfx _ IH]; intros c.
  - exists []. repeat split.
  - simpl in Hfx. unfold run. simpl. fold (run calls (applyEffects now fx c)).
    destruct (IH (applyEffects now fx c)) as (builds & Htrace & Hsp & Hlast).
    simpl in Htrace, Hsp, Hlast. rewrite Hfx in Htrace, Hsp, Hlast.
    simpl in Htrace, Hsp, Hlast.
    destruct (decayChanged fx c) eqn:E.
    + exists (reverbDecay fx :: builds). split; [|split].
      * rewrite Htrace. simpl. rewrite <- app_assoc. reflexivity.
      * split; [apply decayChanged_far; assumption|assumption].
      * rewrite Hlast. destruct builds as [|d builds]; [reflexivity|].
        change (List.last (d :: builds) (reverbDecay fx)
                = List.last (d :: builds) (lastReverbDecay c)).
        apply last_nonempty.
    + exists builds. repeat split; assumption.
Qed.

(** The wet gain of the reverb: the constructor's [setValueAtTime(0, t0)]
    followed by the ramps of the calls made so far. *)
Definition wetTimeline (t0 upto : Q) (p : AudioParam) : Prop :=
  exists ramps, events p = SetValue (Num 0) t0 :: ramps
                /\ WebAudioSpec.rampsAfter t0 ramps
                /\ WebAudioSpec.upTo upto ramps.

Lemma applyEffects_wet t0 upto now fx c :
  wetTimeline t0 upto (reverbWet c) ->
  (t0 <= now)%Q -> (upto <= now + 0.05)%Q ->
  wetTimeline t0 (now + 0.05) (reverbWet (applyEffects now fx c))
  /\ forall t, (now + 0.05 <= t)%Q ->
       valueAt (reverbWet (applyEffects now fx c)) t
       = Some (if reverbEnabled fx then reverbMix fx else Num 0).
Proof.
  intros (ramps & Hev & Hs & Hu) Ht0 Hup.
  set (v := if reverbEnabled fx then reverbMix fx else Num 0).
  destruct (WebAudioSpec.insertEvent_ramp v (now + 0.05) t0 ramps Hs)
    as (l' & Hins & Hs' & Hu').
  { eapply Forall_impl; [exact Hu|]. simpl. intros e He. lra. }
  { lra. }
  assert (events (reverbWet (applyEffects now fx c))
          = SetValue (Num 0) t0 :: l' ++ [LinearRamp v (now + 0.05)]) as Hev'.
  { cbn [applyEffects reverbWet linearRampToValueAtTime schedule events].
    rewrite Hev. simpl.
    rewrite WebAudioSpec.Qeq_bool_false by lra. simpl.
    assert (Qle_bool t0 (now + 0.05) = true) as -> by (apply Qle_bool_iff; lra).
    fold v. rewrite Hins. reflexivity. }
  split.
  - exists (l' ++ [LinearRamp v (now + 0.05)]). repeat split; assumption.
  - intros t Ht. rewrite WebAudioSpec.valueAt_settled.
    + rewrite Hev'. rewrite app_comm_cons, last_snoc. reflexivity.
    + rewrite Hev'. constructor; [simpl; lra|].
      eapply Forall_impl; [exact Hu'|]. simpl. intros e He. lra.
Qed.

Lemma constructor_wet t0 : wetTimeline t0 t0 (reverbWet (Effects.constructor t0)).
Proof. exists []. repeat split. constructor. Qed.

(** C9 (as amended).  While reverb stays enabled, [applyEffects] rebuilds
    the impulse response only when [reverbDecay] is more than 0.05 away
    from the cached decay: the decay of the latest rebuild, or -1 on a new
    chain and after any call with reverb disabled (so the first enabled
    call after a disabled one rebuilds, whatever the decay).  Of two
    consecutive enabled calls with the same decay the second never
    rebuilds, and on a new chain the two build the response exactly once
    when the decay is more than 0.05 away from -1.  Toggling reverb off, on
    and off again leaves the wet gain at 0 from 50 ms after the last
    call. *)
Theorem reverb_rebuilds_on_cached_decay_change
    (t0 t1 t2 t3 : Q) (off1 on off2 : LayerEffects)
    (calls : list (Q * LayerEffects)) (c : EffectsChain) :
  (t0 <= t1)%Q -> (t1 <= t2)%Q -> (t2 <= t3)%Q ->
  reverbEnabled off1 = false -> reverbEnabled on = true ->
  reverbEnabled off2 = false ->
  Forall (fun call => reverbEnabled (snd call) = true) calls ->
  (exists builds,
      impulseResponses (run calls c) = rev builds ++ impulseResponses c
      /\ spaced (lastReverbDecay c) builds
      /\ lastReverbDecay (run calls c) = List.last builds (lastReverbDecay c))
  /\ lastReverbDecay (Effects.constructor t0) = Num (-1)
  /\ lastReverbDecay (applyEffects t1 off1 c) = Num (-1)
  /\ impulseResponses (applyEffects t1 off1 c) = impulseResponses c
  /\ (forall fx2, reverbEnabled fx2 = true -> reverbDecay fx2 = reverbDecay on ->
        impulseResponses (applyEffects t2 fx2 (applyEffects t1 on c))
        = impulseResponses (applyEffects t1 on c))
  /\ (forall fx2, reverbEnabled fx2 = true -> reverbDecay fx2 = reverbDecay on ->
        far (reverbDecay on) (Num (-1)) ->
        impulseResponses
          (applyEffects t2 fx2 (applyEffects t1 on (Effects.constructor t0)))
        = [reverbDecay on])
  /\ (forall t, (t3 + 0.05 <= t)%Q ->
        valueAt (reverbWet (run [(t1, off1); (t2, on); (t3, off2)]
                              (Effects.constructor t0))) t
        = Some (Num 0)).
Proof.
  intros H01 H12 H23 Hoff1 Hon Hoff2 Hcalls.
  split; [apply run_enabled; assumption|].
  split; [reflexivity|].
  split; [simpl; rewrite Hoff1; reflexivity|].
  split; [simpl; rewrite Hoff1; reflexivity|].
  assert (forall fx2 c0, reverbEnabled fx2 = true ->
            reverbDecay fx2 = reverbDecay on ->
            decayChanged fx2 (applyEffects t1 on c0) = false) as Hsame.
  { intros fx2 c0 H2 Hd. destruct (decayChanged fx2 _) eqn:E; [|reflexivity].
    exfalso.
    assert (lastReverbDecay (applyEffects t1 on c0)
            = if decayChanged on c0 then reverbDecay on else lastReverbDecay c0)
      as HL by (simpl; rewrite Hon; reflexivity).
    unfold decayChanged at 1 in E. rewrite HL, Hd in E.
    destruct (decayChanged on c0) eqn:E1.
    - exact (not_far_self _ E).
    - unfold decayChanged in E1. congruence. }
  split; [|split].
  - intros fx2 H2 Hd. cbn [applyEffects impulseResponses].
    fold (applyEffects t1 on c). rewrite H2, (Hsame fx2 c H2 Hd). reflexivity.
  - intros fx2 H2 Hd Hfar. cbn [applyEffects impulseResponses].
    fold (applyEffects t1 on (Effects.constructor t0)).
    rewrite H2, (Hsame fx2 _ H2 Hd).
    assert (decayChanged on (Effects.constructor t0) = true) as Hc by exact Hfar.
    cbn [applyEffects impulseResponses andb]. rewrite Hon, Hc. reflexivity.
  - intros t Ht. unfold run. simpl.
    destruct (applyEffects_wet t0 t0 t1 off1 _ (constructor_wet t0)) as [W1 _];
      [lra|lra|].
    destruct (applyEffects_wet t0 _ t2 on _ W1) as [W2 _]; [lra|lra|].
    destruct (applyEffects_wet t0 _ t3 off2 _ W2) as [_ V]; [lra|lra|].
    rewrite V by assumption. rewrite Hoff2. reflexivity.
Qed.

Lemma reverb_rebuilds_on_cached_decay_change_witness :
  impulseResponses
    (applyEffects 2 (withReverb true (Num 2))
       (applyEffects 1 (withReverb true (Num 2)) (Effects.constructor 0)))
  = [Num 2]
  /\ forall t, (3 + 0.05 <= t)%Q ->
       valueAt (reverbWet (run [(1%Q, withReverb false (Num 2));
                                (2%Q, withReverb true (Num 2));
                                (3%Q, withReverb false (Num 2))]
                             (Effects.constructor 0))) t
       = Some (Num 0).
Proof.
  destruct (reverb_rebuilds_on_cached_decay_change 0 1 2 3
              (withReverb false (Num 2)) (withReverb true (Num 2))
              (withReverb false (Num 2)) [] (Effects.constructor 0))
    as (_ & _ & _ & _ & _ & Honce & Hwet);
    [discriminate|discriminate|discriminate|reflexivity|reflexivity|reflexivity
    |constructor|].
  split; [|exact Hwet].
  apply (Honce (withReverb true (Num 2))); reflexivity.
Defined.

(** C9 (as stated) fails across a toggle: enabling reverb at decay 2,
    disabling it and enabling it again at decay 2 builds the impulse
    response twice, though the decay is that of the last rebuild. *)
Lemma reverb_rebuilds_after_toggle_without_change :
  ~ farFromPrevious
      (rev (impulseResponses
              (run [(1%Q, withReverb true (Num 2));
                    (2%Q, withReverb false (Num 2));
                    (3%Q, withReverb true (Num 2))]
                 (Effects.constructor 0)))).
Proof.
  vm_compute. intros [H _]. discriminate H.
Qed.

End EffectsSpec.

(** ** Numbers: what an expression evaluates to *)

Module JSFacts.

Local Open Scope Q_scope.

(** [rep a q]: the number [a] is the rational [q]. *)
Definition rep (a : num) (q : Q) : Prop :=
  match a with
  | Num x => x == q
  | NaN => False
  end.

Lemma rep_Num q : rep (Num q) q.
Proof. simpl. reflexivity. Qed.

Lemma rep_eq a q q' : rep a q -> q == q' -> rep a q'.
Proof. destruct a; simpl; [|tauto]. intros -> ->. reflexivity. Qed.

Lemma rep_inv a q : rep a q -> exists x, a = Num x /\ x == q.
Proof. destruct a as [x|]; simpl; [|tauto]. intros H. exists x. split; auto. Qed.

Lemma rep_same a b q : rep a q -> rep b q -> JS.same a b.
Proof.
  destruct a, b; simpl; try tauto. intros -> ->. reflexivity.
Qed.

Lemma rep_add a b x y : rep a x -> rep b y -> rep (a + b)%js (x + y).
Proof.
  destruct a, b; simpl; try tauto. intros -> ->. apply Qred_correct.
Qed.

Lemma rep_sub a b x y : rep a x -> rep b y -> rep (a - b)%js (x - y).
Proof.
  destruct a, b; simpl; try tauto. intros -> ->. apply Qred_correct.
Qed.

Lemma rep_mul a b x y : rep a x -> rep b y -> rep (a * b)%js (x * y).
Proof.
  destruct a, b; simpl; try tauto. intros -> ->. apply Qred_correct.
Qed.

Lemma rep_div a b x y : rep a x -> rep b y -> ~ y == 0 -> rep (a / b)%js (x / y).
Proof.
  destruct a as [a|], b as [b|]; simpl; try tauto. intros Ha Hb Hy.
  rewrite WebAudioSpec.Qeq_bool_false by (rewrite Hb; exact Hy).
  simpl. rewrite Qred_correct, Ha, Hb. reflexivity.
Qed.

Lemma rep_min a b x y : rep a x -> rep b y -> rep (JS.min a b) (Qmin x y).
Proof.
  destruct a as [a|], b as [b|]; simpl; try tauto. intros Ha Hb.
  rewrite <- Ha, <- Hb.
  destruct (Qle_bool a b) eqn:E.
  - apply Qle_bool_iff in E. symmetry. apply Q.min_l. assumption.
  - apply WebAudioSpec.Qle_bool_false in E. symmetry. apply Q.min_r. lra.
Qed.

Lemma rep_max a b x y : rep a x -> rep b y -> rep (JS.max a b) (Qmax x y).
Proof.
  destruct a as [a|], b as [b|]; simpl; try tauto. intros Ha Hb.
  rewrite <- Ha, <- Hb.
  destruct (Qle_bool a b) eqn:E.
  - apply Qle_bool_iff in E. symmetry. apply Q.max_r. assumption.
  - apply WebAudioSpec.Qle_bool_false in E. symmetry. apply Q.max_l. lra.
Qed.

Lemma rep_abs a x : rep a x -> rep (JS.abs a) (Qabs x).
Proof. destruct a; simpl; [|tauto]. intros ->. reflexivity. Qed.

Lemma rep_floor a x : rep a x -> rep (JS.floor a) (inject_Z (Qfloor x)).
Proof. destruct a; simpl; [|tauto]. intros ->. reflexivity. Qed.

Lemma rep_of_nat n : rep (JS.of_nat n) (inject_Z (Z.of_nat n)).
Proof. simpl. reflexivity. Qed.

Lemma Qtrunc_nonneg x : 0 <= x -> JS.Qtrunc x = Qfloor x.
Proof.
  intros H. unfold JS.Qtrunc.
  assert (JS.Qltb x 0 = false) as -> by (apply WebAudioSpec.Qltb_false; assumption).
  reflexivity.
Qed.

(** [a % b] for a non-negative [a] and a positive [b]. *)
Lemma rep_rem a b x y :
  rep a x -> rep b y -> 0 <= x -> 0 < y ->
  rep (a mod b)%js (x - y * inject_Z (Qfloor (x / y))).
Proof.
  destruct a as [a|], b as [b|]; simpl; try tauto. intros Ha Hb Hx Hy.
  rewrite WebAudioSpec.Qeq_bool_false by (rewrite Hb; lra).
  simpl. rewrite Qred_correct.
  rewrite Qtrunc_nonneg.
  - rewrite (Qfloor_comp (a / b) (x / y)) by (rewrite Ha, Hb; reflexivity).
    rewrite Ha, Hb. reflexivity.
  - rewrite Ha, Hb. apply Qle_shift_div_l; lra.
Qed.

Lemma ltb_rep a b x y : rep a x -> rep b y -> (a <? b)%js = true <-> x < y.
Proof.
  destruct a as [a|], b as [b|]; simpl; try tauto. intros Ha Hb.
  rewrite WebAudioSpec.Qltb_true, Ha, Hb. reflexivity.
Qed.

Lemma ltb_rep_false a b x y : rep a x -> rep b y -> (a <? b)%js = false <-> y <= x.
Proof.
  destruct a as [a|], b as [b|]; simpl; try tauto. intros Ha Hb.
  rewrite WebAudioSpec.Qltb_false, Ha, Hb. reflexivity.
Qed.

Lemma leb_rep a b x y : rep a x -> rep b y -> (a <=? b)%js = true <-> x <= y.
Proof.
  destruct a as [a|], b as [b|]; simpl; try tauto. intros Ha Hb.
  rewrite Qle_bool_iff, Ha, Hb. reflexivity.
Qed.

Lemma eqb_rep a b x y : rep a x -> rep b y -> (a =? b)%js = true <-> x == y.
Proof.
  destruct a as [a|], b as [b|]; simpl; try tauto. intros Ha Hb.
  rewrite Qeq_bool_iff, Ha, Hb. reflexivity.
Qed.

Lemma Qfloor_inject_Z z : Qfloor (inject_Z z) = z.
Proof. unfold Qfloor, inject_Z. apply Z.div_1_r. Qed.

(** [arr[k]] at a number that is a non-negative integer. *)
Lemma get_rep arr k z :
  rep k (inject_Z z) -> (0 <= z)%Z -> JS.get arr k = JS.index arr (Z.to_nat z).
Proof.
  destruct k as [q|]; simpl; [|tauto]. intros Hq Hz.
  rewrite (Qfloor_comp q (inject_Z z)) by assumption.
  rewrite Qfloor_inject_Z.
  assert (Qeq_bool q (inject_Z z) = true) as -> by (apply Qeq_bool_iff; assumption).
  assert (Qle_bool 0 q = true) as ->.
  { apply Qle_bool_iff. rewrite Hq. change 0 with (inject_Z 0).
    rewrite <- Zle_Qle. assumption. }
  reflexivity.
Qed.

Lemma pow2_rep k z : rep k (inject_Z z) -> rep (JS.pow2 k) (2 ^ z).
Proof.
  destruct k as [q|]; simpl; [|tauto]. intros Hq.
  rewrite (Qfloor_comp q (inject_Z z)) by assumption.
  rewrite Qfloor_inject_Z. apply Qred_correct.
Qed.

Lemma index_fmap_Num qs i q :
  qs !! i = Some q -> JS.index (Num <$> qs) i = Num q.
Proof.
  intros H. unfold JS.index. rewrite list_lookup_fmap, H. reflexivity.
Qed.

End JSFacts.

(** ** analyzeImage (imageAnalyzer.ts) *)

Module AnalyzerSpec.

Import Analyzer JSFacts.

(** An integer square root, to run [analyzeImage] on concrete images. *)
Definition isqrt (q : Q) : Q := inject_Z (Z.sqrt (Qfloor q)).

(** An image of [k] black opaque pixels. *)
Definition blackImage (k : nat) : list byte :=
  concat (replicate k [x00; x00; x00; xff]).

(** The buffer holds [npix] whole RGBA pixels. *)
Definition wholePixels (pixelData : list byte) (npix : nat) : Prop :=
  length pixelData = 4 * npix.

(** Every pixel has R = G = B = 0 (the alpha byte is free). *)
Definition blackPixels (pixelData : list byte) : Prop :=
  forall j c b, c < 3 -> pixelData !! (4 * j + c) = Some b -> b = x00.

(** The modes of a profile are between 3 and 5, in non-increasing order
    of score, and from the fourth on they score at least the threshold. *)
Definition sortedByScore (modes : list GeneratedMode) : Prop :=
  forall i a b, modes !! i = Some a -> modes !! S i = Some b ->
    JS.le (gm_score b) (gm_score a).

Definition modesOk (p : ImageProfile) : Prop :=
  3 <= length (generatedModes p) <= 5
  /\ sortedByScore (generatedModes p)
  /\ (forall i m, generatedModes p !! i = Some m -> 3 <= i ->
        JS.le THRESHOLD (gm_score m)).

(** The statement about a fully dark image, with the archetype that is to
    come first. *)
Definition darkProfile (first : ArchetypeId) (p : ImageProfile) : Prop :=
  warmth p = Num (1 # 2) /\ saturation p = Num 0 /\ contrast p = Num 0
  /\ head (gm_archetype <$> generatedModes p) = Some first.

(** The sums the sampling loop leaves on [c] black pixels, and the spatial
    estimate of a black image. *)
Definition blackSums (c : nat) : ColorAcc :=
  {| totalR := Num 0; totalG := Num 0; totalB := Num 0; count := c;
     brightnessValues := replicate c (Num 0) |}.

Definition flat : Spatial := {| low := Num 0; mid := Num 0; high := Num 0 |}.

(** The profile of a black image. *)
Definition blackProfile : ImageProfile :=
  Eval vm_compute in profileOf isqrt (blackSums 1) flat.

(** *** The loops on a black image *)

Section Black.

Variable pixelData : list byte.
Variable npix : nat.
Hypothesis Hwhole : wholePixels pixelData npix.
Hypothesis Hblack : blackPixels pixelData.

Lemma px_black j c :
  j < npix -> c < 3 -> px pixelData (4 * j + c) = Num 0.
Proof.
  intros Hj Hc. unfold px.
  destruct (lookup_lt_is_Some_2 pixelData (4 * j + c)) as [b Hb].
  { rewrite Hwhole. lia. }
  rewrite Hb. rewrite (Hblack j c b Hc Hb). reflexivity.
Qed.

Lemma px_black0 j : j < npix -> px pixelData (4 * j) = Num 0.
Proof.
  intros Hj. replace (4 * j) with (4 * j + 0) by lia. apply px_black; lia.
Qed.

Lemma luma_black j : j < npix -> luma pixelData (4 * j) = Num 0.
Proof.
  intros Hj. unfold luma.
  rewrite px_black0, !px_black by lia. reflexivity.
Qed.

Lemma colorLoop_black s fuel :
  forall j c,
    exists c',
      colorLoop fuel pixelData (4 * s) (4 * j)
        {| totalR := Num 0; totalG := Num 0; totalB := Num 0; count := c;
           brightnessValues := replicate c (Num 0) |}
      = {| totalR := Num 0; totalG := Num 0; totalB := Num 0; count := c';
           brightnessValues := replicate c' (Num 0) |}
      /\ c <= c' /\ (j < npix -> 0 < fuel -> c < c').
Proof.
  induction fuel as [|fuel IH]; intros j c; cbn [colorLoop].
  - exists c. split; [reflexivity|lia].
  - destruct (4 * j <? length pixelData) eqn:E.
    + apply Nat.ltb_lt in E. rewrite Hwhole in E.
      assert (colorStep pixelData (4 * j)
                {| totalR := Num 0; totalG := Num 0; totalB := Num 0; count := c;
                   brightnessValues := replicate c (Num 0) |}
              = {| totalR := Num 0; totalG := Num 0; totalB := Num 0; count := S c;
                   brightnessValues := replicate (S c) (Num 0) |}) as ->.
      { unfold colorStep. cbn [totalR totalG totalB count brightnessValues].
        rewrite px_black0, !px_black by lia.
        rewrite replicate_S_end. reflexivity. }
      replace (4 * j + 4 * s) with (4 * (j + s)) by lia.
      destruct (IH (j + s) (S c)) as (c' & -> & Hc' & _).
      exists c'. split; [reflexivity|]. lia.
    + exists c. split; [reflexivity|]. apply Nat.ltb_ge in E.
      rewrite Hwhole in E. lia.
Qed.

Lemma spatialLoop_black s fuel :
  forall j c,
    exists c',
      spatialLoop fuel pixelData (4 * s) (4 * j)
        {| diffClose := Num 0; diffMid := Num 0; diffFar := Num 0; n := c |}
      = {| diffClose := Num 0; diffMid := Num 0; diffFar := Num 0; n := c' |}
      /\ c <= c' /\ (j + 8 < npix -> 0 < fuel -> c < c').
Proof.
  induction fuel as [|fuel IH]; intros j c; cbn [spatialLoop].
  - exists c. split; [reflexivity|lia].
  - destruct (Z.of_nat (4 * j) <? Z.of_nat (length pixelData) - 8 * 4)%Z eqn:E.
    + apply Z.ltb_lt in E. rewrite Hwhole in E.
      assert (spatialStep pixelData (4 * j)
                {| diffClose := Num 0; diffMid := Num 0; diffFar := Num 0; n := c |}
              = {| diffClose := Num 0; diffMid := Num 0; diffFar := Num 0;
                   n := S c |}) as ->.
      { unfold spatialStep. cbn [diffClose diffMid diffFar n].
        rewrite Hwhole.
        replace (Nat.min (4 * j + 8 * 4) (4 * npix - 4)) with (4 * (j + 8)) by lia.
        replace (4 * j + 4) with (4 * (j + 1)) by lia.
        replace (4 * j + 4 * 4) with (4 * (j + 4)) by lia.
        rewrite !luma_black by lia. reflexivity. }
      replace (4 * j + 4 * s) with (4 * (j + s)) by lia.
      destruct (IH (j + s) (S c)) as (c' & -> & Hc' & _).
      exists c'. split; [reflexivity|]. lia.
    + exists c. split; [reflexivity|]. apply Z.ltb_ge in E.
      rewrite Hwhole in E. lia.
Qed.

End Black.

Lemma stride_4 width height k :
  stride width height k = 4 * Z.to_nat (Z.max 1 (width * height / k)).
Proof. unfold stride. lia. Qed.

Lemma colorStats_black pixelData npix width height :
  wholePixels pixelData npix -> blackPixels pixelData -> 0 < npix ->
  exists c, colorStats pixelData width height = blackSums c /\ 0 < c.
Proof.
  intros Hw Hb Hn. unfold colorStats. rewrite stride_4.
  destruct (colorLoop_black pixelData npix Hw Hb
              (Z.to_nat (Z.max 1 (width * height / 4096))) (length pixelData) 0 0)
    as (c & Hc & _ & Hpos).
  change (4 * 0) with 0 in Hc.
  exists c. split; [exact Hc|]. apply Hpos; [assumption|]. rewrite Hw. lia.
Qed.

Lemma zero_div k : 0 < k -> (Num 0 / JS.of_nat k)%js = Num 0.
Proof.
  intros Hk. unfold JS.of_nat, JS.of_Z, JS.div.
  rewrite WebAudioSpec.Qeq_bool_false.
  - assert (0 / inject_Z (Z.of_nat k) == 0)%Q as E
      by (unfold Qdiv; apply Qmult_0_l).
    simpl. rewrite (Qred_complete _ _ E). reflexivity.
  - intros H. assert (inject_Z 0 < inject_Z (Z.of_nat k))%Q as Hlt
      by (rewrite <- Zlt_Qlt; lia).
    change (inject_Z 0) with 0%Q in Hlt. rewrite H in Hlt. discriminate Hlt.
Qed.

Lemma estimateSpatialFreqs_black pixelData npix width height :
  wholePixels pixelData npix -> blackPixels pixelData -> 8 < npix ->
  estimateSpatialFreqs pixelData width height = flat.
Proof.
  intros Hw Hb Hn. unfold estimateSpatialFreqs. rewrite stride_4.
  destruct (spatialLoop_black pixelData npix Hw Hb
              (Z.to_nat (Z.max 1 (width * height / 2048))) (length pixelData) 0 0)
    as (c & Hc & _ & Hpos).
  change (4 * 0) with 0 in Hc. rewrite Hc. cbn [diffClose diffMid diffFar n].
  rewrite zero_div by (apply Hpos; [lia|rewrite Hw; lia]).
  reflexivity.
Qed.

Lemma sum_black c : sum (replicate c (Num 0)) = Num 0.
Proof. unfold sum. induction c as [|c IH]; [reflexivity|exact IH]. Qed.

Lemma variance_black c :
  foldl (fun a v => (a + (v - Num 0) * (v - Num 0))%js) (Num 0)
    (replicate c (Num 0)) = Num 0.
Proof. induction c as [|c IH]; [reflexivity|exact IH]. Qed.

Lemma sqrt_zero (sqrtQ : Q -> Q) : (sqrtQ 0 == 0)%Q -> sqrt sqrtQ (Num 0) = Num 0.
Proof.
  intros H. unfold sqrt. simpl. f_equal.
  change (Qred 0) with 0%Q. rewrite (Qred_complete _ _ H). reflexivity.
Qed.

Lemma profileOf_black (sqrtQ : Q -> Q) c :
  (sqrtQ 0 == 0)%Q -> 0 < c -> profileOf sqrtQ (blackSums c) flat = blackProfile.
Proof.
  intros Hs Hc. unfold profileOf, blackSums.
  cbn [totalR totalG totalB count brightnessValues low mid high].
  rewrite length_replicate, sum_black, !zero_div by assumption.
  rewrite variance_black, zero_div by assumption.
  rewrite sqrt_zero by assumption.
  reflexivity.
Qed.

(** The colour fields do not depend on the spatial estimate. *)
Lemma profileOf_black_fields (sqrtQ : Q -> Q) c spatial :
  (sqrtQ 0 == 0)%Q -> 0 < c ->
  let p := profileOf sqrtQ (blackSums c) spatial in
  warmth p = Num (1 # 2) /\ saturation p = Num 0 /\ contrast p = Num 0.
Proof.
  intros Hs Hc. unfold profileOf, blackSums. cbv zeta.
  cbn [warmth saturation contrast totalR totalG totalB count brightnessValues].
  rewrite length_replicate, sum_black, !zero_div by assumption.
  rewrite variance_black, zero_div by assumption.
  rewrite sqrt_zero by assumption.
  repeat split.
Qed.

(** *** Images of more than 8 pixels: every score is a number *)

Definition isNum (a : num) : Prop := JS.is_num a = true.

Definition nonneg (a : num) : Prop := exists q, rep a q /\ (0 <= q)%Q.

Lemma isNum_Num q : isNum (Num q).
Proof. reflexivity. Qed.

Lemma isNum_add a b : isNum a -> isNum b -> isNum (a + b)%js.
Proof. destruct a, b; simpl; auto. Qed.

Lemma isNum_sub a b : isNum a -> isNum b -> isNum (a - b)%js.
Proof. destruct a, b; simpl; auto. Qed.

Lemma isNum_mul a b : isNum a -> isNum b -> isNum (a * b)%js.
Proof. destruct a, b; simpl; auto. Qed.

Lemma isNum_min a b : isNum a -> isNum b -> isNum (JS.min a b).
Proof. destruct a, b; simpl; auto. Qed.

Lemma isNum_max a b : isNum a -> isNum b -> isNum (JS.max a b).
Proof. destruct a, b; simpl; auto. Qed.

Lemma isNum_abs a : isNum a -> isNum (JS.abs a).
Proof. destruct a; simpl; auto. Qed.

Lemma isNum_div a q : isNum a -> Qeq_bool q 0 = false -> isNum (a / Num q)%js.
Proof. destruct a; simpl; auto. intros _ ->. reflexivity. Qed.

Lemma of_nat_nonzero k : 0 < k -> Qeq_bool (inject_Z (Z.of_nat k)) 0 = false.
Proof.
  intros Hk. apply WebAudioSpec.Qeq_bool_false. intros H.
  assert (inject_Z 0 < inject_Z (Z.of_nat k))%Q as Hlt
    by (rewrite <- Zlt_Qlt; lia).
  change (inject_Z 0) with 0%Q in Hlt. rewrite H in Hlt. discriminate Hlt.
Qed.

Lemma isNum_div_nat a k : isNum a -> 0 < k -> isNum (a / JS.of_nat k)%js.
Proof.
  intros Ha Hk. apply isNum_div; [assumption|]. apply of_nat_nonzero. assumption.
Qed.

Lemma isNum_rep a : isNum a -> exists q, a = Num q.
Proof. destruct a as [q|]; [eauto|discriminate]. Qed.

Create HintDb num.
#[local] Hint Resolve isNum_Num isNum_add isNum_sub isNum_mul isNum_min isNum_max
  isNum_abs : num.

Lemma px_num pixelData i : i < length pixelData -> isNum (px pixelData i).
Proof.
  intros Hi. unfold px.
  destruct (lookup_lt_is_Some_2 pixelData i Hi) as [b ->]. reflexivity.
Qed.

Lemma luma_num pixelData i : i + 2 < length pixelData -> isNum (luma pixelData i).
Proof.
  intros Hi. unfold luma.
  repeat (apply isNum_add || apply isNum_mul || apply isNum_Num);
    apply px_num; lia.
Qed.

(** The sums of the sampling loop. *)
Definition sumsOk (acc : ColorAcc) : Prop :=
  isNum (totalR acc) /\ isNum (totalG acc) /\ isNum (totalB acc)
  /\ Forall isNum (brightnessValues acc)
  /\ length (brightnessValues acc) = count acc.

Definition diffsOk (acc : SpatialAcc) : Prop :=
  isNum (diffClose acc) /\ isNum (diffMid acc) /\ isNum (diffFar acc).

Section Sized.

Variable pixelData : list byte.
Variable npix : nat.
Hypothesis Hwhole : wholePixels pixelData npix.

Lemma colorStep_ok j acc :
  j < npix -> sumsOk acc -> sumsOk (colorStep pixelData (4 * j) acc).
Proof.
  intros Hj (Hr & Hg & Hb & Hv & Hl). unfold sumsOk, colorStep.
  cbn [totalR totalG totalB count brightnessValues].
  assert (isNum (px pixelData (4 * j))) by (apply px_num; rewrite Hwhole; lia).
  assert (isNum (px pixelData (4 * j + 1))) by (apply px_num; rewrite Hwhole; lia).
  assert (isNum (px pixelData (4 * j + 2))) by (apply px_num; rewrite Hwhole; lia).
  repeat split; auto with num.
  - apply Forall_app. split; [assumption|]. constructor; auto 10 with num.
  - rewrite length_app. simpl. lia.
Qed.

Lemma colorLoop_ok s fuel :
  forall j acc,
    sumsOk acc ->
    let acc' := colorLoop fuel pixelData (4 * s) (4 * j) acc in
    sumsOk acc' /\ count acc <= count acc'
    /\ (j < npix -> 0 < fuel -> count acc < count acc').
Proof.
  induction fuel as [|fuel IH]; intros j acc Hacc; cbn [colorLoop].
  - cbv zeta. split; [assumption|]. lia.
  - cbv zeta. destruct (4 * j <? length pixelData) eqn:E.
    + apply Nat.ltb_lt in E. rewrite Hwhole in E.
      replace (4 * j + 4 * s) with (4 * (j + s)) by lia.
      destruct (IH (j + s) (colorStep pixelData (4 * j) acc)) as (H1 & H2 & _).
      { apply colorStep_ok; [lia|assumption]. }
      split; [exact H1|]. cbn [colorStep count] in H2. lia.
    + split; [assumption|]. apply Nat.ltb_ge in E. rewrite Hwhole in E. lia.
Qed.

Lemma spatialStep_ok j acc :
  j + 8 < npix -> diffsOk acc -> diffsOk (spatialStep pixelData (4 * j) acc).
Proof.
  intros Hj (Hc & Hm & Hf). unfold diffsOk, spatialStep.
  cbn [diffClose diffMid diffFar n].
  rewrite Hwhole.
  replace (Nat.min (4 * j + 8 * 4) (4 * npix - 4)) with (4 * (j + 8)) by lia.
  assert (forall k, k <= 8 -> isNum (luma pixelData (4 * (j + k)))) as Hl.
  { intros k Hk. apply luma_num. rewrite Hwhole. lia. }
  replace (4 * j + 4) with (4 * (j + 1)) by lia.
  replace (4 * j + 4 * 4) with (4 * (j + 4)) by lia.
  replace (4 * j) with (4 * (j + 0)) by lia.
  pose proof (Hl 0 ltac:(lia)). pose proof (Hl 1 ltac:(lia)).
  pose proof (Hl 4 ltac:(lia)). pose proof (Hl 8 ltac:(lia)).
  repeat split; auto 10 with num.
Qed.

Lemma spatialLoop_ok s fuel :
  forall j acc,
    diffsOk acc ->
    let acc' := spatialLoop fuel pixelData (4 * s) (4 * j) acc in
    diffsOk acc' /\ n acc <= n acc'
    /\ (j + 8 < npix -> 0 < fuel -> n acc < n acc').
Proof.
  induction fuel as [|fuel IH]; intros j acc Hacc; cbn [spatialLoop].
  - cbv zeta. split; [assumption|]. lia.
  - cbv zeta.
    destruct (Z.of_nat (4 * j) <? Z.of_nat (length pixelData) - 8 * 4)%Z eqn:E.
    + apply Z.ltb_lt in E. rewrite Hwhole in E.
      replace (4 * j + 4 * s) with (4 * (j + s)) by lia.
      destruct (IH (j + s) (spatialStep pixelData (4 * j) acc)) as (H1 & H2 & _).
      { apply spatialStep_ok; [lia|assumption]. }
      split; [exact H1|]. cbn [spatialStep n] in H2. lia.
    + split; [assumption|]. apply Z.ltb_ge in E. rewrite Hwhole in E. lia.
Qed.

Lemma colorStats_ok width height :
  0 < npix ->
  sumsOk (colorStats pixelData width height)
  /\ 0 < count (colorStats pixelData width height).
Proof.
  intros Hn. unfold colorStats. rewrite stride_4.
  pose proof (colorLoop_ok (Z.to_nat (Z.max 1 (width * height / 4096)))
                (length pixelData) 0
                {| totalR := Num 0; totalG := Num 0; totalB := Num 0;
                   count := 0; brightnessValues := [] |}) as H.
  change (4 * 0) with 0 in H. cbv zeta in H.
  destruct H as (H1 & _ & H3).
  { repeat split; auto with num. }
  split; [exact H1|].
  apply (Nat.le_lt_trans _ 0); [simpl; lia|].
  apply H3; [assumption|]. rewrite Hwhole. lia.
Qed.

Lemma estimateSpatialFreqs_ok width height :
  8 < npix ->
  let spatial := estimateSpatialFreqs pixelData width height in
  isNum (low spatial) /\ isNum (mid spatial) /\ isNum (high spatial).
Proof.
  intros Hn. unfold estimateSpatialFreqs. rewrite stride_4.
  pose proof (spatialLoop_ok (Z.to_nat (Z.max 1 (width * height / 2048)))
                (length pixelData) 0
                {| diffClose := Num 0; diffMid := Num 0; diffFar := Num 0;
                   n := 0 |}) as H.
  change (4 * 0) with 0 in H. cbv zeta in H.
  destruct H as ((Hc & Hm & Hf) & _ & H3).
  { repeat split; auto with num. }
  assert (0 < n (spatialLoop (length pixelData) pixelData
                   (4 * Z.to_nat (Z.max 1 (width * height / 2048))) 0
                   {| diffClose := Num 0; diffMid := Num 0; diffFar := Num 0;
                      n := 0 |})) as Hpos.
  { apply (Nat.le_lt_trans _ 0); [simpl; lia|].
    apply H3; [lia|]. rewrite Hwhole. lia. }
  cbv zeta. cbn [low mid high].
  repeat split;
    (apply isNum_min; [|apply isNum_Num]);
    (apply isNum_mul; [|apply isNum_Num]);
    (apply isNum_div; [|reflexivity]);
    apply isNum_div_nat; assumption.
Qed.

End Sized.

(** *** From the sums to the scores *)

Lemma sum_num l : Forall isNum l -> isNum (sum l).
Proof.
  unfold sum. generalize (Num 0) (isNum_Num 0).
  induction l as [|v l IH]; intros a Ha Hl; [exact Ha|].
  inversion Hl; subst. simpl. apply IH; auto with num.
Qed.

Lemma nonneg_isNum a : nonneg a -> isNum a.
Proof. intros (q & Hq & _). destruct a; [reflexivity|contradiction]. Qed.

(** The sum of squared deviations is a number, and not negative. *)
Lemma variance_nonneg avg l :
  isNum avg -> Forall isNum l ->
  forall a, nonneg a ->
    nonneg (foldl (fun a v => (a + (v - avg) * (v - avg))%js) a l).
Proof.
  intros Havg. induction l as [|v l IH]; intros Hl a Ha; [exact Ha|].
  inversion Hl as [|? ? Hv Hl']; subst. simpl. apply IH; [assumption|].
  destruct Ha as (x & Hx & Hx0).
  destruct (isNum_rep v Hv) as (y & ->).
  destruct (isNum_rep avg Havg) as (z & ->).
  exists (x + (y - z) * (y - z))%Q. split.
  - apply rep_add; [assumption|].
    apply rep_mul; apply rep_sub; apply rep_Num.
  - assert (0 <= (y - z) * (y - z))%Q; [|lra].
    destruct (Qlt_le_dec (y - z) 0).
    + assert ((y - z) * (y - z) == (- (y - z)) * (- (y - z)))%Q as -> by ring.
      apply Qmult_le_0_compat; lra.
    + apply Qmult_le_0_compat; lra.
Qed.

Lemma nonneg_div_nat a k : nonneg a -> 0 < k -> nonneg (a / JS.of_nat k)%js.
Proof.
  intros (x & Hx & Hx0) Hk.
  assert (0 < inject_Z (Z.of_nat k))%Q as Hpos.
  { change 0%Q with (inject_Z 0). rewrite <- Zlt_Qlt. lia. }
  exists (x / inject_Z (Z.of_nat k))%Q. split.
  - apply rep_div; [assumption|apply rep_of_nat|]. intros H. rewrite H in Hpos.
    discriminate Hpos.
  - apply Qle_shift_div_l; [assumption|]. lra.
Qed.

Lemma sqrt_num (sqrtQ : Q -> Q) a : nonneg a -> isNum (sqrt sqrtQ a).
Proof.
  intros (x & Hx & Hx0). destruct a as [q|]; [|contradiction]. simpl in Hx.
  unfold sqrt.
  assert (JS.Qltb q 0 = false) as ->
    by (apply WebAudioSpec.Qltb_false; rewrite Hx; assumption).
  reflexivity.
Qed.

(** [maxC > 0 ? (maxC - minC) / maxC : 0] *)
Lemma saturation_num maxC minC :
  isNum minC ->
  isNum (if (maxC >? Num 0)%js then ((maxC - minC) / maxC)%js else Num 0).
Proof.
  intros Hmin. destruct (maxC >? Num 0)%js eqn:E; [|reflexivity].
  destruct maxC as [M|]; [|discriminate E].
  destruct (isNum_rep minC Hmin) as (m & ->).
  apply isNum_div; [reflexivity|].
  apply WebAudioSpec.Qeq_bool_false. intros H.
  unfold JS.gtb in E. simpl in E. apply WebAudioSpec.Qltb_true in E.
  rewrite H in E. discriminate E.
Qed.

(** The fields of a profile that the scores read. *)
Definition fieldsOk (p : ImageProfile) : Prop :=
  isNum (contrast p) /\ isNum (brightness p) /\ isNum (saturation p)
  /\ isNum (warmth p) /\ isNum (rhythmicDensity p)
  /\ isNum (spatialLow p) /\ isNum (spatialMid p) /\ isNum (spatialHigh p).

Definition numScore (s : Scored) : Prop := isNum (score s).

Lemma scoreAll_num p : fieldsOk p -> Forall numScore (scoreAll p).
Proof.
  intros (Hc & Hb & Hs & Hw & Hr & Hl & Hm & Hh).
  assert (isNum (brightness p / Num 255)%js) by (apply isNum_div; auto).
  unfold scoreAll, numScore.
  repeat constructor; cbn [score];
    unfold scoreTonal, scoreRhythmic, scoreTextural, scoreSub, scoreSpectral,
      scoreChromaticNoise; cbv zeta; auto 20 with num.
Qed.

(** *** The sort and the filter *)

(** [a] may stand before [b]: its score is not the smaller one. *)
Definition above (a b : Scored) : Prop := JS.le (score b) (score a).

Lemma above_trans a b c : above a b -> above b c -> above a c.
Proof.
  unfold above, JS.le.
  destruct (score a), (score b), (score c); try tauto. intros; lra.
Qed.

Lemma insert_Forall (P : Scored -> Prop) x l :
  P x -> Forall P l -> Forall P (insert x l).
Proof.
  intros Hx. induction l as [|y l IH]; intros Hl; cbn [insert].
  - constructor; [assumption|constructor].
  - inversion Hl; subst.
    destruct (byScoreDesc x y >? Num 0)%js; constructor; auto.
Qed.

Lemma insert_length x l : length (insert x l) = S (length l).
Proof.
  induction l as [|y l IH]; cbn [insert]; [reflexivity|].
  destruct (byScoreDesc x y >? Num 0)%js; cbn [length]; [rewrite IH|]; reflexivity.
Qed.

Lemma insert_sorted x l :
  numScore x -> Forall numScore l ->
  StronglySorted above l -> StronglySorted above (insert x l).
Proof.
  intros Hx. induction l as [|y l IH]; intros Hl Hs; cbn [insert].
  - constructor; constructor.
  - inversion Hl as [|? ? Hy Hl']; subst.
    inversion Hs as [|? ? Hs' Hall]; subst.
    destruct (isNum_rep _ Hx) as (sx & Ex).
    destruct (isNum_rep _ Hy) as (sy & Ey).
    destruct (byScoreDesc x y >? Num 0)%js eqn:E;
      unfold byScoreDesc, JS.gtb in E; rewrite Ex, Ey in E; simpl in E.
    + apply WebAudioSpec.Qltb_true in E. rewrite Qred_correct in E.
      constructor; [apply IH; assumption|].
      apply insert_Forall; [|assumption].
      unfold above. rewrite Ex, Ey. simpl. lra.
    + apply WebAudioSpec.Qltb_false in E. rewrite Qred_correct in E.
      assert (above x y) as Hxy by (unfold above; rewrite Ex, Ey; simpl; lra).
      constructor; [assumption|].
      constructor; [assumption|].
      eapply Forall_impl; [exact Hall|].
      intros z Hz. simpl in Hz. eapply above_trans; eassumption.
Qed.

Lemma sort_ok l :
  Forall numScore l ->
  StronglySorted above (sort l) /\ Forall numScore (sort l)
  /\ length (sort l) = length l.
Proof.
  unfold sort. induction l as [|x l IH]; intros Hl; simpl.
  - repeat split; constructor.
  - inversion Hl as [|? ? Hx Hl']; subst.
    destruct (IH Hl') as (H1 & H2 & H3).
    repeat split.
    + apply insert_sorted; assumption.
    + apply insert_Forall; assumption.
    + rewrite insert_length, H3. reflexivity.
Qed.

Lemma geb_le a b : (a >=? b)%js = true -> JS.le b a.
Proof.
  unfold JS.geb, JS.leb, JS.le. destruct b, a; try discriminate.
  apply Qle_bool_iff.
Qed.

(** The selection among six scored archetypes. *)
Definition selectionOk (r : list Scored) : Prop :=
  3 <= length r <= 5
  /\ (forall i s t, r !! i = Some s -> r !! S i = Some t -> above s t)
  /\ (forall i s, r !! i = Some s -> 3 <= i -> JS.le THRESHOLD (score s)).

Lemma select_ok l :
  length l = 6 -> Forall numScore l -> selectionOk (select l) /\ Forall numScore (select l).
Proof.
  intros Hlen Hl. destruct (sort_ok l Hl) as (Hs & Hn & Hlen').
  unfold select. rewrite Hlen in Hlen'.
  destruct (sort l) as [|a [|b [|c [|d [|e [|f [|g r]]]]]]]; try discriminate Hlen'.
  clear Hlen'.
  inversion Hs as [|? ? Ha Haa]; subst; clear Hs.
  inversion Ha as [|? ? Hb Hbb]; subst; clear Ha.
  inversion Hb as [|? ? Hc Hcc]; subst; clear Hb.
  inversion Hc as [|? ? Hd Hdd]; subst; clear Hc.
  inversion Hd as [|? ? He Hee]; subst; clear Hd Hee He.
  repeat match goal with
         | H : Forall _ (_ :: _) |- _ => inversion H; subst; clear H
         | H : Forall _ [] |- _ => clear H
         end.
  cbn [filteri].
  change (keep a 0) with true. change (keep b 1) with true.
  change (keep c 2) with true.
  change (keep d 3) with (score d >=? THRESHOLD)%js.
  change (keep e 4) with (score e >=? THRESHOLD)%js.
  change (keep f 5) with false.
  destruct (score d >=? THRESHOLD)%js eqn:Ed;
    destruct (score e >=? THRESHOLD)%js eqn:Ee;
    try apply geb_le in Ed; try apply geb_le in Ee;
    (split; [split; [simpl; lia|split]|repeat constructor; assumption]).
  all: try (intros [|[|[|[|[|i]]]]] s t; simpl; intros Hi Hj;
            try discriminate Hj; inversion Hi; inversion Hj; subst; assumption).
  all: intros [|[|[|[|[|i]]]]] s; simpl; intros Hi Hge;
         try lia; try discriminate Hi; inversion Hi; subst; assumption.
Qed.

(** *** The modes of an analysed image *)

Lemma gm_score_makeMode p i s : gm_score (makeMode p i s) = score s.
Proof.
  unfold makeMode. destruct (nameForArchetype (archetype s) p). reflexivity.
Qed.

(** The profile the scores are taken from has numbers in every field they
    read. *)
Lemma profileOf_generatedModes (sqrtQ : Q -> Q) acc spatial :
  sumsOk acc -> 0 < count acc ->
  isNum (low spatial) -> isNum (mid spatial) -> isNum (high spatial) ->
  exists p, fieldsOk p
    /\ generatedModes (profileOf sqrtQ acc spatial)
       = imap (makeMode p) (select (scoreAll p)).
Proof.
  intros (Hr & Hg & Hb & Hv & Hlen) Hc Hlo Hmi Hhi.
  eexists. split; cycle 1.
  { unfold profileOf. cbv zeta. cbn [generatedModes]. reflexivity. }
  assert (isNum (totalR acc / JS.of_nat (count acc))%js) as HavgR
    by (apply isNum_div_nat; assumption).
  assert (isNum (totalG acc / JS.of_nat (count acc))%js) as HavgG
    by (apply isNum_div_nat; assumption).
  assert (isNum (totalB acc / JS.of_nat (count acc))%js) as HavgB
    by (apply isNum_div_nat; assumption).
  assert (isNum (sum (brightnessValues acc)
                 / JS.of_nat (length (brightnessValues acc)))%js) as Havg.
  { apply isNum_div_nat; [apply sum_num; assumption|lia]. }
  assert (isNum (JS.min
                   (sqrt sqrtQ
                      (foldl (fun a v =>
                                (a + (v - sum (brightnessValues acc)
                                          / JS.of_nat (length (brightnessValues acc)))
                                   * (v - sum (brightnessValues acc)
                                          / JS.of_nat (length (brightnessValues acc))))%js)
                             (Num 0) (brightnessValues acc)
                       / JS.of_nat (length (brightnessValues acc)))
                    / Num 80) (Num 1))%js) as Hcontrast.
  { apply isNum_min; [|apply isNum_Num].
    apply isNum_div; [|reflexivity].
    apply sqrt_num. apply nonneg_div_nat; [|lia].
    apply variance_nonneg; [assumption|assumption|].
    exists 0%Q. split; [reflexivity|]. apply Qle_refl. }
  unfold fieldsOk.
  cbn [contrast brightness saturation warmth rhythmicDensity spatialLow
       spatialMid spatialHigh].
  repeat split; try assumption.
  - apply saturation_num. auto with num.
  - apply isNum_max; [apply isNum_Num|].
    apply isNum_min; [apply isNum_Num|].
    apply isNum_add; [|apply isNum_Num].
    apply isNum_mul; [|apply isNum_Num].
    apply isNum_div; [|reflexivity]. auto with num.
Qed.

(** On an image of more than 8 whole pixels every score is a number, and
    [analyzeImage] returns 3 to 5 modes, in non-increasing order of score,
    those after the third scoring at least the threshold. *)
Lemma large_image_modes_ok
    (sqrtQ : Q -> Q) (pixelData : list byte) (npix : nat) (width height : Z) :
  wholePixels pixelData npix -> 8 < npix ->
  let p := analyzeImage sqrtQ pixelData width height in
  modesOk p /\ Forall (fun m => isNum (gm_score m)) (generatedModes p).
Proof.
  intros Hw Hn p. subst p. unfold analyzeImage.
  destruct (colorStats_ok pixelData npix Hw width height) as (Hsums & Hcount);
    [lia|].
  destruct (estimateSpatialFreqs_ok pixelData npix Hw width height Hn)
    as (Hlo & Hmi & Hhi).
  destruct (profileOf_generatedModes sqrtQ _ _ Hsums Hcount Hlo Hmi Hhi)
    as (p & Hp & Hmodes).
  unfold modesOk. rewrite Hmodes.
  destruct (select_ok (scoreAll p)) as ((Hl & Hsorted & Hthr) & Hnum);
    [reflexivity|apply scoreAll_num; assumption|].
  split; [split; [|split]|].
  - rewrite length_imap. exact Hl.
  - intros i a b Ha Hb. rewrite list_lookup_imap in Ha, Hb.
    destruct (select (scoreAll p) !! i) as [s|] eqn:Es; [|discriminate Ha].
    destruct (select (scoreAll p) !! S i) as [t|] eqn:Et; [|discriminate Hb].
    simpl in Ha, Hb. inversion Ha; inversion Hb; subst.
    rewrite !gm_score_makeMode. exact (Hsorted i s t Es Et).
  - intros i m Hm Hi. rewrite list_lookup_imap in Hm.
    destruct (select (scoreAll p) !! i) as [s|] eqn:Es; [|discriminate Hm].
    simpl in Hm. inversion Hm; subst.
    rewrite gm_score_makeMode. exact (Hthr i s Es Hi).
  - apply List.Forall_forall. intros m Hm.
    apply list_elem_of_In, list_elem_of_lookup in Hm. destruct Hm as (i & Hm).
    rewrite list_lookup_imap in Hm.
    destruct (select (scoreAll p) !! i) as [s|] eqn:Es; [|discriminate Hm].
    simpl in Hm. inversion Hm; subst. rewrite gm_score_makeMode.
    apply (proj1 (List.Forall_forall _ _) Hnum).
    apply list_elem_of_In, list_elem_of_lookup. eauto.
Qed.

(** *** Images of at most 8 pixels: no score is a number *)

Lemma add_NaN_r a : (a + NaN)%js = NaN.
Proof. destruct a; reflexivity. Qed.

Lemma estimateSpatialFreqs_small pixelData width height :
  length pixelData <= 32 ->
  estimateSpatialFreqs pixelData width height
  = {| low := NaN; mid := NaN; high := NaN |}.
Proof.
  intros Hlen. unfold estimateSpatialFreqs.
  assert (forall fuel s acc, spatialLoop fuel pixelData s 0 acc = acc) as ->.
  { intros [|fuel] s acc; cbn [spatialLoop]; [reflexivity|].
    destruct (Z.of_nat 0 <? Z.of_nat (length pixelData) - 8 * 4)%Z eqn:E;
      [|reflexivity].
    apply Z.ltb_lt in E. lia. }
  reflexivity.
Qed.

Lemma scoreAll_small p :
  spatialLow p = NaN -> spatialMid p = NaN -> spatialHigh p = NaN ->
  score <$> scoreAll p = [NaN; NaN; NaN; NaN; NaN; NaN].
Proof.
  intros Hl Hm Hh. unfold scoreAll. cbn [fmap list_fmap score].
  unfold scoreTonal, scoreRhythmic, scoreTextural, scoreSub, scoreSpectral,
    scoreChromaticNoise.
  rewrite Hl, Hm, Hh. cbn [JS.max JS.min].
  change (Num 1 - NaN)%js with NaN.
  change (NaN * Num 0.3)%js with NaN. change (NaN * Num 0.5)%js with NaN.
  change (NaN * Num 0.2)%js with NaN. change (NaN + NaN)%js with NaN.
  change (NaN * Num 0.4)%js with NaN.
  rewrite !add_NaN_r. reflexivity.
Qed.

(** Six scores that are all NaN stay in their order, and the first three
    are kept. *)
Lemma select_small l :
  score <$> l = [NaN; NaN; NaN; NaN; NaN; NaN] -> select l = take 3 l.
Proof.
  destruct l as [|[a sa] [|[b sb] [|[c sc] [|[d sd] [|[e se] [|[f sf] [|]]]]]]];
    cbn [fmap list_fmap score]; try discriminate.
  intros H. inversion H. reflexivity.
Qed.

Lemma scores_imap p (g : nat -> nat) l :
  gm_score <$> imap (fun i => makeMode p (g i)) l = score <$> l.
Proof.
  revert g. induction l as [|s l IH]; intros g; [reflexivity|].
  cbn [imap fmap list_fmap]. rewrite gm_score_makeMode. f_equal.
  apply (IH (fun i => g (S i))).
Qed.

Lemma archetypes_imap p (g : nat -> nat) l :
  gm_archetype <$> imap (fun i => makeMode p (g i)) l = archetype <$> l.
Proof.
  revert g. induction l as [|s l IH]; intros g; [reflexivity|].
  cbn [imap fmap list_fmap]. f_equal.
  - unfold makeMode. destruct (nameForArchetype (archetype s) p). reflexivity.
  - apply (IH (fun i => g (S i))).
Qed.

(** Whatever a buffer of at most 8 pixels holds, [analyzeImage] returns
    the modes tonal, rhythmic and textural, each with the score NaN. *)
Lemma small_image_has_no_scores
    (sqrtQ : Q -> Q) (pixelData : list byte) (width height : Z) :
  length pixelData <= 32 ->
  let p := analyzeImage sqrtQ pixelData width height in
  gm_archetype <$> generatedModes p = [tonal; rhythmic; textural]
  /\ gm_score <$> generatedModes p = [NaN; NaN; NaN].
Proof.
  intros Hlen p. subst p. unfold analyzeImage.
  rewrite estimateSpatialFreqs_small by assumption.
  unfold profileOf. cbv zeta. cbn [generatedModes low mid high].
  match goal with
  | |- context [select (scoreAll ?q)] =>
      pose proof (scoreAll_small q eq_refl eq_refl eq_refl) as Hs;
      rewrite (select_small _ Hs); set (profile := q) in *
  end.
  split.
  - apply (archetypes_imap profile (fun i => i)).
  - rewrite (scores_imap profile (fun i => i)), fmap_take, Hs. reflexivity.
Qed.

(** *** Concrete black images *)

Lemma blackImage_whole k : wholePixels (blackImage k) k.
Proof.
  unfold wholePixels, blackImage. induction k as [|k IH]; [reflexivity|].
  simpl. rewrite IH. lia.
Qed.

Lemma blackImage_black k : blackPixels (blackImage k).
Proof.
  unfold blackPixels, blackImage. induction k as [|k IH]; intros j c b Hc.
  - simpl. rewrite lookup_nil. discriminate.
  - destruct j as [|j].
    + destruct c as [|[|[|c]]]; simpl; try lia; intros [= <-]; reflexivity.
    + replace (4 * S j + c) with (S (S (S (S (4 * j + c))))) by lia.
      change (concat (replicate (S k) [x00; x00; x00; xff]))
        with (x00 :: x00 :: x00 :: xff :: concat (replicate k [x00; x00; x00; xff])).
      cbn [lookup list_lookup]. apply IH. assumption.
Qed.




(** C1 at the failing input.  On an image of one pixel, whatever
    [Math.sqrt] returns, the spatial estimate divides 0 by 0: the three
    modes returned carry the score NaN and are in no order of score. *)
Theorem one_pixel_image_has_no_scores (sqrtQ : Q -> Q) :
  let p := analyzeImage sqrtQ [x00; x00; x00; xff] 1 1 in
  spatialHigh p = NaN
  /\ gm_archetype <$> generatedModes p = [tonal; rhythmic; textural]
  /\ gm_score <$> generatedModes p = [NaN; NaN; NaN]
  /\ ~ modesOk p.
Proof.
  intros p. subst p. split; [reflexivity|]. split; [reflexivity|].
  split; [reflexivity|].
  intros (_ & Hsorted & _).
  assert (exists a b, generatedModes (analyzeImage sqrtQ [x00; x00; x00; xff] 1 1) !! 0 = Some a
                      /\ generatedModes (analyzeImage sqrtQ [x00; x00; x00; xff] 1 1) !! 1 = Some b
                      /\ gm_score a = NaN /\ gm_score b = NaN)
    as (a & b & Ha & Hb & Ea & Eb).
  { eexists _, _. repeat split. }
  specialize (Hsorted 0 a b Ha Hb). rewrite Ea, Eb in Hsorted. exact Hsorted.
Qed.

End AnalyzerSpec.

(** ** brightnessToFrequency (frequencyUtils.ts) *)

Module FrequencySpec.

Import Analyzer Frequency JSFacts.
Local Open Scope Q_scope.

(** A scale table: it starts at 1, ascends, and stays below the octave. *)
Definition scaleOk (qs : list Q) : Prop :=
  (exists q0 rest, qs = q0 :: rest /\ q0 == 1)
  /\ StronglySorted Qle qs
  /\ Forall (fun q => q < 2) qs.

(** A profile with a positive root and a scale table. *)
Definition wellTuned (p : ImageProfile) : Prop :=
  exists r qs, rootHz p = Num r /\ 0 < r
               /\ scaleRatios p = Num <$> qs /\ scaleOk qs.

(** The three parts of the statement about [brightnessToFrequency]. *)
Definition startsAtRoot (p : ImageProfile) : Prop :=
  JS.same (brightnessToFrequency (Num 0) (Some p)) (rootHz p).

Definition climbs (p : ImageProfile) : Prop :=
  forall b1 b2, 0 <= b1 -> b1 <= b2 -> b2 <= 255 ->
    JS.le (brightnessToFrequency (Num b1) (Some p))
          (brightnessToFrequency (Num b2) (Some p)).

(** Brightness [b] lands in octave [floor(b / 85)] above the root. *)
Definition octaveOfBrightness (p : ImageProfile) : Prop :=
  forall b, 0 <= b -> b <= 255 ->
    let k := Qfloor (b / 85) in
    JS.le (rootHz p * Num (2 ^ k))%js (brightnessToFrequency (Num b) (Some p))
    /\ JS.lt (brightnessToFrequency (Num b) (Some p))
             (rootHz p * Num (2 ^ (k + 1)))%js.

Definition rootThenClimbs (p : ImageProfile) : Prop :=
  startsAtRoot p /\ climbs p /\ octaveOfBrightness p.

(** The scale degree [brightnessToFrequency] picks. *)
Definition degreeOf (b : Q) (len : nat) : nat :=
  let x := b / 255 * 3 in
  Z.to_nat (Z.min (Qfloor ((x - 1 * inject_Z (Qfloor (x / 1))) * inject_Z (Z.of_nat len)))
                  (Z.of_nat len - 1)).

Lemma le_rep a b x y : rep a x -> rep b y -> x <= y -> JS.le a b.
Proof.
  destruct a, b; simpl; try tauto. intros -> ->. tauto.
Qed.

Lemma lt_rep a b x y : rep a x -> rep b y -> x < y -> JS.lt a b.
Proof.
  destruct a, b; simpl; try tauto. intros -> ->. tauto.
Qed.

Lemma Qmin_inject_Z a b : Qmin (inject_Z a) (inject_Z b) == inject_Z (Z.min a b).
Proof.
  destruct (Z.le_ge_cases a b) as [H|H].
  - rewrite Z.min_l by assumption. apply Q.min_l. rewrite <- Zle_Qle. assumption.
  - rewrite Z.min_r by assumption. apply Q.min_r. rewrite <- Zle_Qle. assumption.
Qed.

Lemma Qfloor_nonneg x : 0 <= x -> (0 <= Qfloor x)%Z.
Proof.
  intros H. change 0%Z with (Qfloor 0). apply Qfloor_resp_le. assumption.
Qed.

Lemma frac_bounds x : 0 <= x - 1 * inject_Z (Qfloor (x / 1)) < 1.
Proof.
  assert (x / 1 == x) as E by (field).
  rewrite (Qfloor_comp _ _ E).
  pose proof (Qfloor_le x). pose proof (Qlt_floor x) as H1.
  rewrite inject_Z_plus in H1. change (inject_Z 1) with 1 in H1. lra.
Qed.

(** What [brightnessToFrequency] returns on a profile with a root [r] and
    a non-empty list of ratios: root, times two to the octave, times the
    ratio of the degree. *)
Lemma brightnessToFrequency_value p r qs b :
  rootHz p = Num r -> scaleRatios p = Num <$> qs -> qs <> [] -> 0 <= b ->
  exists q, qs !! degreeOf b (length qs) = Some q
            /\ rep (brightnessToFrequency (Num b) (Some p))
                   (r * 2 ^ Qfloor (b / 255 * 3) * q).
Proof.
  intros Hr Hs Hne Hb.
  set (len := length qs).
  assert (0 < len)%nat as Hlen by (subst len; destruct qs; simpl; [congruence|lia]).
  set (x := b / 255 * 3).
  assert (0 <= x) as Hx.
  { subst x. apply Qmult_le_0_compat; [|lra]. apply Qle_shift_div_l; lra. }
  set (f := x - 1 * inject_Z (Qfloor (x / 1))).
  pose proof (frac_bounds x) as Hf. fold f in Hf.
  set (deg := Qfloor (f * inject_Z (Z.of_nat len))).
  assert (0 <= deg)%Z as Hdeg.
  { apply Qfloor_nonneg. apply Qmult_le_0_compat; [lra|].
    change 0 with (inject_Z 0). rewrite <- Zle_Qle. lia. }
  set (mz := Z.min deg (Z.of_nat len - 1)).
  assert (0 <= mz < Z.of_nat len)%Z as Hmz by (subst mz; lia).
  destruct (lookup_lt_is_Some_2 qs (Z.to_nat mz)) as [q Hq]; [fold len; lia|].
  exists q. split; [exact Hq|].
  unfold brightnessToFrequency. rewrite Hr, Hs, length_fmap. fold len.
  assert (rep (Num b / Num 255 * Num 3)%js x) as Hn3.
  { apply rep_mul; [|apply rep_Num]. apply rep_div; [apply rep_Num..|]. discriminate. }
  assert (rep ((Num b / Num 255 * Num 3) mod Num 1)%js f) as Hpos.
  { apply (rep_rem _ _ x 1); [assumption|apply rep_Num|assumption|reflexivity]. }
  assert (rep (JS.min (JS.floor (((Num b / Num 255 * Num 3) mod Num 1)
                                 * JS.of_nat len)%js)
                 (JS.of_nat len - Num 1)%js) (inject_Z mz)) as Hm.
  { eapply rep_eq.
    - apply rep_min.
      + apply rep_floor. apply rep_mul; [exact Hpos|apply rep_of_nat].
      + apply rep_sub; [apply rep_of_nat|apply rep_Num].
    - fold deg. subst mz. rewrite <- Qmin_inject_Z. apply Q.min_compat; [reflexivity|].
      unfold Z.sub. rewrite inject_Z_plus, inject_Z_opp. reflexivity. }
  rewrite (get_rep _ _ mz Hm) by lia.
  rewrite (index_fmap_Num qs _ q Hq).
  apply rep_mul; [|apply rep_Num].
  apply rep_mul; [apply rep_Num|].
  apply pow2_rep. apply rep_floor. exact Hn3.
Qed.

Lemma sorted_lookup (qs : list Q) i j a b :
  StronglySorted Qle qs -> (i <= j)%nat ->
  qs !! i = Some a -> qs !! j = Some b -> a <= b.
Proof.
  intros Hs. revert i j. induction Hs as [|q qs Hs IH Hq]; intros i j Hij Ha Hb.
  - discriminate.
  - destruct i as [|i], j as [|j]; simpl in Ha, Hb.
    + injection Ha as <-. injection Hb as <-. lra.
    + injection Ha as <-. rewrite List.Forall_forall in Hq. apply Hq.
      apply list_elem_of_In. eapply list_elem_of_lookup_2. eassumption.
    + lia.
    + apply (IH i j); [lia|assumption..].
Qed.

Lemma scaleOk_bounds qs i q : scaleOk qs -> qs !! i = Some q -> 1 <= q /\ q < 2.
Proof.
  intros ((q0 & rest & -> & H0) & Hs & Hlt) Hq. split.
  - rewrite <- H0. apply (sorted_lookup (q0 :: rest) 0 i); [assumption|lia|reflexivity|assumption].
  - rewrite List.Forall_forall in Hlt. apply Hlt.
    apply list_elem_of_In. eapply list_elem_of_lookup_2. eassumption.
Qed.

Lemma octave_range b : 0 <= b -> b <= 255 ->
  let k := Qfloor (b / 255 * 3) in (k = 0 \/ k = 1 \/ k = 2 \/ k = 3)%Z.
Proof.
  intros H0 H1 k.
  assert (0 <= k)%Z.
  { apply Qfloor_nonneg. apply Qmult_le_0_compat; [|lra]. apply Qle_shift_div_l; lra. }
  assert (k <= 3)%Z.
  { change 3%Z with (Qfloor 3). apply Qfloor_resp_le.
    assert (b / 255 <= 1) by (apply Qle_shift_div_r; lra). lra. }
  lia.
Qed.

Lemma degreeOf_mono b1 b2 len :
  0 <= b1 -> b1 <= b2 ->
  Qfloor (b1 / 255 * 3) = Qfloor (b2 / 255 * 3) ->
  (degreeOf b1 len <= degreeOf b2 len)%nat.
Proof.
  intros H0 H12 Hk. unfold degreeOf.
  destruct len as [|len].
  { rewrite !Z2Nat.inj_min. simpl. lia. }
  pose proof (frac_bounds (b1 / 255 * 3)) as F1.
  pose proof (frac_bounds (b2 / 255 * 3)) as F2.
  assert (0 <= inject_Z (Z.of_nat (S len))) as Hlen.
  { change 0 with (inject_Z 0). rewrite <- Zle_Qle. lia. }
  apply Z2Nat.inj_le.
  - apply Z.min_glb; [|lia]. apply Qfloor_nonneg.
    apply Qmult_le_0_compat; [lra|assumption].
  - apply Z.min_glb; [|lia]. apply Qfloor_nonneg.
    apply Qmult_le_0_compat; [lra|assumption].
  - apply Z.min_le_compat_r. apply Qfloor_resp_le.
    apply Qmult_le_compat_r; [|assumption].
    assert (b1 / 255 * 3 / 1 == b1 / 255 * 3) as E1 by field.
    assert (b2 / 255 * 3 / 1 == b2 / 255 * 3) as E2 by field.
    rewrite (Qfloor_comp _ _ E1), (Qfloor_comp _ _ E2), Hk.
    assert (b1 / 255 <= b2 / 255).
    { apply Qmult_le_compat_r; [assumption|]. discriminate. }
    lra.
Qed.

(** Each of the five SCALES tables is a scale table. *)
Lemma SCALES_ok s : exists qs, SCALES s = Num <$> qs /\ scaleOk qs.
Proof.
  assert (forall qs, StronglySorted Qle qs <->
            match qs with
            | [] => True
            | q :: qs' => Forall (Qle q) qs' /\ StronglySorted Qle qs'
            end) as SS.
  { intros l. split.
    - intros H. destruct H; [exact I|]. split; assumption.
    - destruct l; intros H; [constructor|]. destruct H. constructor; assumption. }
  destruct s;
    [exists [1; 9/8; 5/4; 4/3; 3/2; 5/3; 15/8]
    |exists [1; 9/8; 6/5; 4/3; 3/2; 8/5; 9/5]
    |exists [1; 9/8; 5/4; 3/2; 5/3]
    |exists [1; 9/8; 5/4; 45/32; 3/2; 27/16]
    |exists [1; 16/15; 9/8; 6/5; 5/4; 4/3; 45/32; 3/2; 8/5; 5/3; 9/5; 15/8]];
    (split; [reflexivity|]);
    (split; [eexists _, _; split; reflexivity|]);
    (split; [repeat (apply SS; split;
                     [repeat (constructor; [discriminate|]); constructor|]);
             constructor
            |repeat (constructor; [reflexivity|]); constructor]).
Qed.


(** A profile that is not tuned to a scale table: its only ratio is 2. *)
Definition octaveOnly : ImageProfile := LayerNode.tuning (Num 110) [Num 2].



End FrequencySpec.

(** ** snapToScale (imageAnalyzer.ts) *)

Module SnapSpec.

Import Analyzer JSFacts FrequencySpec.
Local Open Scope Q_scope.

(** [snapToScale] after its two loops, on the note they leave. *)
Definition settle (note : num) (p : ImageProfile) : num :=
  let ratio := (note / rootHz p)%js in
  let octaveMult := JS.pow2 (JS.floor_log2 ratio) in
  let inOctave := (ratio / octaveMult)%js in
  (rootHz p * octaveMult * nearest inOctave (scaleRatios p))%js.

Lemma snapToScale_settle fuel hz p :
  snapToScale fuel hz p
  = (note ← raise fuel hz (rootHz p);
     note ← lower fuel note (rootHz p * Num 4)%js;
     Some (settle note p)).
Proof. reflexivity. Qed.

(** *** The two loops end *)

Lemma Qceiling_le (x : Q) (z : Z) : x <= inject_Z z -> (Qceiling x <= z)%Z.
Proof.
  intros H. rewrite <- (Qceiling_Z z). apply Qceiling_resp_le. assumption.
Qed.

Lemma halving_ceiling (x : Q) (m : nat) :
  1 < x -> (Qceiling x <= Z.of_nat (S m))%Z -> (Qceiling (x / 2) <= Z.of_nat m)%Z.
Proof.
  intros Hx Hm. apply Qceiling_le.
  pose proof (Qle_ceiling x) as Hc.
  assert (inject_Z (Qceiling x) <= inject_Z (Z.of_nat (S m))) as H1
    by (rewrite <- Zle_Qle; assumption).
  rewrite Nat2Z.inj_succ in H1. unfold Z.succ in H1. rewrite inject_Z_plus in H1.
  change (inject_Z 1) with 1 in H1.
  assert (2 <= Qceiling x)%Z as H2.
  { destruct (Z_lt_le_dec (Qceiling x) 2) as [Hlt|]; [|assumption].
    assert (Qceiling x <= 1)%Z as Hle by lia.
    rewrite Zle_Qle in Hle. change (inject_Z 1) with 1 in Hle. lra. }
  rewrite Zle_Qle in H2. change (inject_Z 2) with 2 in H2.
  assert (x / 2 == x * (1 # 2)) as -> by field. lra.
Qed.

Lemma raise_ends (r : Q) :
  0 < r ->
  forall m h fuel,
    0 < h -> (Qceiling (r / h) <= Z.of_nat m)%Z -> (m < fuel)%nat ->
    exists n, raise fuel (Num h) (Num r) = Some (Num n) /\ r <= n
              /\ (r <= h -> n = h).
Proof.
  intros Hr. induction m as [|m IH]; intros h fuel Hh Hc Hfuel;
    (destruct fuel as [|fuel]; [lia|]); simpl.
  - destruct (JS.Qltb h r) eqn:E.
    + apply WebAudioSpec.Qltb_true in E.
      assert (1 < r / h) as H1 by (apply Qlt_shift_div_l; lra).
      pose proof (Qle_ceiling (r / h)) as H2.
      rewrite Zle_Qle in Hc. change (inject_Z (Z.of_nat 0)) with 0 in Hc. lra.
    + apply WebAudioSpec.Qltb_false in E. exists h. repeat split; assumption.
  - destruct (JS.Qltb h r) eqn:E.
    + apply WebAudioSpec.Qltb_true in E.
      destruct (IH (Qred (h * 2)) fuel) as (n & Hn & Hrn & _).
      * rewrite Qred_correct. lra.
      * assert (r / Qred (h * 2) == r / h / 2) as ->
          by (rewrite Qred_correct; field; lra).
        apply halving_ceiling; [|assumption]. apply Qlt_shift_div_l; lra.
      * lia.
      * exists n. split; [exact Hn|]. split; [assumption|]. intros. lra.
    + apply WebAudioSpec.Qltb_false in E. exists h. repeat split; assumption.
Qed.

Lemma lower_ends (r bound : Q) :
  0 < r -> bound == r * 4 ->
  forall m n fuel,
    r <= n -> (Qceiling (n / r) <= Z.of_nat m)%Z -> (m < fuel)%nat ->
    exists n', lower fuel (Num n) (Num bound) = Some (Num n')
               /\ r <= n' /\ n' <= r * 4 /\ (n <= r * 4 -> n' = n).
Proof.
  intros Hr Hb. induction m as [|m IH]; intros n fuel Hn Hc Hfuel;
    (destruct fuel as [|fuel]; [lia|]); simpl.
  - destruct (JS.Qltb bound n) eqn:E.
    + apply WebAudioSpec.Qltb_true in E.
      assert (1 < n / r) as H1 by (apply Qlt_shift_div_l; lra).
      pose proof (Qle_ceiling (n / r)) as H2.
      rewrite Zle_Qle in Hc. change (inject_Z (Z.of_nat 0)) with 0 in Hc. lra.
    + apply WebAudioSpec.Qltb_false in E. exists n.
      split; [reflexivity|]. split; [assumption|]. split; [lra|reflexivity].
  - destruct (JS.Qltb bound n) eqn:E.
    + apply WebAudioSpec.Qltb_true in E.
      destruct (IH (Qred (n / 2)) fuel) as (n' & Hn' & Hrn & Hn4 & _).
      * rewrite Qred_correct. assert (n / 2 == n * (1 # 2)) as -> by field. lra.
      * assert (Qred (n / 2) / r == n / r / 2) as ->
          by (rewrite Qred_correct; field; lra).
        apply halving_ceiling; [|assumption]. apply Qlt_shift_div_l; lra.
      * lia.
      * exists n'. split; [exact Hn'|]. split; [assumption|].
        split; [assumption|]. intros. lra.
    + apply WebAudioSpec.Qltb_false in E. exists n.
      split; [reflexivity|]. split; [assumption|]. split; [lra|reflexivity].
Qed.

(** *** The nearest ratio *)

Lemma nearest_fold (xi : Q) (rest : list Q) :
  forall q d, d == Qabs (xi - q) ->
    exists q',
      fst (foldl (fun '(best, bestDist) r =>
                    let dist := JS.abs (Num xi - r)%js in
                    if closer dist bestDist then (r, Some dist) else (best, bestDist))
                 (Num q, Some (Num d)) (Num <$> rest)) = Num q'
      /\ (q' = q \/ In q' rest)
      /\ Qabs (xi - q') <= Qabs (xi - q)
      /\ (forall q'', In q'' rest -> Qabs (xi - q') <= Qabs (xi - q'')).
Proof.
  induction rest as [|r1 rest IH]; intros q d Hd; simpl.
  - exists q. split; [reflexivity|]. split; [left; reflexivity|].
    split; [lra|]. intros ? [].
  - assert (Qabs (Qred (xi - r1)) == Qabs (xi - r1)) as Hd1
      by (rewrite Qred_correct; reflexivity).
    destruct (JS.Qltb (Qabs (Qred (xi - r1))) d) eqn:E.
    + apply WebAudioSpec.Qltb_true in E.
      destruct (IH r1 (Qabs (Qred (xi - r1))) Hd1) as (q' & Hq' & Hin & Hle & Hall).
      exists q'. split; [exact Hq'|]. split; [|split].
      * destruct Hin as [->|]; right; [left; reflexivity|right; assumption].
      * eapply Qle_trans; [exact Hle|]. apply Qlt_le_weak.
        rewrite Hd, Hd1 in E. exact E.
      * intros q'' [<-|Hq'']; [assumption|apply Hall; assumption].
    + apply WebAudioSpec.Qltb_false in E.
      destruct (IH q d Hd) as (q' & Hq' & Hin & Hle & Hall).
      exists q'. split; [exact Hq'|]. split; [|split].
      * destruct Hin as [->|]; [left; reflexivity|right; right; assumption].
      * assumption.
      * intros q'' [<-|Hq'']; [|apply Hall; assumption].
        eapply Qle_trans; [exact Hle|]. rewrite Hd, Hd1 in E. exact E.
Qed.

Lemma nearest_spec (xi : Q) (qs : list Q) :
  qs <> [] ->
  exists q, nearest (Num xi) (Num <$> qs) = Num q
            /\ In q qs
            /\ (forall q', In q' qs -> Qabs (xi - q) <= Qabs (xi - q')).
Proof.
  destruct qs as [|q0 rest]; [congruence|]. intros _.
  unfold nearest. simpl.
  destruct (nearest_fold xi rest q0 (Qabs (Qred (xi - q0)))) as (q & Hq & Hin & Hle & Hall).
  { rewrite Qred_correct. reflexivity. }
  exists q. split; [exact Hq|]. split.
  - destruct Hin as [->|]; [left; reflexivity|right; assumption].
  - intros q' [<-|Hq']; [assumption|apply Hall; assumption].
Qed.

(** *** The value *)

(** The octave of a note between the root and two octaves above it. *)
Definition octaveOf (r n : Q) (L : Z) : Prop :=
  (L = 0%Z /\ n < r * 2) \/ (L = 1%Z /\ r * 2 <= n /\ n < r * 4)
  \/ (L = 2%Z /\ n == r * 4).

Lemma floor_log2_octave (r n x : Q) :
  0 < r -> r <= n -> n <= r * 4 -> x == n / r ->
  exists L, JS.floor_log2 (Num x) = Num (inject_Z L) /\ octaveOf r n L.
Proof.
  intros Hr Hn Hn4 Hx.
  assert (1 <= x) as H1 by (rewrite Hx; apply Qle_shift_div_l; lra).
  assert (x <= 4) as H4 by (rewrite Hx; apply Qle_shift_div_r; lra).
  assert (n == x * r) as En by (rewrite Hx; field; lra).
  unfold JS.floor_log2, JS.Qfloor_log2.
  assert (JS.Qltb 0 x = true) as -> by (apply WebAudioSpec.Qltb_true; lra).
  assert (Qle_bool 1 x = true) as -> by (apply Qle_bool_iff; assumption).
  pose proof (Qfloor_le x) as Hf1. pose proof (Qlt_floor x) as Hf2.
  rewrite inject_Z_plus in Hf2. change (inject_Z 1) with 1 in Hf2.
  assert (1 <= Qfloor x <= 4)%Z as Hf.
  { split.
    - change 1%Z with (Qfloor 1). apply Qfloor_resp_le. assumption.
    - change 4%Z with (Qfloor 4). apply Qfloor_resp_le. assumption. }
  assert (Qfloor x = 1 \/ Qfloor x = 2 \/ Qfloor x = 3 \/ Qfloor x = 4)%Z
    as [E|[E|[E|E]]] by lia; rewrite E in *;
    [exists 0%Z|exists 1%Z|exists 1%Z|exists 2%Z]; (split; [reflexivity|]);
    unfold octaveOf; change (inject_Z 1) with 1 in *; change (inject_Z 2) with 2 in *;
    change (inject_Z 3) with 3 in *; change (inject_Z 4) with 4 in *.
  - left. split; [reflexivity|]. nra.
  - right; left. split; [reflexivity|]. split; nra.
  - right; left. split; [reflexivity|]. split; nra.
  - right; right. split; [reflexivity|]. assert (x == 4) as E4 by lra.
    rewrite En, E4. ring.
Qed.

Lemma settle_value p r qs n :
  rootHz p = Num r -> 0 < r -> scaleRatios p = Num <$> qs -> qs <> [] ->
  r <= n -> n <= r * 4 ->
  exists L q, octaveOf r n L /\ In q qs
    /\ (forall q', In q' qs ->
          Qabs (n / r / 2 ^ L - q) <= Qabs (n / r / 2 ^ L - q'))
    /\ rep (settle (Num n) p) (r * 2 ^ L * q).
Proof.
  intros Hr Hrpos Hs Hne Hn Hn4. unfold settle. rewrite Hr, Hs.
  assert (rep (Num n / Num r)%js (n / r)) as Hratio
    by (apply rep_div; [apply rep_Num..|lra]).
  destruct (rep_inv _ _ Hratio) as (x & Ex & Hx). rewrite Ex.
  destruct (floor_log2_octave r n x Hrpos Hn Hn4 Hx) as (L & EL & Hoct).
  rewrite EL.
  assert (0 < 2 ^ L) as Hpow.
  { destruct Hoct as [[-> _]|[[-> _]|[-> _]]]; reflexivity. }
  assert (rep (Num x / JS.pow2 (Num (inject_Z L)))%js (n / r / 2 ^ L)) as Hin.
  { apply rep_div; [exact Hx|apply pow2_rep; apply rep_Num|lra]. }
  destruct (rep_inv _ _ Hin) as (xi & Exi & Hxi). rewrite Exi.
  destruct (nearest_spec xi qs Hne) as (q & Eq & Hq & Hbest). rewrite Eq.
  exists L, q. split; [exact Hoct|]. split; [exact Hq|]. split.
  - intros q' Hq'. rewrite <- Hxi. apply Hbest. assumption.
  - apply rep_mul; [|apply rep_Num].
    apply rep_mul; [apply rep_Num|]. apply pow2_rep. apply rep_Num.
Qed.

(** A note that is a ratio of the table above the root, in one of the two
    octaves (or the root two octaves up), is left where it is. *)
Lemma settle_fixed p r qs L q n :
  rootHz p = Num r -> 0 < r -> scaleRatios p = Num <$> qs -> scaleOk qs ->
  In q qs -> octaveOf r (r * 2 ^ L * q) L -> n == r * 2 ^ L * q ->
  exists v, settle (Num n) p = Num v /\ v == n.
Proof.
  intros Hr Hrpos Hs Hok Hq Hoct Hn.
  assert (qs <> []) as Hne by (destruct qs; [destruct Hq|discriminate]).
  assert (1 <= q /\ q < 2) as [Hq1 Hq2].
  { apply list_elem_of_In in Hq. apply list_elem_of_lookup_1 in Hq.
    destruct Hq as [i Hi]. eapply scaleOk_bounds; eassumption. }
  assert (0 < 2 ^ L /\ octaveOf r n L) as [Hpow Hoct'].
  { unfold octaveOf in *. rewrite Hn.
    destruct Hoct as [[-> ?]|[[-> ?]|[-> ?]]]; (split; [reflexivity|tauto]). }
  assert (r <= n /\ n <= r * 4) as [Hn1 Hn4].
  { rewrite Hn.
    destruct Hoct as [[-> ?]|[[-> ?]|[-> ?]]];
      [change (2 ^ 0) with 1 in *|change (2 ^ 1) with 2 in *
      |change (2 ^ 2) with 4 in *]; split; nra. }
  destruct (settle_value p r qs n Hr Hrpos Hs Hne Hn1 Hn4)
    as (L' & q' & Hoct2 & Hq' & Hbest & Hrep).
  assert (L' = L) as ->.
  { unfold octaveOf in Hoct', Hoct2.
    destruct Hoct' as [[-> ?]|[[-> ?]|[-> ?]]],
             Hoct2 as [[-> ?]|[[-> ?]|[-> ?]]]; try reflexivity; lra. }
  assert (n / r / 2 ^ L == q) as Hin by (rewrite Hn; field; lra).
  specialize (Hbest q Hq). rewrite Hin in Hbest.
  assert (q - q == 0) as Z0 by ring. rewrite Z0 in Hbest.
  change (Qabs 0) with 0 in Hbest.
  assert (q' == q) as Eq.
  { apply Qabs_Qle_condition in Hbest. lra. }
  destruct (rep_inv _ _ Hrep) as (v & Ev & Hv).
  exists v. split; [exact Ev|]. rewrite Hv, Hn, Eq. reflexivity.
Qed.

(** *** Fuel *)

Lemma raise_more fuel note root v :
  raise fuel note root = Some v ->
  forall fuel', (fuel <= fuel')%nat -> raise fuel' note root = Some v.
Proof.
  revert note. induction fuel as [|fuel IH]; intros note H fuel' Hle;
    [discriminate|].
  destruct fuel' as [|fuel']; [lia|]. simpl in *.
  destruct (note <? root)%js; [|assumption]. apply IH; [assumption|lia].
Qed.

Lemma lower_more fuel note bound v :
  lower fuel note bound = Some v ->
  forall fuel', (fuel <= fuel')%nat -> lower fuel' note bound = Some v.
Proof.
  revert note. induction fuel as [|fuel IH]; intros note H fuel' Hle;
    [discriminate|].
  destruct fuel' as [|fuel']; [lia|]. simpl in *.
  destruct (note >? bound)%js; [|assumption]. apply IH; [assumption|lia].
Qed.

Lemma raise_done fuel h r :
  r <= h -> raise (S fuel) (Num h) (Num r) = Some (Num h).
Proof.
  intros H. simpl.
  assert (JS.Qltb h r = false) as -> by (apply WebAudioSpec.Qltb_false; assumption).
  reflexivity.
Qed.

Lemma lower_done fuel n bound :
  n <= bound -> lower (S fuel) (Num n) (Num bound) = Some (Num n).
Proof.
  intros H. simpl.
  assert (JS.Qltb bound n = false) as -> by (apply WebAudioSpec.Qltb_false; assumption).
  reflexivity.
Qed.

(** *** The profiles of the analyzer *)

Lemma rem_range (x y : Q) :
  0 < y -> 0 <= x - y * inject_Z (Qfloor (x / y)) /\ x - y * inject_Z (Qfloor (x / y)) < y.
Proof.
  intros Hy. pose proof (Qfloor_le (x / y)) as H1.
  pose proof (Qlt_floor (x / y)) as H2.
  rewrite inject_Z_plus in H2. change (inject_Z 1) with 1 in H2.
  set (f := inject_Z (Qfloor (x / y))) in *.
  assert (x == x / y * y) as E by (field; lra).
  split.
  - assert (f * y <= x / y * y) by (apply Qmult_le_compat_r; lra). lra.
  - assert (x / y * y < (f + 1) * y) by (apply Qmult_lt_compat_r; lra). lra.
Qed.

Lemma unit_ratio (a b lo hi : Q) :
  lo <= a -> a <= hi -> lo <= b -> b <= hi -> 0 < hi - lo ->
  -1 <= (a - b) / (hi - lo) /\ (a - b) / (hi - lo) <= 1.
Proof.
  intros. split.
  - apply Qle_shift_div_l; lra.
  - apply Qle_shift_div_r; lra.
Qed.

Lemma hueOf_range (a b c : num) :
  exists hq, rep (hueOf a b c) hq /\ 0 <= hq /\ hq < 1.
Proof.
  unfold hueOf.
  destruct (JS.max (JS.max a b) c - JS.min (JS.min a b) c >? Num 1)%js eqn:E;
    [|exists 0; split; [apply rep_Num|lra]].
  destruct a as [R|], b as [G|], c as [B|]; try discriminate E.
  set (M := Qmax (Qmax R G) B). set (m := Qmin (Qmin R G) B).
  assert (rep (JS.max (JS.max (Num R) (Num G)) (Num B)) M) as HM
    by (repeat apply rep_max; apply rep_Num).
  assert (rep (JS.min (JS.min (Num R) (Num G)) (Num B)) m) as Hm
    by (repeat apply rep_min; apply rep_Num).
  assert (rep (JS.max (JS.max (Num R) (Num G)) (Num B)
               - JS.min (JS.min (Num R) (Num G)) (Num B))%js (M - m)) as HD
    by (apply rep_sub; assumption).
  assert (1 < M - m) as HD1.
  { apply (ltb_rep _ _ 1 (M - m) (rep_Num 1) HD). exact E. }
  assert (m <= R /\ R <= M /\ m <= G /\ G <= M /\ m <= B /\ B <= M) as Hb.
  { subst M m.
    pose proof (Q.le_max_l (Qmax R G) B). pose proof (Q.le_max_r (Qmax R G) B).
    pose proof (Q.le_max_l R G). pose proof (Q.le_max_r R G).
    pose proof (Q.le_min_l (Qmin R G) B). pose proof (Q.le_min_r (Qmin R G) B).
    pose proof (Q.le_min_l R G). pose proof (Q.le_min_r R G).
    repeat split; lra. }
  destruct Hb as (? & ? & ? & ? & ? & ?).
  destruct (JS.max (JS.max (Num R) (Num G)) (Num B) =? Num R)%js.
  - destruct (unit_ratio G B m M) as [? ?]; [lra..|].
    pose proof (rem_range ((G - B) / (M - m) + 6) 6 ltac:(reflexivity)) as [? ?].
    eexists. split.
    + apply rep_div; [|apply rep_Num|discriminate].
      apply (rep_rem _ _ ((G - B) / (M - m) + 6) 6); [|apply rep_Num|lra|reflexivity].
      apply rep_add; [|apply rep_Num].
      apply rep_div; [apply rep_sub; apply rep_Num|exact HD|lra].
    + split; [apply Qle_shift_div_l; lra|apply Qlt_shift_div_r; lra].
  - destruct (JS.max (JS.max (Num R) (Num G)) (Num B) =? Num G)%js.
    + destruct (unit_ratio B R m M) as [? ?]; [lra..|].
      eexists. split.
      * apply rep_div; [|apply rep_Num|discriminate].
        apply rep_add; [|apply rep_Num].
        apply rep_div; [apply rep_sub; apply rep_Num|exact HD|lra].
      * split; [apply Qle_shift_div_l; lra|apply Qlt_shift_div_r; lra].
    + destruct (unit_ratio R G m M) as [? ?]; [lra..|].
      eexists. split.
      * apply rep_div; [|apply rep_Num|discriminate].
        apply rep_add; [|apply rep_Num].
        apply rep_div; [apply rep_sub; apply rep_Num|exact HD|lra].
      * split; [apply Qle_shift_div_l; lra|apply Qlt_shift_div_r; lra].
Qed.

Lemma root_of_hue (hue : num) (hq : Q) :
  rep hue hq -> 0 <= hq -> hq < 1 ->
  exists r, JS.get ROOT_NOTES (JS.floor (hue * Num 12) mod Num 12)%js = Num r
            /\ 0 < r.
Proof.
  intros Hh H0 H1.
  set (z := Qfloor (hq * 12)).
  assert (0 <= z <= 11)%Z as Hz.
  { subst z. split.
    - apply Qfloor_nonneg. lra.
    - assert (Qfloor (hq * 12) < 12)%Z; [|lia].
      pose proof (Qfloor_le (hq * 12)) as Hf.
      rewrite Zlt_Qlt. change (inject_Z 12) with 12. lra. }
  assert (rep (JS.floor (hue * Num 12) mod Num 12)%js (inject_Z z)) as Hidx.
  { eapply rep_eq.
    - apply (rep_rem _ _ (inject_Z z) 12);
        [apply rep_floor; apply rep_mul; [exact Hh|apply rep_Num]
        |apply rep_Num| |reflexivity].
      change 0 with (inject_Z 0). rewrite <- Zle_Qle. lia.
    - rewrite (GranularSpec.Qfloor_unique (inject_Z z / 12) 0).
      + change (inject_Z 0) with 0. ring.
      + change (inject_Z 0) with 0. apply Qle_shift_div_l; [reflexivity|].
        rewrite Qmult_0_l. change 0 with (inject_Z 0). rewrite <- Zle_Qle. lia.
      + change (inject_Z 0 + 1) with 1. apply Qlt_shift_div_r; [reflexivity|].
        rewrite Qmult_1_l. change 12 with (inject_Z 12). rewrite <- Zlt_Qlt. lia. }
  rewrite (get_rep _ _ z Hidx) by lia.
  assert (z = 0 \/ z = 1 \/ z = 2 \/ z = 3 \/ z = 4 \/ z = 5 \/ z = 6 \/ z = 7
          \/ z = 8 \/ z = 9 \/ z = 10 \/ z = 11)%Z as Hcases by lia.
  repeat (destruct Hcases as [-> | Hcases];
          [eexists; split; [reflexivity|reflexivity]|]).
  rewrite Hcases. eexists; split; reflexivity.
Qed.

Lemma analyzeImage_wellTuned (sqrtQ : Q -> Q) pixelData width height :
  wellTuned (analyzeImage sqrtQ pixelData width height).
Proof.
  unfold wellTuned, analyzeImage.
  set (acc := colorStats pixelData width height).
  set (spatial := estimateSpatialFreqs pixelData width height).
  destruct (hueOf_range (totalR acc / JS.of_nat (count acc))%js
              (totalG acc / JS.of_nat (count acc))%js
              (totalB acc / JS.of_nat (count acc))%js) as (hq & Hh & H0 & H1).
  destruct (root_of_hue _ hq Hh H0 H1) as (r & Hr & Hrpos).
  destruct (SCALES_ok (scale (profileOf sqrtQ acc spatial))) as (qs & Hqs & Hok).
  exists r, qs. split; [exact Hr|]. split; [assumption|].
  split; [exact Hqs|exact Hok].
Qed.

(** *** Idempotence *)

Lemma snapToScale_twice (p : ImageProfile) (hz : Q) :
  wellTuned p -> 0 < hz ->
  exists fuel0, forall fuel, (fuel0 <= fuel)%nat ->
    exists v, snapToScale fuel (Num hz) p = Some (Num v)
      /\ exists v', snapToScale fuel (Num v) p = Some (Num v') /\ v' == v.
Proof.
  intros (r & qs & Hr & Hrpos & Hs & Hok) Hhz.
  assert (qs <> []) as Hne.
  { destruct Hok as ((q0 & rest & -> & _) & _). discriminate. }
  set (m1 := Z.to_nat (Qceiling (r / hz))).
  destruct (raise_ends r Hrpos m1 hz (S m1) Hhz) as (n1 & Hn1 & Hrn1 & _).
  { subst m1. pose proof (Qle_ceiling (r / hz)).
    assert (0 <= r / hz) by (apply Qle_shift_div_l; lra).
    rewrite Z2Nat.id; [lia|].
    change 0%Z with (Qceiling 0). apply Qceiling_resp_le. assumption. }
  { lia. }
  assert (Qred (r * 4) == r * 4) as Hb by apply Qred_correct.
  set (m2 := Z.to_nat (Qceiling (n1 / r))).
  destruct (lower_ends r (Qred (r * 4)) Hrpos Hb m2 n1 (S m2) Hrn1)
    as (n2 & Hn2 & Hrn2 & Hn24 & _).
  { subst m2. assert (0 <= n1 / r) by (apply Qle_shift_div_l; lra).
    rewrite Z2Nat.id; [lia|].
    change 0%Z with (Qceiling 0). apply Qceiling_resp_le. assumption. }
  { lia. }
  exists (Nat.max (S m1) (S m2)). intros fuel Hfuel.
  destruct (settle_value p r qs n2 Hr Hrpos Hs Hne Hrn2 Hn24)
    as (L & q & Hoct & Hq & Hbest & Hrep).
  destruct (rep_inv _ _ Hrep) as (v & Ev & Hv).
  assert (1 <= q /\ q < 2) as [Hq1 Hq2].
  { pose proof Hq as Hq'. apply list_elem_of_In in Hq'.
    apply list_elem_of_lookup_1 in Hq'.
    destruct Hq' as [i Hi]. eapply scaleOk_bounds; eassumption. }
  assert (octaveOf r (r * 2 ^ L * q) L) as Hoct'.
  { unfold octaveOf in *. destruct Hoct as [[-> ?]|[[-> ?]|[-> E4]]].
    - left. split; [reflexivity|]. change (2 ^ 0) with 1. nra.
    - right; left. split; [reflexivity|]. change (2 ^ 1) with 2. split; nra.
    - right; right. split; [reflexivity|].
      destruct Hok as ((q0 & rest & -> & H0) & _).
      specialize (Hbest q0 (or_introl eq_refl)).
      assert (n2 / r / 2 ^ 2 == 1) as E1.
      { rewrite E4. change (2 ^ 2) with 4. field. lra. }
      rewrite E1, H0 in Hbest. change (Qabs (1 - 1)) with 0 in Hbest.
      apply Qabs_Qle_condition in Hbest.
      assert (q == 1) as -> by lra. ring. }
  assert (r <= v /\ v <= Qred (r * 4)) as [Hv1 Hv4].
  { rewrite Hv, Hb. unfold octaveOf in Hoct'.
    destruct Hoct' as [[-> ?]|[[-> ?]|[-> ?]]];
      [change (2 ^ 0) with 1 in *|change (2 ^ 1) with 2 in *
      |change (2 ^ 2) with 4 in *]; split; nra. }
  destruct fuel as [|fuel]; [lia|].
  exists v. split.
  - rewrite snapToScale_settle, Hr.
    rewrite (raise_more _ _ _ _ Hn1) by lia. cbn [mbind option_bind].
    change (Num r * Num 4)%js with (Num (Qred (r * 4))).
    rewrite (lower_more _ _ _ _ Hn2) by lia. cbn [mbind option_bind].
    rewrite <- Ev. reflexivity.
  - destruct (settle_fixed p r qs L q v Hr Hrpos Hs Hok Hq Hoct' Hv)
      as (v' & Ev' & Hv').
    exists v'. split; [|exact Hv'].
    rewrite snapToScale_settle, Hr.
    rewrite (raise_done fuel v r Hv1). cbn [mbind option_bind].
    change (Num r * Num 4)%js with (Num (Qred (r * 4))).
    rewrite (lower_done fuel v _ Hv4). cbn [mbind option_bind].
    rewrite Ev'. reflexivity.
Qed.

(** C8.  For every positive frequency and every profile the analyzer
    returns (whatever the pixel buffer and the dimensions), [snapToScale]
    returns, as soon as its loops are given enough fuel to finish, a
    frequency that a second [snapToScale] maps to itself. *)
Theorem snapToScale_idempotent
    (sqrtQ : Q -> Q) (pixelData : list byte) (width height : Z) (hz : Q) :
  0 < hz ->
  let p := analyzeImage sqrtQ pixelData width height in
  exists fuel0, forall fuel, (fuel0 <= fuel)%nat ->
    exists v, snapToScale fuel (Num hz) p = Some (Num v)
      /\ exists v', snapToScale fuel (Num v) p = Some (Num v') /\ v' == v.
Proof.
  intros Hhz p. apply snapToScale_twice; [|assumption].
  apply analyzeImage_wellTuned.
Qed.

Lemma snapToScale_idempotent_witness :
  let p := analyzeImage AnalyzerSpec.isqrt (AnalyzerSpec.blackImage 16) 4 4 in
  exists fuel0, forall fuel, (fuel0 <= fuel)%nat ->
    exists v, snapToScale fuel (Num 100) p = Some (Num v)
      /\ exists v', snapToScale fuel (Num v) p = Some (Num v') /\ v' == v.
Proof.
  apply (snapToScale_idempotent AnalyzerSpec.isqrt (AnalyzerSpec.blackImage 16)
           4 4 100).
  reflexivity.
Defined.

End SnapSpec.

(** ** The ranges of an analysed profile (imageAnalyzer.ts) *)

Module AnalyzerRanges.

Import Analyzer JSFacts AnalyzerSpec.
Local Open Scope Q_scope.

(** [a] is a number between [lo] and [hi]. *)
Definition within (lo hi : Q) (a : num) : Prop :=
  exists q, rep a q /\ lo <= q <= hi.

(** [Math.sqrt] never returns a negative number. *)
Definition sqrtNonneg (sqrtQ : Q -> Q) : Prop := forall x, 0 <= x -> 0 <= sqrtQ x.

Lemma within_isNum lo hi a : within lo hi a -> isNum a.
Proof. intros (q & Hq & _). destruct a; [reflexivity|contradiction]. Qed.

Lemma within_weaken lo hi lo' hi' a :
  within lo hi a -> lo' <= lo -> hi <= hi' -> within lo' hi' a.
Proof. intros (q & Hq & H) H1 H2. exists q. split; [assumption|lra]. Qed.

Lemma within_nonneg lo hi a : within lo hi a -> 0 <= lo -> nonneg a.
Proof. intros (q & Hq & H) H0. exists q. split; [assumption|lra]. Qed.

Lemma of_nat_pos (k : nat) : (0 < k)%nat -> 0 < inject_Z (Z.of_nat k).
Proof. intros H. change 0 with (inject_Z 0). rewrite <- Zlt_Qlt. lia. Qed.

Lemma px_within pixelData i :
  (i < length pixelData)%nat -> within 0 255 (px pixelData i).
Proof.
  intros Hi. unfold px.
  destruct (lookup_lt_is_Some_2 pixelData i Hi) as [b ->].
  exists (inject_Z (Z.of_N (Byte.to_N b))). split; [apply rep_Num|].
  pose proof (Byte.to_N_bounded b) as Hb.
  change 0 with (inject_Z 0). change 255 with (inject_Z 255).
  rewrite <- !Zle_Qle. lia.
Qed.

(** A weighted mean of three colour channels, with the weights of luma. *)
Lemma luma_of_within r g b :
  within 0 255 r -> within 0 255 g -> within 0 255 b ->
  within 0 255 (Num 0.299 * r + Num 0.587 * g + Num 0.114 * b)%js.
Proof.
  intros (x & Hx & Bx) (y & Hy & By) (z & Hz & Bz).
  exists (0.299 * x + 0.587 * y + 0.114 * z). split.
  - repeat (apply rep_add || apply rep_mul || apply rep_Num); assumption.
  - lra.
Qed.

Lemma luma_within pixelData i :
  (i + 2 < length pixelData)%nat -> within 0 255 (luma pixelData i).
Proof.
  intros Hi. unfold luma. apply luma_of_within; apply px_within; lia.
Qed.

Lemma add_within a b la ha lb hb :
  within la ha a -> within lb hb b -> within (la + lb) (ha + hb) (a + b)%js.
Proof.
  intros (x & Hx & Bx) (y & Hy & By). exists (x + y).
  split; [apply rep_add; assumption|lra].
Qed.

(** The sums of the sampling loop after [count] pixels. *)
Definition sumsIn (acc : ColorAcc) : Prop :=
  let c := inject_Z (Z.of_nat (count acc)) in
  within 0 (255 * c) (totalR acc) /\ within 0 (255 * c) (totalG acc)
  /\ within 0 (255 * c) (totalB acc)
  /\ Forall (within 0 255) (brightnessValues acc)
  /\ length (brightnessValues acc) = count acc.

Lemma succ_Q (c : nat) : inject_Z (Z.of_nat (S c)) == inject_Z (Z.of_nat c) + 1.
Proof. rewrite Nat2Z.inj_succ. unfold Z.succ. rewrite inject_Z_plus. reflexivity. Qed.

Section Sized.

Variable pixelData : list byte.
Variable npix : nat.
Hypothesis Hwhole : wholePixels pixelData npix.

Lemma colorStep_in j acc :
  (j < npix)%nat -> sumsIn acc -> sumsIn (colorStep pixelData (4 * j) acc).
Proof.
  intros Hj (Hr & Hg & Hb & Hv & Hl). unfold sumsIn, colorStep.
  cbn [totalR totalG totalB count brightnessValues]. cbv zeta.
  assert (within 0 255 (px pixelData (4 * j))) as P0
    by (apply px_within; rewrite Hwhole; lia).
  assert (within 0 255 (px pixelData (4 * j + 1))) as P1
    by (apply px_within; rewrite Hwhole; lia).
  assert (within 0 255 (px pixelData (4 * j + 2))) as P2
    by (apply px_within; rewrite Hwhole; lia).
  pose proof (succ_Q (count acc)) as Hc.
  repeat split.
  - eapply within_weaken; [apply add_within; [exact Hr|exact P0]|lra|lra].
  - eapply within_weaken; [apply add_within; [exact Hg|exact P1]|lra|lra].
  - eapply within_weaken; [apply add_within; [exact Hb|exact P2]|lra|lra].
  - apply Forall_app. split; [assumption|].
    constructor; [apply luma_of_within; assumption|constructor].
  - rewrite length_app. simpl. lia.
Qed.

Lemma colorLoop_in s fuel :
  forall j acc, sumsIn acc ->
    sumsIn (colorLoop fuel pixelData (4 * s) (4 * j) acc).
Proof.
  induction fuel as [|fuel IH]; intros j acc Hacc; cbn [colorLoop];
    [assumption|].
  destruct (4 * j <? length pixelData)%nat eqn:E; [|assumption].
  apply Nat.ltb_lt in E. rewrite Hwhole in E.
  replace (4 * j + 4 * s)%nat with (4 * (j + s))%nat by lia.
  apply IH. apply colorStep_in; [lia|assumption].
Qed.

Lemma colorStats_in width height : sumsIn (colorStats pixelData width height).
Proof.
  unfold colorStats. rewrite stride_4.
  pose proof (colorLoop_in (Z.to_nat (Z.max 1 (width * height / 4096)))
                (length pixelData) 0%nat
                {| totalR := Num 0; totalG := Num 0; totalB := Num 0;
                   count := 0; brightnessValues := [] |}) as H.
  change (4 * 0)%nat with 0%nat in H. apply H.
  unfold sumsIn. cbn [totalR totalG totalB count brightnessValues]. cbv zeta.
  assert (within 0 (255 * inject_Z (Z.of_nat 0)) (Num 0)) as H0
    by (exists 0; split; [reflexivity|change (inject_Z (Z.of_nat 0)) with 0; lra]).
  split; [exact H0|]. split; [exact H0|]. split; [exact H0|].
  split; [constructor|reflexivity].
Qed.

End Sized.


(** *** From the sums to the fields *)

Lemma div_nat_within a (c : nat) :
  within 0 (255 * inject_Z (Z.of_nat c)) a -> (0 < c)%nat ->
  within 0 255 (a / JS.of_nat c)%js.
Proof.
  intros (x & Hx & Bx) Hc. pose proof (of_nat_pos c Hc) as Hpos.
  exists (x / inject_Z (Z.of_nat c)). split.
  - apply rep_div; [assumption|apply rep_of_nat|lra].
  - split.
    + apply Qle_shift_div_l; lra.
    + apply Qle_shift_div_r; lra.
Qed.

Lemma foldl_add_within l :
  Forall (within 0 255) l ->
  forall a B, within 0 B a ->
    within 0 (B + 255 * inject_Z (Z.of_nat (length l))) (foldl JS.add a l).
Proof.
  induction 1 as [|v l Hv _ IH]; intros a B Ha.
  - simpl. eapply within_weaken; [exact Ha|lra|].
    change (inject_Z (Z.of_nat 0)) with 0. lra.
  - cbn [foldl length].
    eapply within_weaken; [apply (IH _ (B + 255))|lra|].
    + eapply within_weaken; [apply add_within; [exact Ha|exact Hv]|lra|lra].
    + rewrite succ_Q. lra.
Qed.

Lemma sum_within l :
  Forall (within 0 255) l ->
  within 0 (255 * inject_Z (Z.of_nat (length l))) (sum l).
Proof.
  intros H. unfold sum.
  eapply within_weaken; [apply (foldl_add_within l H (Num 0) 0)|lra|lra].
  exists 0. split; [reflexivity|lra].
Qed.

(** [Math.max(0, Math.min(1, y))] *)
Lemma clamp_within y : isNum y -> within 0 1 (JS.max (Num 0) (JS.min (Num 1) y)).
Proof.
  intros Hy. destruct (isNum_rep y Hy) as (q & ->).
  exists (Qmax 0 (Qmin 1 q)). split.
  - apply rep_max; [apply rep_Num|]. apply rep_min; apply rep_Num.
  - split; [apply Q.le_max_l|].
    apply Q.max_lub; [lra|apply Q.le_min_l].
Qed.

(** [Math.min(a, 1)] on a number that is not negative. *)
Lemma min1_within a : nonneg a -> within 0 1 (JS.min a (Num 1)).
Proof.
  intros (q & Hq & H0). exists (Qmin q 1). split.
  - apply rep_min; [assumption|apply rep_Num].
  - split; [apply Q.min_glb; lra|apply Q.le_min_r].
Qed.

Lemma nonneg_div_const a q : nonneg a -> 0 < q -> nonneg (a / Num q)%js.
Proof.
  intros (x & Hx & H0) Hq. exists (x / q). split.
  - apply rep_div; [assumption|apply rep_Num|lra].
  - apply Qle_shift_div_l; lra.
Qed.

Lemma nonneg_mul_const a q : nonneg a -> 0 <= q -> nonneg (a * Num q)%js.
Proof.
  intros (x & Hx & H0) Hq. exists (x * q). split.
  - apply rep_mul; [assumption|apply rep_Num].
  - apply Qmult_le_0_compat; assumption.
Qed.

Lemma sqrt_nonneg (sqrtQ : Q -> Q) a :
  sqrtNonneg sqrtQ -> nonneg a -> nonneg (sqrt sqrtQ a).
Proof.
  intros Hs (x & Hx & Hx0). destruct a as [q|]; [|contradiction]. simpl in Hx.
  unfold sqrt.
  assert (JS.Qltb q 0 = false) as ->
    by (apply WebAudioSpec.Qltb_false; rewrite Hx; assumption).
  exists (sqrtQ (Qred q)). split; [simpl; apply Qred_correct|].
  apply Hs. rewrite Qred_correct, Hx. assumption.
Qed.

(** The largest and the smallest of three channel means. *)
Lemma max3_min3 a b c :
  within 0 255 a -> within 0 255 b -> within 0 255 c ->
  exists M m, rep (JS.max (JS.max a b) c) M /\ rep (JS.min (JS.min a b) c) m
              /\ 0 <= m /\ m <= M /\ M <= 255.
Proof.
  intros (x & Hx & Bx) (y & Hy & By) (z & Hz & Bz).
  exists (Qmax (Qmax x y) z), (Qmin (Qmin x y) z). split; [|split].
  - apply rep_max; [apply rep_max|]; assumption.
  - apply rep_min; [apply rep_min|]; assumption.
  - pose proof (Q.le_max_l (Qmax x y) z). pose proof (Q.le_max_l x y).
    pose proof (Q.le_min_l (Qmin x y) z). pose proof (Q.le_min_l x y).
    split; [repeat apply Q.min_glb; lra|].
    split; [lra|repeat apply Q.max_lub; lra].
Qed.

(** [maxC > 0 ? (maxC - minC) / maxC : 0] *)
Lemma saturation_within maxC minC M m :
  rep maxC M -> rep minC m -> 0 <= m -> m <= M ->
  within 0 1 (if (maxC >? Num 0)%js then ((maxC - minC) / maxC)%js else Num 0).
Proof.
  intros HM Hm H0 HmM. destruct (maxC >? Num 0)%js eqn:E.
  - assert (0 < M) as Hpos.
    { unfold JS.gtb in E. apply (ltb_rep (Num 0) maxC 0 M) in E;
        [assumption|apply rep_Num|assumption]. }
    exists ((M - m) / M). split.
    + apply rep_div; [apply rep_sub; assumption|assumption|lra].
    + split; [apply Qle_shift_div_l; lra|apply Qle_shift_div_r; lra].
  - exists 0. split; [reflexivity|lra].
Qed.

(** *** The spatial estimate *)

Lemma abs_nonneg a : isNum a -> nonneg (JS.abs a).
Proof.
  intros Ha. destruct (isNum_rep a Ha) as (q & ->).
  exists (Qabs q). split; [reflexivity|apply Qabs_nonneg].
Qed.

Lemma add_nonneg a b : nonneg a -> nonneg b -> nonneg (a + b)%js.
Proof.
  intros (x & Hx & H0) (y & Hy & H1). exists (x + y).
  split; [apply rep_add; assumption|lra].
Qed.

Definition diffsNonneg (acc : SpatialAcc) : Prop :=
  nonneg (diffClose acc) /\ nonneg (diffMid acc) /\ nonneg (diffFar acc).

Section Spatial.

Variable pixelData : list byte.
Variable npix : nat.
Hypothesis Hwhole : wholePixels pixelData npix.

Lemma spatialStep_nonneg j acc :
  (j + 8 < npix)%nat -> diffsNonneg acc ->
  diffsNonneg (spatialStep pixelData (4 * j) acc).
Proof.
  intros Hj (Hc & Hm & Hf). unfold diffsNonneg, spatialStep.
  cbn [diffClose diffMid diffFar n]. rewrite Hwhole.
  replace (Nat.min (4 * j + 8 * 4) (4 * npix - 4))%nat with (4 * (j + 8))%nat by lia.
  assert (forall k, (k <= 8)%nat -> isNum (luma pixelData (4 * (j + k)))) as Hl.
  { intros k Hk. apply luma_num. rewrite Hwhole. lia. }
  replace (4 * j + 4)%nat with (4 * (j + 1))%nat by lia.
  replace (4 * j + 4 * 4)%nat with (4 * (j + 4))%nat by lia.
  replace (4 * j)%nat with (4 * (j + 0))%nat by lia.
  pose proof (Hl 0%nat ltac:(lia)). pose proof (Hl 1%nat ltac:(lia)).
  pose proof (Hl 4%nat ltac:(lia)). pose proof (Hl 8%nat ltac:(lia)).
  split; [|split]; apply add_nonneg; try assumption;
    apply abs_nonneg; apply isNum_sub; assumption.
Qed.

Lemma spatialLoop_nonneg s fuel :
  forall j acc, diffsNonneg acc ->
    diffsNonneg (spatialLoop fuel pixelData (4 * s) (4 * j) acc).
Proof.
  induction fuel as [|fuel IH]; intros j acc Hacc; cbn [spatialLoop];
    [assumption|].
  destruct (Z.of_nat (4 * j) <? Z.of_nat (length pixelData) - 8 * 4)%Z eqn:E;
    [|assumption].
  apply Z.ltb_lt in E. rewrite Hwhole in E.
  replace (4 * j + 4 * s)%nat with (4 * (j + s))%nat by lia.
  apply IH. apply spatialStep_nonneg; [lia|assumption].
Qed.

Lemma estimateSpatialFreqs_within width height :
  (8 < npix)%nat ->
  let spatial := estimateSpatialFreqs pixelData width height in
  within 0 1 (low spatial) /\ within 0 1 (mid spatial)
  /\ within 0 1 (high spatial).
Proof.
  intros Hn. unfold estimateSpatialFreqs. rewrite stride_4.
  pose proof (spatialLoop_nonneg (Z.to_nat (Z.max 1 (width * height / 2048)))
                (length pixelData) 0%nat
                {| diffClose := Num 0; diffMid := Num 0; diffFar := Num 0;
                   n := 0 |}) as H.
  pose proof (spatialLoop_ok pixelData npix Hwhole
                (Z.to_nat (Z.max 1 (width * height / 2048)))
                (length pixelData) 0%nat
                {| diffClose := Num 0; diffMid := Num 0; diffFar := Num 0;
                   n := 0 |}) as H'.
  change (4 * 0)%nat with 0%nat in H, H'. cbv zeta in H'.
  assert (nonneg (Num 0)) as H0 by (exists 0; split; [reflexivity|lra]).
  destruct H as (Hc & Hm & Hf); [split; [|split]; exact H0|].
  destruct H' as (_ & _ & H3).
  { split; [|split]; reflexivity. }
  assert (0 < n (spatialLoop (length pixelData) pixelData
                   (4 * Z.to_nat (Z.max 1 (width * height / 2048))) 0
                   {| diffClose := Num 0; diffMid := Num 0; diffFar := Num 0;
                      n := 0 |}))%nat as Hpos.
  { apply (Nat.le_lt_trans _ 0); [simpl; lia|].
    apply H3; [lia|]. rewrite Hwhole. lia. }
  cbv zeta. cbn [low mid high].
  split; [|split]; apply min1_within; apply nonneg_mul_const; try lra;
    (apply nonneg_div_const; [|lra]); apply nonneg_div_nat; assumption.
Qed.

End Spatial.

(** *** The profile *)

Definition fieldsInRange (p : ImageProfile) : Prop :=
  within 0 1 (warmth p) /\ within 0 1 (saturation p)
  /\ within 0 1 (contrast p) /\ within 0 255 (brightness p)
  /\ within 0 1 (detuneSpread p) /\ rhythmicDensity p = contrast p.

Definition spatialInRange (p : ImageProfile) : Prop :=
  within 0 1 (spatialLow p) /\ within 0 1 (spatialMid p)
  /\ within 0 1 (spatialHigh p).

Lemma profileOf_fieldsInRange (sqrtQ : Q -> Q) acc spatial :
  sqrtNonneg sqrtQ -> sumsIn acc -> (0 < count acc)%nat ->
  fieldsInRange (profileOf sqrtQ acc spatial).
Proof.
  intros Hsqrt (Hr & Hg & Hb & Hv & Hlen) Hc. cbv zeta in Hr, Hg, Hb.
  pose proof (div_nat_within _ _ Hr Hc) as HavgR.
  pose proof (div_nat_within _ _ Hg Hc) as HavgG.
  pose proof (div_nat_within _ _ Hb Hc) as HavgB.
  assert (within 0 255 (sum (brightnessValues acc)
                        / JS.of_nat (length (brightnessValues acc)))%js) as Havg.
  { apply div_nat_within; [apply sum_within; assumption|lia]. }
  destruct (max3_min3 _ _ _ HavgR HavgG HavgB) as (M & m & HM & Hm & H0 & HmM & _).
  pose proof (saturation_within _ _ M m HM Hm H0 HmM) as Hsat.
  unfold fieldsInRange, profileOf. cbv zeta.
  cbn [warmth saturation contrast brightness detuneSpread rhythmicDensity].
  split; [|split; [|split; [|split; [|split]]]].
  - apply clamp_within.
    repeat (apply isNum_add || apply isNum_mul || apply isNum_Num).
    apply isNum_div; [|reflexivity].
    apply isNum_sub; eapply within_isNum; eassumption.
  - exact Hsat.
  - apply min1_within. apply nonneg_div_const; [|lra].
    apply sqrt_nonneg; [assumption|].
    apply nonneg_div_nat; [|lia].
    apply variance_nonneg.
    + eapply within_isNum; eassumption.
    + eapply Forall_impl; [exact Hv|]. intros a Ha. eapply within_isNum; eassumption.
    + exists 0. split; [reflexivity|lra].
  - exact Havg.
  - apply min1_within. apply nonneg_mul_const; [|lra].
    eapply within_nonneg; [exact Hsat|lra].
  - reflexivity.
Qed.

(** X1.  On a buffer of one or more whole pixels, [analyzeImage] returns
    warmth, saturation, contrast and detuneSpread between 0 and 1, a
    brightness between 0 and 255, and rhythmicDensity equal to contrast;
    on more than 8 pixels the three spatial energies lie between 0 and 1
    as well.  [Math.sqrt] is only assumed never to be negative. *)
Theorem analyzeImage_fields_in_range
    (sqrtQ : Q -> Q) (pixelData : list byte) (npix : nat) (width height : Z) :
  sqrtNonneg sqrtQ -> wholePixels pixelData npix -> (0 < npix)%nat ->
  let p := analyzeImage sqrtQ pixelData width height in
  fieldsInRange p /\ ((8 < npix)%nat -> spatialInRange p).
Proof.
  intros Hsqrt Hw Hn p. subst p. unfold analyzeImage. split.
  - apply profileOf_fieldsInRange; [assumption|apply (colorStats_in _ _ Hw)|].
    apply (colorStats_ok pixelData npix Hw width height Hn).
  - intros Hn8. exact (estimateSpatialFreqs_within pixelData npix Hw width height Hn8).
Qed.

(** *** The scores *)

Lemma rep_div_const a x q : rep a x -> ~ q == 0 -> rep (a / Num q)%js (x / q).
Proof. intros Ha Hq. apply rep_div; [assumption|apply rep_Num|assumption]. Qed.

Ltac rep_build :=
  repeat first
    [ eassumption
    | apply rep_Num
    | apply rep_add | apply rep_sub | apply rep_mul
    | apply rep_abs | apply rep_min | apply rep_max
    | (apply rep_div_const; [ | intros HH; discriminate HH]) ].

Lemma Qabs_bound x lo hi b :
  lo <= x -> x <= hi -> - b <= lo -> hi <= b -> 0 <= Qabs x /\ Qabs x <= b.
Proof.
  intros H1 H2 H3 H4. split; [apply Qabs_nonneg|].
  apply Qabs_Qle_condition. lra.
Qed.

Lemma scores_within p :
  fieldsInRange p -> spatialInRange p ->
  Forall (fun s => within 0 1 (score s)) (scoreAll p).
Proof.
  intros ((w & Hw & Bw) & (s & Hs & Bs) & (c & Hc & Bc) & (b & Hb & Bb)
          & _ & Hrd)
         ((lo & Hlo & Blo) & (mi & Hmi & Bmi) & (hi & Hhi & Bhi)).
  unfold scoreAll.
  repeat (apply List.Forall_cons); [..|apply List.Forall_nil]; cbn [score].
  - unfold scoreTonal. eexists. split; [rep_build|].
    assert (0 <= b / 255 <= 1)
      by (split; [apply Qle_shift_div_l|apply Qle_shift_div_r]; lra).
    lra.
  - unfold scoreRhythmic. rewrite Hrd. eexists. split; [rep_build|]. lra.
  - unfold scoreTextural. eexists. split; [rep_build|].
    assert (0 <= Qabs (s - 0.4) /\ Qabs (s - 0.4) <= 0.6) as [A0 A1]
      by (apply (Qabs_bound (s - 0.4) (-0.4) 0.6 0.6); lra).
    lra.
  - unfold scoreSub. eexists. split; [rep_build|].
    assert (0 <= b / 255 <= 1)
      by (split; [apply Qle_shift_div_l|apply Qle_shift_div_r]; lra).
    lra.
  - unfold scoreSpectral. cbv zeta. eexists. split; [rep_build|].
    assert (0 <= b / 255 <= 1)
      by (split; [apply Qle_shift_div_l|apply Qle_shift_div_r]; lra).
    pose proof (Q.le_max_l (Qmax lo mi) hi). pose proof (Q.le_max_l lo mi).
    pose proof (Q.le_min_l (Qmin lo mi) hi). pose proof (Q.le_min_l lo mi).
    assert (Qmax (Qmax lo mi) hi <= 1) by (repeat apply Q.max_lub; lra).
    assert (0 <= Qmin (Qmin lo mi) hi) by (repeat apply Q.min_glb; lra).
    lra.
  - unfold scoreChromaticNoise. eexists. split; [rep_build|]. lra.
Qed.

(** *** The selection keeps the best archetypes, each once *)

Lemma insert_perm x l : insert x l ≡ₚ x :: l.
Proof.
  induction l as [|y l IH]; cbn [insert]; [reflexivity|].
  destruct (byScoreDesc x y >? Num 0)%js; [|reflexivity].
  rewrite IH. apply Permutation_swap.
Qed.

Lemma sort_perm l : sort l ≡ₚ l.
Proof.
  unfold sort. induction l as [|x l IH]; simpl; [reflexivity|].
  rewrite insert_perm, IH. reflexivity.
Qed.

Lemma filteri_sublist {A : Type} (f : A -> nat -> bool) l :
  forall i, filteri f i l `sublist_of` l.
Proof.
  induction l as [|x l IH]; intros i; cbn [filteri]; [constructor|].
  destruct (f x i); [apply sublist_skip|apply sublist_cons]; apply IH.
Qed.

Lemma select_sublist l : select l `sublist_of` sort l.
Proof. apply filteri_sublist. Qed.

Lemma select_elem_of l x : x ∈ select l -> x ∈ l.
Proof.
  intros H. rewrite <- (sort_perm l).
  eapply elem_of_sublist; [exact H|apply select_sublist].
Qed.

(** The scores and archetypes of the modes are those of the selection. *)
Lemma generatedModes_profileOf (sqrtQ : Q -> Q) acc spatial :
  let p := profileOf sqrtQ acc spatial in
  gm_score <$> generatedModes p = score <$> select (scoreAll p)
  /\ gm_archetype <$> generatedModes p = archetype <$> select (scoreAll p).
Proof.
  unfold profileOf. cbv zeta. cbn [generatedModes]. split.
  - match goal with
    | |- _ <$> imap (makeMode ?q) ?l = _ => apply (scores_imap q (fun i => i) l)
    end.
  - match goal with
    | |- _ <$> imap (makeMode ?q) ?l = _ => apply (archetypes_imap q (fun i => i) l)
    end.
Qed.

(** X2.  On a buffer of more than 8 whole pixels every mode that
    [analyzeImage] returns has a score between 0 and 1. *)
Theorem analyzeImage_scores_in_unit_interval
    (sqrtQ : Q -> Q) (pixelData : list byte) (npix : nat) (width height : Z) :
  sqrtNonneg sqrtQ -> wholePixels pixelData npix -> (8 < npix)%nat ->
  Forall (fun m => within 0 1 (gm_score m))
    (generatedModes (analyzeImage sqrtQ pixelData width height)).
Proof.
  intros Hsqrt Hw Hn.
  assert (fieldsInRange (analyzeImage sqrtQ pixelData width height)) as Hf.
  { unfold analyzeImage.
    apply profileOf_fieldsInRange; [assumption|apply (colorStats_in _ _ Hw)|].
    apply (colorStats_ok pixelData npix Hw width height). lia. }
  assert (spatialInRange (analyzeImage sqrtQ pixelData width height)) as Hs
    by exact (estimateSpatialFreqs_within pixelData npix Hw width height Hn).
  pose proof (scores_within _ Hf Hs) as Hall.
  unfold analyzeImage in *.
  destruct (generatedModes_profileOf sqrtQ (colorStats pixelData width height)
              (estimateSpatialFreqs pixelData width height)) as (Hsc & _).
  cbv zeta in Hsc.
  set (p := profileOf sqrtQ (colorStats pixelData width height)
              (estimateSpatialFreqs pixelData width height)) in *.
  apply List.Forall_forall. intros m Hm.
  assert (gm_score m ∈ score <$> select (scoreAll p)) as Hin.
  { rewrite <- Hsc. apply list_elem_of_fmap. exists m. split; [reflexivity|].
    apply list_elem_of_In. exact Hm. }
  apply list_elem_of_fmap in Hin. destruct Hin as (s & -> & Hs').
  apply select_elem_of in Hs'.
  apply (proj1 (List.Forall_forall _ _) Hall). apply list_elem_of_In. exact Hs'.
Qed.

Lemma archetypes_scoreAll p :
  archetype <$> scoreAll p
  = [tonal; rhythmic; textural; sub; spectral; chromatic_noise].
Proof. reflexivity. Qed.

Lemma select_archetypes_NoDup p : NoDup (archetype <$> select (scoreAll p)).
Proof.
  eapply sublist_NoDup; [|apply fmap_sublist; apply select_sublist].
  rewrite (sort_perm (scoreAll p)), archetypes_scoreAll.
  apply (bool_decide_unpack _). reflexivity.
Qed.

(** Two ids with different archetypes differ, whatever follows the dash. *)
Lemma id_archetype a b (s t : string) :
  archetypeName a +:+ "-" +:+ s = archetypeName b +:+ "-" +:+ t -> a = b.
Proof.
  destruct a, b; cbn; intros H; try reflexivity; discriminate H.
Qed.

Lemma gm_id_makeMode p i s :
  gm_id (makeMode p i s) = archetypeName (archetype s) +:+ "-" +:+ pretty i.
Proof.
  unfold makeMode. destruct (nameForArchetype (archetype s) p). reflexivity.
Qed.

Lemma gm_archetype_makeMode p i s : gm_archetype (makeMode p i s) = archetype s.
Proof.
  unfold makeMode. destruct (nameForArchetype (archetype s) p). reflexivity.
Qed.

(** X3.  Whatever the buffer, no archetype occurs twice among the modes
    [analyzeImage] returns, the mode at position [i] has the id
    [archetype-i], and no two modes share an id. *)
Theorem analyzeImage_modes_distinct
    (sqrtQ : Q -> Q) (pixelData : list byte) (width height : Z) :
  let modes := generatedModes (analyzeImage sqrtQ pixelData width height) in
  NoDup (gm_archetype <$> modes)
  /\ (forall i m, modes !! i = Some m ->
        gm_id m = archetypeName (gm_archetype m) +:+ "-" +:+ pretty i)
  /\ NoDup (gm_id <$> modes).
Proof.
  intros modes. subst modes. unfold analyzeImage.
  set (acc := colorStats pixelData width height).
  set (spatial := estimateSpatialFreqs pixelData width height).
  destruct (generatedModes_profileOf sqrtQ acc spatial) as (_ & Harch).
  cbv zeta in Harch.
  assert (NoDup (gm_archetype <$> generatedModes (profileOf sqrtQ acc spatial)))
    as Hnd by (rewrite Harch; apply select_archetypes_NoDup).
  assert (forall i m, generatedModes (profileOf sqrtQ acc spatial) !! i = Some m ->
            gm_id m = archetypeName (gm_archetype m) +:+ "-" +:+ pretty i) as Hid.
  { unfold profileOf. cbv zeta. cbn [generatedModes]. intros i m Hm.
    rewrite list_lookup_imap in Hm.
    match type of Hm with
    | _ <$> ?l !! i = _ => destruct (l !! i) as [s|]; [|discriminate Hm]
    end.
    simpl in Hm. inversion Hm; subst.
    rewrite gm_id_makeMode, gm_archetype_makeMode. reflexivity. }
  split; [exact Hnd|]. split; [exact Hid|].
  apply NoDup_alt. intros i j x Hi Hj.
  rewrite list_lookup_fmap in Hi, Hj.
  destruct (generatedModes (profileOf sqrtQ acc spatial) !! i) as [mi|] eqn:Ei;
    [|discriminate Hi].
  destruct (generatedModes (profileOf sqrtQ acc spatial) !! j) as [mj|] eqn:Ej;
    [|discriminate Hj].
  simpl in Hi, Hj. inversion Hi as [Hi']. inversion Hj as [Hj'].
  assert (gm_archetype mi = gm_archetype mj) as Ha.
  { apply (id_archetype _ _ (pretty i) (pretty j)).
    rewrite <- (Hid i mi Ei), <- (Hid j mj Ej). congruence. }
  apply (proj1 (NoDup_alt _) Hnd i j (gm_archetype mi));
    rewrite list_lookup_fmap; [rewrite Ei|rewrite Ej, Ha]; reflexivity.
Qed.

(** On six numeric scores the selection is a prefix of the sorted list. *)
Lemma select_prefix l :
  length l = 6%nat -> Forall numScore l ->
  exists k, select l = take k (sort l) /\ (3 <= k <= 5)%nat.
Proof.
  intros Hlen Hl. destruct (sort_ok l Hl) as (Hs & Hn & Hlen').
  unfold select. rewrite Hlen in Hlen'.
  destruct (sort l) as [|a [|b [|c [|d [|e [|f [|g r]]]]]]]; try discriminate Hlen'.
  clear Hlen'.
  assert (above d e) as Hde.
  { inversion Hs as [|? ? Ha _]; subst. inversion Ha as [|? ? Hb _]; subst.
    inversion Hb as [|? ? Hc _]; subst. inversion Hc as [|? ? _ Hd]; subst.
    inversion Hd; assumption. }
  assert (numScore d /\ numScore e) as [Nd Ne].
  { repeat match goal with
           | H : Forall _ (_ :: _) |- _ => inversion H; subst; clear H
           end. split; assumption. }
  cbn [filteri].
  change (keep a 0) with true. change (keep b 1) with true.
  change (keep c 2) with true.
  change (keep d 3) with (score d >=? THRESHOLD)%js.
  change (keep e 4) with (score e >=? THRESHOLD)%js.
  change (keep f 5) with false.
  destruct (score d >=? THRESHOLD)%js eqn:Ed;
    destruct (score e >=? THRESHOLD)%js eqn:Ee.
  - exists 5%nat. split; [reflexivity|lia].
  - exists 4%nat. split; [reflexivity|lia].
  - exfalso. unfold above, JS.le in Hde. unfold JS.geb, JS.leb, THRESHOLD in Ed, Ee.
    destruct (isNum_rep _ Nd) as (qd & Eqd). destruct (isNum_rep _ Ne) as (qe & Eqe).
    rewrite Eqd in Ed, Hde. rewrite Eqe in Ee, Hde.
    apply Qle_bool_iff in Ee. apply WebAudioSpec.Qle_bool_false in Ed. lra.
  - exists 3%nat. split; [reflexivity|lia].
Qed.

Lemma profileOf_fieldsOk (sqrtQ : Q -> Q) acc spatial :
  sumsOk acc -> (0 < count acc)%nat ->
  isNum (low spatial) -> isNum (mid spatial) -> isNum (high spatial) ->
  fieldsOk (profileOf sqrtQ acc spatial).
Proof.
  intros (Hr & Hg & Hb & Hv & Hlen) Hc Hlo Hmi Hhi.
  assert (isNum (totalR acc / JS.of_nat (count acc))%js) as HavgR
    by (apply isNum_div_nat; assumption).
  assert (isNum (totalG acc / JS.of_nat (count acc))%js) as HavgG
    by (apply isNum_div_nat; assumption).
  assert (isNum (totalB acc / JS.of_nat (count acc))%js) as HavgB
    by (apply isNum_div_nat; assumption).
  assert (isNum (sum (brightnessValues acc)
                 / JS.of_nat (length (brightnessValues acc)))%js) as Havg.
  { apply isNum_div_nat; [apply sum_num; assumption|lia]. }
  unfold fieldsOk, profileOf. cbv zeta.
  cbn [contrast brightness saturation warmth rhythmicDensity spatialLow
       spatialMid spatialHigh].
  assert (forall v, nonneg v -> isNum (JS.min (sqrt sqrtQ v / Num 80) (Num 1))%js)
    as Hcontrast.
  { intros v Hv0. apply isNum_min; [|apply isNum_Num].
    apply isNum_div; [|reflexivity]. apply sqrt_num. assumption. }
  assert (nonneg
            (foldl (fun a v =>
                      (a + (v - sum (brightnessValues acc)
                                / JS.of_nat (length (brightnessValues acc)))
                         * (v - sum (brightnessValues acc)
                                / JS.of_nat (length (brightnessValues acc))))%js)
                   (Num 0) (brightnessValues acc)
             / JS.of_nat (length (brightnessValues acc)))%js) as Hvar.
  { apply nonneg_div_nat; [|lia].
    apply variance_nonneg; [assumption|assumption|].
    exists 0. split; [reflexivity|apply Qle_refl]. }
  split; [apply Hcontrast; exact Hvar|].
  split; [exact Havg|].
  split; [apply saturation_num; repeat apply isNum_min; assumption|].
  split.
  { apply isNum_max; [apply isNum_Num|].
    apply isNum_min; [apply isNum_Num|].
    apply isNum_add; [|apply isNum_Num].
    apply isNum_mul; [|apply isNum_Num].
    apply isNum_div; [|reflexivity]. apply isNum_sub; assumption. }
  split; [apply Hcontrast; exact Hvar|].
  split; [assumption|]. split; assumption.
Qed.

Lemma sorted_app_elem {A : Type} (R : A -> A -> Prop) l1 l2 x y :
  StronglySorted R (l1 ++ l2) -> x ∈ l1 -> y ∈ l2 -> R x y.
Proof.
  induction l1 as [|a l1 IH]; intros Hs Hx Hy; [inversion Hx|].
  simpl in Hs. inversion Hs as [|? ? Hs' Hall]; subst.
  apply elem_of_cons in Hx. destruct Hx as [->|Hx]; [|apply IH; assumption].
  apply (proj1 (List.Forall_forall _ _) Hall). apply list_elem_of_In.
  apply elem_of_app. right. assumption.
Qed.

(** X4.  On a buffer of more than 8 whole pixels the modes are the best
    archetypes: an archetype that is left out never scores more than a mode
    that is kept. *)
Theorem analyzeImage_keeps_best_archetypes
    (sqrtQ : Q -> Q) (pixelData : list byte) (npix : nat) (width height : Z) :
  wholePixels pixelData npix -> (8 < npix)%nat ->
  let p := analyzeImage sqrtQ pixelData width height in
  forall s,
    s ∈ scoreAll p -> archetype s ∉ gm_archetype <$> generatedModes p ->
    Forall (fun m => JS.le (score s) (gm_score m)) (generatedModes p).
Proof.
  intros Hw Hn p s Hs Hout. apply List.Forall_forall. intros m Hm.
  apply list_elem_of_In in Hm. subst p. unfold analyzeImage in *.
  set (acc := colorStats pixelData width height) in *.
  set (spatial := estimateSpatialFreqs pixelData width height) in *.
  destruct (generatedModes_profileOf sqrtQ acc spatial) as (Hsc & Harch).
  cbv zeta in Hsc, Harch.
  set (p := profileOf sqrtQ acc spatial) in *.
  assert (Forall numScore (scoreAll p)) as Hnum.
  { destruct (colorStats_ok pixelData npix Hw width height) as (Hsums & Hcount);
      [lia|].
    destruct (estimateSpatialFreqs_ok pixelData npix Hw width height Hn)
      as (Hlo & Hmi & Hhi).
    apply scoreAll_num. apply profileOf_fieldsOk; assumption. }
  destruct (select_prefix (scoreAll p) eq_refl Hnum) as (k & Hk & _).
  destruct (sort_ok (scoreAll p) Hnum) as (Hsorted & _ & _).
  rewrite <- (take_drop k (sort (scoreAll p))) in Hsorted.
  assert (gm_score m ∈ score <$> take k (sort (scoreAll p))) as Hin.
  { rewrite <- Hk, <- Hsc. apply list_elem_of_fmap. exists m. split; [reflexivity|assumption]. }
  apply list_elem_of_fmap in Hin. destruct Hin as (t & -> & Ht).
  assert (s ∈ drop k (sort (scoreAll p))) as Hdrop.
  { assert (s ∈ take k (sort (scoreAll p)) ++ drop k (sort (scoreAll p))) as H
      by (rewrite take_drop, sort_perm; exact Hs).
    apply elem_of_app in H. destruct H as [H|H]; [|exact H].
    exfalso. apply Hout. rewrite Harch, Hk.
    apply list_elem_of_fmap. exists s. split; [reflexivity|exact H]. }
  exact (sorted_app_elem _ _ _ _ _ Hsorted Ht Hdrop).
Qed.

(** *** Root and scale *)

Lemma root_index (hue : num) (hq : Q) :
  rep hue hq -> 0 <= hq -> hq < 1 ->
  exists k, (k < 12)%nat
    /\ JS.get ROOT_NOTES (JS.floor (hue * Num 12) mod Num 12)%js
       = JS.index ROOT_NOTES k.
Proof.
  intros Hh H0 H1.
  set (z := Qfloor (hq * 12)).
  assert (0 <= z <= 11)%Z as Hz.
  { subst z. split.
    - apply FrequencySpec.Qfloor_nonneg. lra.
    - assert (Qfloor (hq * 12) < 12)%Z; [|lia].
      pose proof (Qfloor_le (hq * 12)) as Hf.
      rewrite Zlt_Qlt. change (inject_Z 12) with 12. lra. }
  assert (rep (JS.floor (hue * Num 12) mod Num 12)%js (inject_Z z)) as Hidx.
  { eapply rep_eq.
    - apply (rep_rem _ _ (inject_Z z) 12);
        [apply rep_floor; apply rep_mul; [exact Hh|apply rep_Num]
        |apply rep_Num| |reflexivity].
      change 0 with (inject_Z 0). rewrite <- Zle_Qle. lia.
    - rewrite (GranularSpec.Qfloor_unique (inject_Z z / 12) 0).
      + change (inject_Z 0) with 0. ring.
      + change (inject_Z 0) with 0. apply Qle_shift_div_l; [reflexivity|].
        rewrite Qmult_0_l. change 0 with (inject_Z 0). rewrite <- Zle_Qle. lia.
      + change (inject_Z 0 + 1) with 1. apply Qlt_shift_div_r; [reflexivity|].
        rewrite Qmult_1_l. change 12 with (inject_Z 12). rewrite <- Zlt_Qlt. lia. }
  exists (Z.to_nat z). split; [lia|]. apply get_rep; [exact Hidx|lia].
Qed.

(** X5.  Whatever the buffer, the root [analyzeImage] returns is one of
    the twelve ROOT_NOTES (a number from 110 to 207.65 Hz), and the ratios
    are the SCALES table of the scale it returns. *)
Theorem analyzeImage_root_and_scale
    (sqrtQ : Q -> Q) (pixelData : list byte) (width height : Z) :
  let p := analyzeImage sqrtQ pixelData width height in
  rootHz p ∈ ROOT_NOTES
  /\ within 110 207.65 (rootHz p)
  /\ scaleRatios p = SCALES (scale p).
Proof.
  intros p. subst p. unfold analyzeImage.
  set (acc := colorStats pixelData width height).
  set (spatial := estimateSpatialFreqs pixelData width height).
  destruct (SnapSpec.hueOf_range (totalR acc / JS.of_nat (count acc))%js
              (totalG acc / JS.of_nat (count acc))%js
              (totalB acc / JS.of_nat (count acc))%js) as (hq & Hh & H0 & H1).
  destruct (root_index _ hq Hh H0 H1) as (k & Hk & Hroot).
  assert (rootHz (profileOf sqrtQ acc spatial) = JS.index ROOT_NOTES k) as ->
    by exact Hroot.
  split; [|split; [|reflexivity]].
  - do 12 (destruct k as [|k];
           [apply list_elem_of_In; cbv;
            repeat (first [left; reflexivity | right])|]). lia.
  - do 12 (destruct k as [|k];
           [eexists; split; [apply rep_Num|split; discriminate]|]). lia.
Qed.

(** *** A concrete image *)

(** Twelve pixels, four to a row: red, green, blue and grey ramps. *)
Definition stripes : list byte :=
  [xff; x00; x00; xff;  xc0; x20; x10; xff;  x80; x40; x20; xff;  x40; x60; x30; xff;
   x00; xff; x00; xff;  x10; xc0; x20; xff;  x20; x80; x40; xff;  x30; x40; x60; xff;
   x00; x00; xff; xff;  x10; x20; xc0; xff;  x80; x80; x80; xff;  xff; xff; xff; xff].

Lemma isqrt_nonneg : sqrtNonneg isqrt.
Proof.
  intros x _. unfold isqrt. change 0 with (inject_Z 0). rewrite <- Zle_Qle.
  apply Z.sqrt_nonneg.
Qed.

Lemma analyzeImage_fields_in_range_witness :
  let p := analyzeImage isqrt stripes 4 3 in
  fieldsInRange p /\ ((8 < 12)%nat -> spatialInRange p).
Proof.
  apply (analyzeImage_fields_in_range isqrt stripes 12 4 3).
  - exact isqrt_nonneg.
  - reflexivity.
  - lia.
Defined.

Lemma analyzeImage_scores_in_unit_interval_witness :
  Forall (fun m => within 0 1 (gm_score m))
    (generatedModes (analyzeImage isqrt stripes 4 3)).
Proof.
  apply (analyzeImage_scores_in_unit_interval isqrt stripes 12 4 3).
  - exact isqrt_nonneg.
  - reflexivity.
  - lia.
Defined.

Lemma analyzeImage_keeps_best_archetypes_witness :
  let p := analyzeImage isqrt stripes 4 3 in
  Forall (fun m => JS.le (scoreSpectral p) (gm_score m)) (generatedModes p).
Proof.
  apply (analyzeImage_keeps_best_archetypes isqrt stripes 12 4 3 eq_refl
           ltac:(lia)
           {| archetype := spectral;
              score := scoreSpectral (analyzeImage isqrt stripes 4 3) |}).
  - apply list_elem_of_lookup. exists 4%nat. reflexivity.
  - apply (bool_decide_unpack _). vm_compute. reflexivity.
Defined.

End AnalyzerRanges.

(** ** More on frequencyUtils.ts *)

Module FrequencyExtra.

Import Analyzer Frequency JSFacts FrequencySpec.
Local Open Scope Q_scope.

(** The profile the fallback branch amounts to: A2 and the pentatonic
    table. *)
Definition a2Pentatonic : ImageProfile :=
  LayerNode.tuning BASE_NOTE PENTATONIC_RATIOS.

Lemma Qtrunc_frac x : -1 < x - inject_Z (JS.Qtrunc x) /\ x - inject_Z (JS.Qtrunc x) < 1.
Proof.
  unfold JS.Qtrunc. destruct (JS.Qltb x 0) eqn:E.
  - pose proof (Qfloor_le (- x)) as H1. pose proof (Qlt_floor (- x)) as H2.
    rewrite inject_Z_plus in H2. change (inject_Z 1) with 1 in H2.
    rewrite inject_Z_opp. lra.
  - pose proof (Qfloor_le x) as H1. pose proof (Qlt_floor x) as H2.
    rewrite inject_Z_plus in H2. change (inject_Z 1) with 1 in H2. lra.
Qed.

(** X6.  Without a profile, [brightnessToFrequency] returns what it returns
    on the profile with root 110 Hz and the pentatonic table, for every
    brightness (NaN and negative numbers included): the unclamped read of
    PENTATONIC_RATIOS never differs from the clamped one. *)
Theorem brightnessToFrequency_fallback_is_a2_pentatonic (brightness : num) :
  brightnessToFrequency brightness None
  = brightnessToFrequency brightness (Some a2Pentatonic).
Proof.
  destruct brightness as [b|]; [|reflexivity].
  unfold brightnessToFrequency, a2Pentatonic, LayerNode.tuning.
  cbv zeta. cbn [rootHz scaleRatios].
  change (JS.of_nat (length PENTATONIC_RATIOS)) with (Num 5).
  change (Num 5 - Num 1)%js with (Num 4).
  change (Num b / Num 255)%js with (Num (Qred (b / 255))).
  set (x := Qred (Qred (b / 255) * 3)).
  change (Num (Qred (b / 255)) * Num 3)%js with (Num x).
  change (Num x mod Num 1)%js
    with (Num (Qred (x - 1 * inject_Z (JS.Qtrunc (x / 1))))).
  set (f := Qred (x - 1 * inject_Z (JS.Qtrunc (x / 1)))).
  change (JS.floor (Num f * Num 5)%js)
    with (Num (inject_Z (Qfloor (Qred (f * 5))))).
  assert (Qle_bool (inject_Z (Qfloor (Qred (f * 5)))) 4 = true) as Hle.
  { apply Qle_bool_iff.
    assert (f < 1) as Hf.
    { subst f. rewrite Qred_correct.
      assert (x / 1 == x) as E by field.
      assert (JS.Qtrunc (x / 1) = JS.Qtrunc x) as ->.
      { unfold JS.Qtrunc, JS.Qltb. rewrite (Qfloor_comp _ _ E).
        assert (- (x / 1) == - x) as E' by (rewrite E; reflexivity).
        rewrite (Qfloor_comp _ _ E').
        assert (Qle_bool 0 (x / 1) = Qle_bool 0 x) as ->; [|reflexivity].
        destruct (Qle_bool 0 x) eqn:E0.
        - apply Qle_bool_iff. rewrite E. apply Qle_bool_iff. assumption.
        - apply WebAudioSpec.Qle_bool_false. rewrite E.
          apply WebAudioSpec.Qle_bool_false. assumption. }
      destruct (Qtrunc_frac x). lra. }
    assert (Qfloor (Qred (f * 5)) <= 4)%Z as Hz.
    { assert (Qfloor (Qred (f * 5)) < 5)%Z; [|lia].
      pose proof (Qfloor_le (Qred (f * 5))) as H1.
      pose proof (Qred_correct (f * 5)) as H2.
      rewrite Zlt_Qlt. change (inject_Z 5) with 5. lra. }
    change 4 with (inject_Z 4). rewrite <- Zle_Qle. exact Hz. }
  unfold JS.min. rewrite Hle. reflexivity.
Qed.


(** *** The oscillator bank *)

(** The frequency of bin [i] of a bank of NUM_BINS oscillators. *)
Definition bin (p : ImageProfile) (i : nat) : num :=
  binToFrequency (JS.of_nat i) (JS.of_nat LayerNode.NUM_BINS) (Some p).

Definition bankAscends (p : ImageProfile) : Prop :=
  JS.same (bin p 0) (rootHz p)
  /\ (forall i j, (i <= j)%nat -> (j < LayerNode.NUM_BINS)%nat ->
        JS.le (bin p i) (bin p j))
  /\ (forall i, (i < LayerNode.NUM_BINS)%nat ->
        JS.le (rootHz p * Num (2 ^ Z.of_nat (i / 8)))%js (bin p i)
        /\ JS.lt (bin p i) (rootHz p * Num (2 ^ (Z.of_nat (i / 8) + 1)))%js).

Lemma a2Pentatonic_wellTuned : wellTuned a2Pentatonic.
Proof.
  destruct (SCALES_ok pentatonic) as (qs & Hqs & Hok).
  exists 110, qs. split; [reflexivity|]. split; [reflexivity|].
  split; [exact Hqs|exact Hok].
Qed.

(** The brightness [binToFrequency] passes on for bin [i] of 24. *)
Lemma bin_brightness p (i : nat) :
  exists b, bin p i = brightnessToFrequency (Num b) (Some p)
            /\ b == inject_Z (Z.of_nat i) * (85 # 8).
Proof.
  unfold bin, binToFrequency. cbv zeta.
  exists (Qred (Qred (inject_Z (Z.of_nat i) / inject_Z (Z.of_nat LayerNode.NUM_BINS)) * 255)).
  split; [reflexivity|].
  rewrite Qred_correct, Qred_correct.
  change (inject_Z (Z.of_nat LayerNode.NUM_BINS)) with 24. field.
Qed.

Lemma octave_of_bin (i : nat) b :
  b == inject_Z (Z.of_nat i) * (85 # 8) ->
  Qfloor (b / 255 * 3) = Z.of_nat (i / 8).
Proof.
  intros Hb.
  assert (b / 255 * 3 == inject_Z (Z.of_nat i) / 8) as E by (rewrite Hb; field).
  rewrite (Qfloor_comp _ _ E).
  pose proof (Nat.div_mod_eq i 8) as Hdm.
  pose proof (Nat.mod_upper_bound i 8 ltac:(lia)) as Hm.
  apply GranularSpec.Qfloor_unique.
  - apply Qle_shift_div_l; [reflexivity|].
    change 8 with (inject_Z 8). rewrite <- inject_Z_mult, <- Zle_Qle. lia.
  - apply Qlt_shift_div_r; [reflexivity|].
    change 1 with (inject_Z 1). change 8 with (inject_Z 8).
    rewrite <- inject_Z_plus, <- inject_Z_mult, <- Zlt_Qlt. lia.
Qed.

(** The value at a brightness between 0 and 255. *)
Lemma frequency_at p r qs b :
  rootHz p = Num r -> scaleRatios p = Num <$> qs -> scaleOk qs ->
  0 <= b -> b <= 255 ->
  exists k q, k = Qfloor (b / 255 * 3)
    /\ (k = 0 \/ k = 1 \/ k = 2 \/ k = 3)%Z
    /\ qs !! degreeOf b (length qs) = Some q
    /\ 1 <= q /\ q < 2
    /\ rep (brightnessToFrequency (Num b) (Some p)) (r * 2 ^ k * q).
Proof.
  intros Hr Hs Hok H0 H1.
  assert (qs <> []) as Hne.
  { destruct Hok as ((q0 & rest & -> & _) & _). discriminate. }
  destruct (brightnessToFrequency_value p r qs b Hr Hs Hne H0) as (q & Hq & Hrep).
  exists (Qfloor (b / 255 * 3)), q.
  split; [reflexivity|]. split; [apply octave_range; assumption|].
  split; [assumption|].
  destruct (scaleOk_bounds qs _ q Hok Hq). repeat split; assumption.
Qed.

Ltac pow2_values :=
  repeat match goal with
         | |- context [2 ^ 0] => change (2 ^ 0) with 1
         | |- context [2 ^ 1] => change (2 ^ 1) with 2
         | |- context [2 ^ 2] => change (2 ^ 2) with 4
         | |- context [2 ^ 3] => change (2 ^ 3) with 8
         | |- context [2 ^ (0 + 1)] => change (2 ^ (0 + 1)) with 2
         | |- context [2 ^ (1 + 1)] => change (2 ^ (1 + 1)) with 4
         | |- context [2 ^ (2 + 1)] => change (2 ^ (2 + 1)) with 8
         | |- context [2 ^ (3 + 1)] => change (2 ^ (3 + 1)) with 16
         end.

Lemma frequency_mono p r qs b1 b2 :
  rootHz p = Num r -> 0 < r -> scaleRatios p = Num <$> qs -> scaleOk qs ->
  0 <= b1 -> b1 <= b2 -> b2 <= 255 ->
  JS.le (brightnessToFrequency (Num b1) (Some p))
        (brightnessToFrequency (Num b2) (Some p)).
Proof.
  intros Hr Hrpos Hs Hok H0 H12 H255.
  destruct (frequency_at p r qs b1 Hr Hs Hok)
    as (k1 & q1 & Ek1 & Hk1 & Hq1 & Hq1l & Hq1u & Hrep1); [lra..|].
  destruct (frequency_at p r qs b2 Hr Hs Hok)
    as (k2 & q2 & Ek2 & Hk2 & Hq2 & Hq2l & Hq2u & Hrep2); [lra..|].
  eapply le_rep; [exact Hrep1|exact Hrep2|].
  assert (k1 <= k2)%Z as Hk.
  { subst k1 k2. apply Qfloor_resp_le.
    assert (b1 / 255 <= b2 / 255).
    { apply Qmult_le_compat_r; [assumption|]. discriminate. }
    lra. }
  destruct (Z.eq_dec k1 k2) as [Heq|Hneq].
  - assert (q1 <= q2) as Hq.
    { apply (sorted_lookup qs (degreeOf b1 (length qs)) (degreeOf b2 (length qs)));
        [apply Hok| |assumption..].
      apply degreeOf_mono; [assumption..|]. congruence. }
    rewrite <- Heq.
    destruct Hk1 as [-> | [-> | [-> | ->]]]; pow2_values; nra.
  - destruct Hk1 as [-> | [-> | [-> | ->]]], Hk2 as [-> | [-> | [-> | ->]]];
      try lia; pow2_values; nra.
Qed.

(** X7.  On a profile with a positive root and a scale table, the 24
    oscillators of a layer are tuned in non-decreasing order from the root:
    bin 0 sounds the root, and bins 8k to 8k+7 lie in octave k above it,
    so the bank spans the three octaves from the root to eight times the
    root. *)
Theorem oscillator_bank_ascends (p : ImageProfile) :
  wellTuned p -> bankAscends p.
Proof.
  intros (r & qs & Hr & Hrpos & Hs & Hok).
  assert (forall i, (i < 24)%nat ->
            exists b, bin p i = brightnessToFrequency (Num b) (Some p)
                      /\ b == inject_Z (Z.of_nat i) * (85 # 8)
                      /\ 0 <= b /\ b <= 255) as Hbin.
  { intros i Hi. destruct (bin_brightness p i) as (b & Eb & Hb).
    exists b. split; [exact Eb|]. split; [exact Hb|].
    assert (0 <= inject_Z (Z.of_nat i)) as Hi0
      by (change 0 with (inject_Z 0); rewrite <- Zle_Qle; lia).
    assert (inject_Z (Z.of_nat i) <= 24) as Hi1
      by (change 24 with (inject_Z 24); rewrite <- Zle_Qle; lia).
    rewrite Hb. split; nra. }
  split; [|split].
  - destruct (Hbin 0%nat ltac:(lia)) as (b & Eb & Hb & Hb0 & Hb1). rewrite Eb.
    destruct (frequency_at p r qs b Hr Hs Hok Hb0 Hb1)
      as (k & q & Ek & _ & Hq & _ & _ & Hrep).
    eapply rep_same; [|rewrite Hr; apply rep_Num].
    eapply rep_eq; [exact Hrep|].
    assert (b == 0) as Eb0 by (rewrite Hb; reflexivity).
    rewrite (octave_of_bin 0 b Hb) in Ek. subst k.
    destruct Hok as ((q0 & rest & -> & H0) & _).
    unfold degreeOf in Hq. simpl length in Hq.
    assert (Z.to_nat (Z.min (Qfloor ((b / 255 * 3 - 1 * inject_Z (Qfloor (b / 255 * 3 / 1)))
                                      * inject_Z (Z.of_nat (S (length rest)))))
                            (Z.of_nat (S (length rest)) - 1)) = 0%nat) as E.
    { assert (b / 255 * 3 / 1 == 0) as E1 by (rewrite Eb0; reflexivity).
      rewrite (Qfloor_comp _ _ E1). change (Qfloor 0) with 0%Z.
      rewrite (Qfloor_comp _ 0) by (rewrite Eb0; reflexivity).
      change (Qfloor 0) with 0%Z. lia. }
    rewrite E in Hq. injection Hq as <-.
    change (2 ^ Z.of_nat (0 / 8)) with 1. rewrite H0. ring.
  - intros i j Hij Hj.
    destruct (Hbin i ltac:(unfold LayerNode.NUM_BINS in Hj; lia))
      as (bi & Ei & Hbi & Hi0 & Hi1).
    destruct (Hbin j Hj) as (bj & Ej & Hbj & Hj0 & Hj1).
    rewrite Ei, Ej. apply (frequency_mono p r qs); try assumption.
    rewrite Hbi, Hbj.
    assert (inject_Z (Z.of_nat i) <= inject_Z (Z.of_nat j))
      by (rewrite <- Zle_Qle; lia).
    nra.
  - intros i Hi.
    destruct (Hbin i Hi) as (b & Eb & Hb & Hb0 & Hb1). rewrite Eb.
    destruct (frequency_at p r qs b Hr Hs Hok Hb0 Hb1)
      as (k & q & Ek & Hk & Hq & Hql & Hqu & Hrep).
    rewrite (octave_of_bin i b Hb) in Ek. rewrite <- Ek. rewrite Hr. split.
    + eapply le_rep; [apply rep_mul; apply rep_Num|exact Hrep|].
      destruct Hk as [-> | [-> | [-> | ->]]]; pow2_values; nra.
    + eapply lt_rep; [exact Hrep|apply rep_mul; apply rep_Num|].
      destruct Hk as [-> | [-> | [-> | ->]]]; pow2_values; nra.
Qed.

Lemma oscillator_bank_ascends_witness : bankAscends a2Pentatonic.
Proof.
  apply (oscillator_bank_ascends a2Pentatonic). exact a2Pentatonic_wellTuned.
Defined.

End FrequencyExtra.

(** ** More on snapToScale (imageAnalyzer.ts) *)

Module SnapExtra.

Import Analyzer JSFacts FrequencySpec SnapSpec.
Local Open Scope Q_scope.

(** [v] is a note of the scale: the root [r], times 1, 2 or 4, times a
    ratio [q] of the table, within two octaves of the root; and [q] is the
    ratio nearest to where [hz], moved by whole octaves to [n], lies in its
    octave. *)
Definition onScale (r : Q) (qs : list Q) (hz v : Q) : Prop :=
  exists (m L : Z) (q : Q),
    let n := hz * 2 ^ m in
    r <= n /\ n <= r * 4
    /\ (0 <= L <= 2)%Z /\ In q qs
    /\ v == r * 2 ^ L * q /\ r <= v /\ v <= r * 4
    /\ (forall q', In q' qs ->
          Qabs (n / r / 2 ^ L - q) <= Qabs (n / r / 2 ^ L - q')).

Lemma Qpower_succ (z : Z) : 2 ^ (z + 1) == 2 ^ z * 2.
Proof. rewrite Qpower_plus by discriminate. reflexivity. Qed.

Lemma Qpower_pred (z : Z) : 2 ^ (z - 1) == 2 ^ z / 2.
Proof.
  unfold Z.sub. rewrite Qpower_plus by discriminate.
  change (2 ^ (-1)) with (/ 2). reflexivity.
Qed.

(** The first loop multiplies by a power of two. *)
Lemma raise_power fuel :
  forall h r n, raise fuel (Num h) (Num r) = Some (Num n) ->
    exists m : Z, n == h * 2 ^ m.
Proof.
  induction fuel as [|fuel IH]; intros h r n H; [discriminate H|].
  cbn [raise] in H. destruct (Num h <? Num r)%js.
  - change (Num h * Num 2)%js with (Num (Qred (h * 2))) in H.
    destruct (IH _ _ _ H) as (m & Hm). exists (m + 1)%Z.
    rewrite Hm, Qred_correct, Qpower_succ. ring.
  - injection H as <-. exists 0%Z. change (2 ^ 0) with 1. ring.
Qed.

(** The second loop divides by a power of two. *)
Lemma lower_power fuel :
  forall n b n', lower fuel (Num n) (Num b) = Some (Num n') ->
    exists m : Z, n' == n * 2 ^ m.
Proof.
  induction fuel as [|fuel IH]; intros n b n' H; [discriminate H|].
  cbn [lower] in H. destruct (Num n >? Num b)%js.
  - change (Num n / Num 2)%js with (Num (Qred (n / 2))) in H.
    destruct (IH _ _ _ H) as (m & Hm). exists (m - 1)%Z.
    rewrite Hm, Qred_correct, Qpower_pred. field.
  - injection H as <-. exists 0%Z. change (2 ^ 0) with 1. ring.
Qed.

Lemma snapToScale_value (p : ImageProfile) (r : Q) (qs : list Q) (hz : Q) :
  rootHz p = Num r -> 0 < r -> scaleRatios p = Num <$> qs -> scaleOk qs ->
  0 < hz ->
  exists fuel0, forall fuel, (fuel0 <= fuel)%nat ->
    exists v, snapToScale fuel (Num hz) p = Some (Num v) /\ onScale r qs hz v.
Proof.
  intros Hr Hrpos Hs Hok Hhz.
  assert (qs <> []) as Hne.
  { destruct Hok as ((q0 & rest & -> & _) & _). discriminate. }
  set (m1 := Z.to_nat (Qceiling (r / hz))).
  destruct (raise_ends r Hrpos m1 hz (S m1) Hhz) as (n1 & Hn1 & Hrn1 & _).
  { subst m1. pose proof (Qle_ceiling (r / hz)).
    assert (0 <= r / hz) by (apply Qle_shift_div_l; lra).
    rewrite Z2Nat.id; [lia|].
    change 0%Z with (Qceiling 0). apply Qceiling_resp_le. assumption. }
  { lia. }
  assert (Qred (r * 4) == r * 4) as Hb by apply Qred_correct.
  set (m2 := Z.to_nat (Qceiling (n1 / r))).
  destruct (lower_ends r (Qred (r * 4)) Hrpos Hb m2 n1 (S m2) Hrn1)
    as (n2 & Hn2 & Hrn2 & Hn24 & _).
  { subst m2. assert (0 <= n1 / r) by (apply Qle_shift_div_l; lra).
    rewrite Z2Nat.id; [lia|].
    change 0%Z with (Qceiling 0). apply Qceiling_resp_le. assumption. }
  { lia. }
  destruct (raise_power _ _ _ _ Hn1) as (k1 & Hk1).
  destruct (lower_power _ _ _ _ Hn2) as (k2 & Hk2).
  exists (Nat.max (S m1) (S m2)). intros fuel Hfuel.
  destruct (settle_value p r qs n2 Hr Hrpos Hs Hne Hrn2 Hn24)
    as (L & q & Hoct & Hq & Hbest & Hrep).
  destruct (rep_inv _ _ Hrep) as (v & Ev & Hv).
  assert (1 <= q /\ q < 2) as [Hq1 Hq2].
  { pose proof Hq as Hq'. apply list_elem_of_In in Hq'.
    apply list_elem_of_lookup_1 in Hq'.
    destruct Hq' as [i Hi]. eapply scaleOk_bounds; eassumption. }
  assert (n2 == hz * 2 ^ (k1 + k2)) as Hn.
  { rewrite Hk2, Hk1. rewrite (Qpower_plus 2 k1 k2) by discriminate. ring. }
  exists v. split.
  - destruct fuel as [|fuel]; [lia|].
    rewrite snapToScale_settle, Hr.
    rewrite (raise_more _ _ _ _ Hn1) by lia. cbn [mbind option_bind].
    change (Num r * Num 4)%js with (Num (Qred (r * 4))).
    rewrite (lower_more _ _ _ _ Hn2) by lia. cbn [mbind option_bind].
    rewrite <- Ev. reflexivity.
  - exists (k1 + k2)%Z, L, q. cbv zeta. rewrite <- Hn.
    split; [assumption|]. split; [assumption|].
    assert ((0 <= L <= 2)%Z /\ r <= r * 2 ^ L * q /\ r * 2 ^ L * q <= r * 4)
      as (HL & Hv1 & Hv4).
    { unfold octaveOf in Hoct. destruct Hoct as [[-> ?]|[[-> ?]|[-> E4]]].
      - change (2 ^ 0) with 1. split; [lia|]. split; nra.
      - change (2 ^ 1) with 2. split; [lia|]. split; nra.
      - change (2 ^ 2) with 4. split; [lia|].
        destruct Hok as ((q0 & rest & -> & H0) & _).
        specialize (Hbest q0 (or_introl eq_refl)).
        assert (n2 / r / 2 ^ 2 == 1) as E1.
        { rewrite E4. change (2 ^ 2) with 4. field. lra. }
        rewrite E1, H0 in Hbest. change (Qabs (1 - 1)) with 0 in Hbest.
        apply Qabs_Qle_condition in Hbest.
        assert (q == 1) as -> by lra. split; lra. }
    split; [exact HL|]. split; [exact Hq|]. split; [exact Hv|].
    split; [rewrite Hv; exact Hv1|]. split; [rewrite Hv; exact Hv4|].
    intros q' Hq'. rewrite <- Hn. apply Hbest. exact Hq'.
Qed.

(** X8.  For a positive frequency and a profile the analyzer returns,
    [snapToScale] returns (its loops given enough fuel to finish) a note of
    the profile's scale: the root times 1, 2 or 4 times a ratio of the
    table, between the root and four times the root, the ratio being the
    one nearest to the input once moved by whole octaves into that
    range. *)
Theorem snapToScale_lands_on_scale
    (sqrtQ : Q -> Q) (pixelData : list byte) (width height : Z) (hz : Q) :
  0 < hz ->
  let p := analyzeImage sqrtQ pixelData width height in
  exists r qs, rootHz p = Num r /\ scaleRatios p = Num <$> qs
    /\ exists fuel0, forall fuel, (fuel0 <= fuel)%nat ->
         exists v, snapToScale fuel (Num hz) p = Some (Num v)
                   /\ onScale r qs hz v.
Proof.
  intros Hhz p.
  destruct (analyzeImage_wellTuned sqrtQ pixelData width height)
    as (r & qs & Hr & Hrpos & Hs & Hok).
  exists r, qs. split; [exact Hr|]. split; [exact Hs|].
  apply snapToScale_value; assumption.
Qed.

Lemma snapToScale_lands_on_scale_witness :
  let p := analyzeImage AnalyzerSpec.isqrt AnalyzerRanges.stripes 4 3 in
  exists r qs, rootHz p = Num r /\ scaleRatios p = Num <$> qs
    /\ exists fuel0, forall fuel, (fuel0 <= fuel)%nat ->
         exists v, snapToScale fuel (Num 1000) p = Some (Num v)
                   /\ onScale r qs 1000 v.
Proof.
  apply (snapToScale_lands_on_scale AnalyzerSpec.isqrt AnalyzerRanges.stripes
           4 3 1000).
  reflexivity.
Defined.

(** The first loop never ends on a note that is not positive. *)
Lemma raise_stuck (r : Q) fuel :
  0 < r -> forall h, h <= 0 -> raise fuel (Num h) (Num r) = None.
Proof.
  intros Hr. induction fuel as [|fuel IH]; intros h Hh; [reflexivity|].
  cbn [raise].
  assert ((Num h <? Num r)%js = true) as ->
    by (apply WebAudioSpec.Qltb_true; lra).
  change (Num h * Num 2)%js with (Num (Qred (h * 2))).
  apply IH. rewrite Qred_correct. lra.
Qed.

(** X9.  On a frequency that is zero or negative, and a profile with a
    positive root, [snapToScale] never returns: its first loop, which
    doubles the note while it is below the root, runs for ever. *)
Theorem snapToScale_hangs_below_zero (p : ImageProfile) (r hz : Q) (fuel : nat) :
  rootHz p = Num r -> 0 < r -> hz <= 0 ->
  snapToScale fuel (Num hz) p = None.
Proof.
  intros Hr Hrpos Hhz. rewrite snapToScale_settle, Hr.
  rewrite (raise_stuck r fuel Hrpos hz Hhz). reflexivity.
Qed.

Lemma snapToScale_hangs_below_zero_witness :
  snapToScale 1000 (Num 0) FrequencyExtra.a2Pentatonic = None.
Proof.
  apply (snapToScale_hangs_below_zero FrequencyExtra.a2Pentatonic 110 0 1000).
  - reflexivity.
  - reflexivity.
  - discriminate.
Defined.

End SnapExtra.

(** ** More on the granular engine *)

Module GranularExtra.

Import WebAudio Granular GranularSpec JSFacts.

(** [idle s]: the slot holds no grain. *)
Definition idle (s : GrainSlot) : Prop :=
  busy s = false /\ source s = None /\ envelope s = None.

(** *** The end of a grain *)

Lemma idleCount_insert l i s s' :
  l !! i = Some s ->
  idleCount (<[i := s']> l) + (if busy s then 0 else 1)
  = idleCount l + (if busy s' then 0 else 1).
Proof.
  revert i. induction l as [|x l IH]; intros i Hi; [discriminate|].
  destruct i as [|i]; simpl in *.
  - injection Hi as ->. lia.
  - specialize (IH i Hi). lia.
Qed.

(** X10.  The [onended] callback of a grain gives its slot back: after
    [fireGrain] took the first idle slot [i] and the grain then ended, slot
    [i] is idle again, every other slot is as [fireGrain] left it (which is
    as it was), and the pool has as many idle slots as before the grain. *)
Theorem grain_end_returns_slot
    (env : Env) (params : GranularParams) (now : Q) (e : GranularEngine)
    (b : AudioBuffer) (i : nat) (s : GrainSlot) :
  buffer e = Some b -> getFreeSlot e = Some (i, s) ->
  let e' := onended now i (fireGrain env params e) in
  (exists s', slots e' !! i = Some s' /\ idle s')
  /\ (forall j, j <> i -> slots e' !! j = slots e !! j)
  /\ idleCount (slots e') = idleCount (slots e)
  /\ length (slots e') = length (slots e).
Proof.
  intros Hb Hfree e'. subst e'.
  pose proof Hfree as Hfind. unfold getFreeSlot in Hfind.
  apply list_find_Some in Hfind. destruct Hfind as (Hi & Hidle & _).
  assert (i < length (slots e)) as Hlen by (eapply lookup_lt_Some; eassumption).
  unfold fireGrain. rewrite Hb, Hfree. cbv zeta.
  unfold onended. cbn [slots].
  rewrite list_lookup_insert_eq by assumption.
  cbn [slots gain pan]. rewrite list_insert_insert_eq.
  split; [|split; [|split]].
  - eexists. split; [apply list_lookup_insert_eq; assumption|].
    repeat split.
  - intros j Hj. apply list_lookup_insert_ne. congruence.
  - pose proof (idleCount_insert (slots e) i s
                  {| gain := setValueAtTime (Num 0) now
                               (setValueAtTime (amplitude params) (currentTime env)
                                  (gain s));
                     pan := setValueAtTime
                              (JS.max (Num (-1))
                                 (JS.min (Num 1)
                                    ((random env (draws e + 2) - Num 0.5) * Num 2
                                     * stereoWidth params)%js))
                              (currentTime env) (pan s);
                     busy := false; source := None; envelope := None |} Hi) as H.
    rewrite Hidle in H. cbn [busy] in H. lia.
  - apply length_insert.
Qed.

Lemma grain_end_returns_slot_witness :
  let e' := onended 1 0 (fireGrain env0 (withDensity (Num 10)) loaded0) in
  (exists s', slots e' !! 0 = Some s' /\ idle s')
  /\ (forall j, j <> 0 -> slots e' !! j = slots loaded0 !! j)
  /\ idleCount (slots e') = idleCount (slots loaded0)
  /\ length (slots e') = length (slots loaded0).
Proof.
  apply (grain_end_returns_slot env0 (withDensity (Num 10)) 1 loaded0
           {| duration := Num 2 |} 0 freshSlot).
  - reflexivity.
  - reflexivity.
Defined.


(** *** Stopping every grain *)

Lemma stopSlot_idle now s : idle (stopSlot now s).
Proof. repeat split. Qed.

Lemma idleCount_all l :
  Forall (fun s => busy s = false) l -> idleCount l = length l.
Proof.
  induction 1 as [|s l Hs _ IH]; [reflexivity|]. simpl. rewrite Hs, IH. reflexivity.
Qed.

Lemma stopAllGrains_pool now e :
  Forall idle (slots (stopAllGrains now e))
  /\ idleCount (slots (stopAllGrains now e)) = length (slots e)
  /\ grainTimer (stopAllGrains now e) = Num 0.
Proof.
  assert (Forall idle (slots (stopAllGrains now e))) as H.
  { cbn [stopAllGrains slots]. apply Forall_fmap. apply Forall_true.
    intros s. apply stopSlot_idle. }
  split; [exact H|]. split; [|reflexivity].
  rewrite idleCount_all.
  - cbn [stopAllGrains slots]. apply length_fmap.
  - eapply Forall_impl; [exact H|]. intros s (Hs & _). exact Hs.
Qed.

(** What [reset], [clearBuffer] and [disconnect] have in common. *)
Definition stopped (e0 e : GranularEngine) : Prop :=
  Forall idle (slots e) /\ idleCount (slots e) = length (slots e0)
  /\ grainTimer e = Num 0 /\ started e = started e0.

(** X11.  [reset], [clearBuffer] and [disconnect] each free the whole pool
    and zero the grain timer, whatever was playing; [reset] keeps the
    buffer and gives back the full polyphony (a burst of [k] grains after
    it plays as many grains as the pool has slots, at most [k]),
    [clearBuffer] drops the buffer, and after [disconnect] no [setBuffer]
    makes [tick] fire again. *)
Theorem stopping_frees_the_pool (now : Q) (e : GranularEngine) :
  (stopped e (reset now e) /\ buffer (reset now e) = buffer e
   /\ _active (reset now e) = _active e
   /\ forall env params b k,
        buffer e = Some b ->
        length (started (Nat.iter k (fireGrain env params) (reset now e)))
        = length (started e) + Nat.min k (length (slots e)))
  /\ (stopped e (clearBuffer now e) /\ buffer (clearBuffer now e) = None)
  /\ (stopped e (disconnect now e)
      /\ forall fuel env params dt b,
           tick fuel env params dt (setBuffer b (disconnect now e))
           = Some (setBuffer b (disconnect now e))).
Proof.
  split; [|split].
  - destruct (stopAllGrains_pool now e) as (H1 & H2 & _).
    split; [|split; [reflexivity|split; [reflexivity|]]].
    + split; [exact H1|]. split; [exact H2|]. split; reflexivity.
    + intros env params b k Hb.
      destruct (burst env params b k (reset now e) Hb) as (_ & _ & Hst).
      rewrite Hst. f_equal. f_equal. exact H2.
  - split; [|reflexivity].
    destruct (stopAllGrains_pool now
                {| buffer := None; slots := slots e; grainTimer := grainTimer e;
                   _active := _active e; hannCache := hannCache e;
                   draws := draws e; started := started e |}) as (H1 & H2 & _).
    split; [exact H1|]. split; [exact H2|]. split; reflexivity.
  - split; [|reflexivity].
    destruct (stopAllGrains_pool now
                {| buffer := buffer e; slots := slots e;
                   grainTimer := grainTimer e; _active := false;
                   hannCache := hannCache e; draws := draws e;
                   started := started e |}) as (H1 & H2 & _).
    split; [exact H1|]. split; [exact H2|]. split; reflexivity.
Qed.


(** *** Where a grain starts *)

Import AnalyzerSpec AnalyzerRanges.
Local Open Scope Q_scope.

(** [Math.max(-1, Math.min(1, y))] *)
Lemma clamp_pan y : isNum y -> within (-1) 1 (JS.max (Num (-1)) (JS.min (Num 1) y)).
Proof.
  intros Hy. destruct (isNum_rep y Hy) as (q & ->).
  exists (Qmax (-1) (Qmin 1 q)). split.
  - apply rep_max; [apply rep_Num|]. apply rep_min; apply rep_Num.
  - split; [apply Q.le_max_l|].
    apply Q.max_lub; [lra|apply Q.le_min_l].
Qed.

(** The parameters and the random source are numbers. *)
Definition numeric (env : Env) (params : GranularParams) : Prop :=
  isNum (position params) /\ isNum (positionScatter params)
  /\ isNum (grainDuration params) /\ isNum (stereoWidth params)
  /\ forall k, isNum (random env k).

(** [a] is a number, at least [lo]. *)
Definition atLeast (lo : Q) (a : num) : Prop := exists q, rep a q /\ lo <= q.




(** *** Splitting a frame *)

Lemma fireGrain_active env params e :
  _active (fireGrain env params e) = _active e.
Proof.
  unfold fireGrain. destruct (buffer e); [|reflexivity].
  destruct (getFreeSlot e) as [[i s]|]; reflexivity.
Qed.

Lemma iter_active env params k e :
  _active (Nat.iter k (fireGrain env params) e) = _active e.
Proof.
  induction k as [|k IH]; [reflexivity|].
  rewrite Nat.iter_succ, fireGrain_active. exact IH.
Qed.

(** The timer the loop leaves is in lowest terms, as every result of an
    arithmetic operation is. *)
Lemma tickLoop_canonical env params interval fuel :
  forall e e' t,
    grainTimer e = Num t -> Qred t = t ->
    tickLoop fuel env params interval e = Some e' ->
    exists r, grainTimer e' = Num r /\ Qred r = r.
Proof.
  induction fuel as [|fuel IH]; intros e e' t Ht Hc H; [discriminate H|].
  cbn [tickLoop] in H. rewrite Ht in H. destruct interval as [i|].
  - destruct (Num t >=? Num i)%js.
    + eapply (IH _ _ (Qred (t - i))); [| |exact H].
      * rewrite fireGrain_grainTimer. reflexivity.
      * apply Qred_complete, Qred_correct.
    + injection H as <-. exists t. split; assumption.
  - change (Num t >=? NaN)%js with false in H.
    injection H as <-. exists t. split; assumption.
Qed.

Lemma Qred_eq (x y : Q) : Qred x = x -> Qred y = y -> x == y -> x = y.
Proof. intros Hx Hy H. rewrite <- Hx, <- Hy. apply Qred_complete. exact H. Qed.

(** What [tick] returns on a loaded, active engine. *)
Lemma tick_value env params e b (t d g : Q) :
  buffer e = Some b -> _active e = true ->
  grainTimer e = Num t -> grainDensity params = Num g ->
  let i := clampedInterval g in
  let k := Z.to_nat (Qfloor ((t + d) / i)) in
  forall fuel, (k < fuel)%nat ->
    exists r,
      tick fuel env params (Num d) e
      = Some (setTimer (Num r) (Nat.iter k (fireGrain env params) e))
      /\ r == t + d - inject_Z (Z.of_nat k) * i
      /\ r < i /\ (0 <= t + d -> 0 <= r) /\ Qred r = r /\ 0 < i.
Proof.
  intros Hb Ha Ht Hg i k fuel Hfuel. subst i k.
  assert (0 < clampedInterval g) as Hpos.
  { unfold clampedInterval. destruct (Qle_bool 1 g) eqn:E.
    - apply Qle_bool_iff in E. apply Qlt_shift_div_l; lra.
    - reflexivity. }
  unfold tick. rewrite Ha, Hb, Ht, Hg. simpl.
  set (y := (if Qle_bool 1 g then g else 1)).
  assert (1 <= y) as Hy.
  { subst y. destruct (Qle_bool 1 g) eqn:E; [apply Qle_bool_iff in E|]; lra. }
  destruct (Qeq_bool y 0) eqn:E0.
  { apply Qeq_bool_iff in E0. lra. }
  assert (Qred (1 / y) == clampedInterval g) as HI
    by (rewrite Qred_correct; reflexivity).
  destruct (tickLoop_spec env params (Qred (1 / y)) ltac:(lra)
              (Z.to_nat (Qfloor ((t + d) / clampedInterval g)))
              (Qred (t + d)) (setTimer (Num (Qred (t + d))) e) fuel)
    as (r & Hr & Heq & Hlt & Hge).
  - reflexivity.
  - f_equal. apply Qfloor_comp. rewrite Qred_correct, HI. reflexivity.
  - assumption.
  - destruct (tickLoop_canonical env params (Num (Qred (1 / y))) fuel
                (setTimer (Num (Qred (t + d))) e) _ (Qred (t + d)) eq_refl
                (Qred_complete _ _ (Qred_correct _)) Hr) as (r' & Hr' & Hc).
    cbn [grainTimer setTimer] in Hr'. injection Hr' as <-.
    exists r. split; [|split; [|split; [|split; [|split]]]].
    + rewrite Hr, iter_fireGrain_setTimer, setTimer_setTimer. reflexivity.
    + rewrite Heq, Qred_correct, HI. reflexivity.
    + lra.
    + intros H. apply Hge. rewrite Qred_correct. assumption.
    + exact Hc.
    + exact Hpos.
Qed.


Lemma iter_buffer env params k e :
  buffer (Nat.iter k (fireGrain env params) e) = buffer e.
Proof.
  induction k as [|k IH]; [reflexivity|].
  rewrite Nat.iter_succ, fireGrain_buffer. exact IH.
Qed.



End GranularExtra.

(** ** More on the effects chain *)

Module EffectsExtra.

Import WebAudio Types Effects.
Local Open Scope Q_scope.

(** *** The gains settle where the latest call put them *)

(** The parameters every call of [applyEffects] ramps (the wet and dry
    gains of the six effects, and the settings of flanger, chorus and
    delay), and the value [applyEffects(fx)] ramps each of them to. *)
Definition gains (c : EffectsChain) : list AudioParam :=
  [distortionWet c; distortionBypass c; eqWet c; eqBypass c;
   flangerWet c; flangerBypass c; chorusWet c; chorusBypass c;
   delayWet c; delayDry c; reverbWet c; reverbDry c;
   flangerLFO_frequency c; flangerLFOGain c;
   chorusLFO_frequency c; chorusLFOGain c;
   delayNode_delayTime c; delayFeedbackGain c].

Definition targets (fx : LayerEffects) : list num :=
  [ (if distortionEnabled fx then Num 1 else Num 0);
    (if distortionEnabled fx then Num 0 else Num 1);
    (if eqEnabled fx then Num 1 else Num 0);
    (if eqEnabled fx then Num 0 else Num 1);
    (if flangerEnabled fx then flangerMix fx else Num 0);
    (if flangerEnabled fx then Num 1 - flangerMix fx else Num 1)%js;
    (if chorusEnabled fx then chorusMix fx else Num 0);
    (if chorusEnabled fx then Num 1 - chorusMix fx else Num 1)%js;
    (if delayEnabled fx then delayMix fx else Num 0);
    Num 1;
    (if reverbEnabled fx then reverbMix fx else Num 0);
    (if reverbEnabled fx then Num 1 - reverbMix fx * Num 0.5 else Num 1)%js;
    flangerRate fx; flangerDepth fx; chorusRate fx; chorusDepth fx;
    delayTime fx; delayFeedback fx ].

(** A gain set once at [t0] and ramped since, every ramp over by [upto]. *)
Definition ramped (t0 upto : Q) (p : AudioParam) : Prop :=
  exists v0 ramps, events p = SetValue v0 t0 :: ramps
                   /\ WebAudioSpec.rampsAfter t0 ramps
                   /\ WebAudioSpec.upTo upto ramps.

(** Calls made in order of time, none before [lo]. *)
Fixpoint inOrder (lo : Q) (calls : list (Q * LayerEffects)) : Prop :=
  match calls with
  | [] => True
  | (now, _) :: calls' => lo <= now /\ inOrder now calls'
  end.

Lemma ramp_to t0 upto now v p :
  ramped t0 upto p -> t0 <= now -> upto <= now + 0.05 ->
  ramped t0 (now + 0.05) (linearRampToValueAtTime v (now + 0.05) p)
  /\ forall t, now + 0.05 <= t ->
       valueAt (linearRampToValueAtTime v (now + 0.05) p) t = Some v.
Proof.
  intros (v0 & ramps & Hev & Hs & Hu) Ht0 Hup.
  destruct (WebAudioSpec.insertEvent_ramp v (now + 0.05) t0 ramps Hs)
    as (l' & Hins & Hs' & Hu').
  { eapply Forall_impl; [exact Hu|]. simpl. intros e He. lra. }
  { lra. }
  assert (events (linearRampToValueAtTime v (now + 0.05) p)
          = SetValue v0 t0 :: l' ++ [LinearRamp v (now + 0.05)]) as Hev'.
  { cbn [linearRampToValueAtTime schedule events].
    rewrite Hev. simpl.
    rewrite WebAudioSpec.Qeq_bool_false by lra. simpl.
    assert (Qle_bool t0 (now + 0.05) = true) as -> by (apply Qle_bool_iff; lra).
    rewrite Hins. reflexivity. }
  split.
  - exists v0, (l' ++ [LinearRamp v (now + 0.05)]). repeat split; assumption.
  - intros t Ht0'. rewrite WebAudioSpec.valueAt_settled.
    + rewrite Hev'. rewrite app_comm_cons, last_snoc. reflexivity.
    + rewrite Hev'. constructor; [simpl; lra|].
      eapply Forall_impl; [exact Hu'|]. simpl. intros e He. lra.
Qed.

Lemma gains_applyEffects now fx c :
  gains (applyEffects now fx c)
  = zip_with (fun v p => linearRampToValueAtTime v (now + 0.05) p)
      (targets fx) (gains c).
Proof. reflexivity. Qed.

Lemma applyEffects_gains t0 upto now fx c :
  Forall (ramped t0 upto) (gains c) -> t0 <= now -> upto <= now + 0.05 ->
  Forall (ramped t0 (now + 0.05)) (gains (applyEffects now fx c))
  /\ forall t, now + 0.05 <= t ->
       (fun p => valueAt p t) <$> gains (applyEffects now fx c)
       = Some <$> targets fx.
Proof.
  intros H Ht0 Hup. rewrite gains_applyEffects.
  assert (length (targets fx) = length (gains c)) as Hlen by reflexivity.
  revert Hlen H. generalize (targets fx) (gains c).
  intros vs. induction vs as [|v vs IH]; intros [|p ps] Hlen H;
    try discriminate Hlen.
  - split; [constructor|reflexivity].
  - inversion H as [|? ? Hp Hps]; subst.
    destruct (IH ps) as (IH1 & IH2); [simpl in Hlen; lia|assumption|].
    destruct (ramp_to t0 upto now v p Hp Ht0 Hup) as (R1 & R2).
    split.
    + constructor; assumption.
    + intros t Ht. cbn [zip_with fmap list_fmap].
      rewrite (R2 t Ht). f_equal. apply IH2. exact Ht.
Qed.

Lemma constructor_gains t0 : Forall (ramped t0 t0) (gains (Effects.constructor t0)).
Proof.
  repeat (apply List.Forall_cons;
          [eexists _, []; split; [reflexivity|split; constructor]|]).
  constructor.
Qed.

Lemma run_settles t0 calls now fx :
  forall lo upto c,
    Forall (ramped t0 upto) (gains c) -> t0 <= lo -> upto <= lo + 0.05 ->
    inOrder lo (calls ++ [(now, fx)]) ->
    forall t, now + 0.05 <= t ->
      (fun p => valueAt p t) <$> gains (run (calls ++ [(now, fx)]) c)
      = Some <$> targets fx.
Proof.
  induction calls as [|[n1 f1] calls IH]; intros lo upto c H Hlo Hup Hord t Ht.
  - destruct Hord as (Hnow & _).
    destruct (applyEffects_gains t0 upto now fx c H) as (_ & H2); [lra..|].
    apply H2, Ht.
  - destruct Hord as (Hn1 & Hord).
    destruct (applyEffects_gains t0 upto n1 f1 c H) as (H1 & _); [lra..|].
    apply (IH n1 (n1 + 0.05) (applyEffects n1 f1 c) H1); [lra|lra|exact Hord|exact Ht].
Qed.

(** *** The impulse response follows the requested decay *)

(** The convolver holds the response made from the cached decay, unless
    the cache is at its reset value. *)
Definition cached (c : EffectsChain) : Prop :=
  lastReverbDecay c = Num (-1)
  \/ exists q, lastReverbDecay c = Num q /\ reverbNode_buffer c = Some (Num q).

Lemma decayChanged_num fx c :
  decayChanged fx c = true -> exists d, reverbDecay fx = Num d.
Proof.
  unfold decayChanged. destruct (reverbDecay fx) as [d|]; [eauto|].
  discriminate.
Qed.

Lemma applyEffects_cached now fx c : cached c -> cached (applyEffects now fx c).
Proof.
  intros H. unfold cached. cbn [applyEffects lastReverbDecay reverbNode_buffer].
  destruct (reverbEnabled fx); [|left; reflexivity].
  destruct (decayChanged fx c) eqn:E; simpl.
  - destruct (decayChanged_num fx c E) as (d & Hd). right. exists d.
    rewrite Hd. split; reflexivity.
  - exact H.
Qed.

Lemma run_cached calls : forall c, cached c -> cached (run calls c).
Proof.
  induction calls as [|[now fx] calls IH]; intros c H; [exact H|].
  apply (IH (applyEffects now fx c)), applyEffects_cached, H.
Qed.

Lemma not_changed_close d l fx c :
  reverbDecay fx = Num d -> lastReverbDecay c = Num l ->
  decayChanged fx c = false -> Qabs (d - l) <= 0.05.
Proof.
  intros Hd Hl. unfold decayChanged. rewrite Hd, Hl. intros E.
  apply (JSFacts.ltb_rep_false (Num 0.05) (JS.abs (Num d - Num l)) 0.05
           (Qabs (d - l))); [reflexivity| |exact E].
  apply JSFacts.rep_abs, JSFacts.rep_sub; reflexivity.
Qed.

(** X14.  Whatever calls came before, once the 50 ms ramps of the latest
    [applyEffects(fx)] have run out every wet and dry gain, and every
    flanger, chorus and delay setting, sits at the value that call asked
    for: wet 0 and dry 1 for a disabled effect, the mix and its complement
    for an enabled flanger or chorus.  The calls are made in order of time,
    none before the chain was constructed. *)
Theorem applyEffects_settles_to_last_call
    (t0 : Q) (calls : list (Q * LayerEffects)) (now : Q) (fx : LayerEffects) :
  inOrder t0 (calls ++ [(now, fx)]) ->
  forall t, now + 0.05 <= t ->
    (fun p => valueAt p t)
      <$> gains (run (calls ++ [(now, fx)]) (Effects.constructor t0))
    = Some <$> targets fx.
Proof.
  intros Hord t Ht.
  apply (run_settles t0 calls now fx t0 t0 _ (constructor_gains t0));
    [lra|lra|exact Hord|exact Ht].
Qed.

Lemma applyEffects_settles_to_last_call_witness :
  inOrder 0 ([(1, EffectsSpec.withReverb true (Num 2))] ++ [(2, defaultEffects)])
  /\ forall t, 2 + 0.05 <= t ->
       (fun p => valueAt p t)
         <$> gains (run ([(1, EffectsSpec.withReverb true (Num 2))]
                         ++ [(2, defaultEffects)]) (Effects.constructor 0))
       = Some <$> targets defaultEffects.
Proof.
  assert (inOrder 0 ([(1, EffectsSpec.withReverb true (Num 2))]
                     ++ [(2, defaultEffects)])) as H.
  { simpl. repeat split; discriminate. }
  split; [exact H|].
  exact (applyEffects_settles_to_last_call 0 _ 2 defaultEffects H).
Defined.

(** X15.  After any run of calls since the constructor, a call with reverb
    enabled and a decay [d] leaves the convolver with the impulse response
    of a decay within 0.05 of [d]: the one just built, or the one kept from
    an earlier call.  The decay must be more than 0.05 away from -1, the
    value the cache is reset to: closer to it, a chain whose reverb was off
    builds nothing. *)
Theorem reverb_response_matches_decay
    (t0 : Q) (calls : list (Q * LayerEffects)) (now : Q) (fx : LayerEffects)
    (d : Q) :
  reverbEnabled fx = true -> reverbDecay fx = Num d -> 0.05 < Qabs (d + 1) ->
  exists d', reverbNode_buffer
               (applyEffects now fx (run calls (Effects.constructor t0)))
             = Some (Num d')
             /\ Qabs (d - d') <= 0.05.
Proof.
  intros Hen Hd Hfar.
  pose proof (run_cached calls (Effects.constructor t0) (or_introl eq_refl)) as Hc.
  set (c := run calls (Effects.constructor t0)) in *.
  cbn [applyEffects reverbNode_buffer]. rewrite Hen. simpl.
  destruct (decayChanged fx c) eqn:E.
  - exists d. rewrite Hd. split; [reflexivity|].
    assert (d - d == 0) as Hz by ring.
    rewrite (Qabs_wd _ _ Hz). discriminate.
  - destruct Hc as [Hl | (l & Hl & Hb)].
    + exfalso. pose proof (not_changed_close d (-1) fx c Hd Hl E) as Hclose.
      assert (d - -1 == d + 1) as Heq by ring. rewrite Heq in Hclose. lra.
    + exists l. split; [exact Hb|].
      exact (not_changed_close d l fx c Hd Hl E).
Qed.

Lemma reverb_response_matches_decay_witness :
  exists d', reverbNode_buffer
               (applyEffects 2 (EffectsSpec.withReverb true (Num 2))
                  (run [(1, EffectsSpec.withReverb true (Num (201 # 100)))]
                     (Effects.constructor 0)))
             = Some (Num d')
             /\ Qabs (2 - d') <= 0.05.
Proof.
  apply (reverb_response_matches_decay 0
           [(1, EffectsSpec.withReverb true (Num (201 # 100)))] 2
           (EffectsSpec.withReverb true (Num 2)) 2);
    [reflexivity|reflexivity|vm_compute; reflexivity].
Defined.

End EffectsExtra.

(** ** The scan head (animationLoop.ts) *)

Module ScanExtra.

Import Types Scheduler JSFacts.
Local Open Scope Q_scope.

Lemma rem_within a b x y :
  rep a x -> rep b y -> 0 <= x -> 0 < y ->
  exists r, rep (a mod b)%js r /\ 0 <= r /\ r < y.
Proof.
  intros Ha Hb Hx Hy. exists (x - y * inject_Z (Qfloor (x / y))).
  split; [apply rep_rem; assumption|].
  pose proof (Qfloor_le (x / y)) as Hlo.
  pose proof (Qlt_floor (x / y)) as Hhi.
  rewrite inject_Z_plus in Hhi. change (inject_Z 1) with 1 in Hhi.
  assert (y * (x / y) == x) as E by (field; lra).
  assert (y * inject_Z (Qfloor (x / y)) <= y * (x / y)) as H1
    by (apply Qmult_le_l; assumption).
  assert (y * (x / y) < y * (inject_Z (Qfloor (x / y)) + 1)) as H2
    by (apply Qmult_lt_l; assumption).
  rewrite E in H1, H2. split; lra.
Qed.

Lemma floor_within a x :
  rep a x -> exists f, rep (JS.floor a) f /\ x - 1 < f /\ f <= x.
Proof.
  intros Ha. exists (inject_Z (Qfloor x)). split; [apply rep_floor, Ha|].
  pose proof (Qfloor_le x). pose proof (Qlt_floor x) as Hhi.
  rewrite inject_Z_plus in Hhi. change (inject_Z 1) with 1 in Hhi.
  split; lra.
Qed.

(** A layer as [addLayer] draws it, with a scan direction. *)
Definition layerAt (dir : ScanDirection) (lx ly w h : Q) : RectLayer :=
  {| id := "layer-1"; x := Num lx; y := Num ly; width := Num w; height := Num h;
     scanX := Num 0; scanPos := Some (Num 0); scanSpeed := Num 60;
     scanDirection := Some dir; volume := Num 0.7; muted := false;
     generatedModeId := None; pixelMode := glide; soundSource := synth;
     oscillatorType := sine; sampleBuffer := None; color := "#00d4ff";
     label := "Layer 1"; selected := false; effects := defaultEffects;
     paramOverrides := Some ∅; pitchSemitones := Some (Num 0) |}.

Lemma centre_x (lx w : Q) :
  1 <= w ->
  exists ax, rep (JS.floor (Num lx + Num w / Num 2))%js ax
             /\ lx - 1 < ax /\ ax < lx + w.
Proof.
  intros w1.
  destruct (floor_within (Num lx + Num w / Num 2)%js (lx + w / 2))
    as (f & Hf & B1 & B2).
  { apply rep_add; [apply rep_Num|].
    apply rep_div; [apply rep_Num|apply rep_Num|discriminate]. }
  exists f. split; [exact Hf|].
  assert (w / 2 == w * (1 # 2)) as E by field. rewrite E in B1, B2.
  split; lra.
Qed.

Lemma centre_y (ly h : Q) :
  1 <= h ->
  exists ay, rep (JS.floor (Num ly + Num h / Num 2))%js ay
             /\ ly - 1 < ay /\ ay <= ly + h.
Proof.
  intros h1.
  destruct (floor_within (Num ly + Num h / Num 2)%js (ly + h / 2))
    as (f & Hf & B1 & B2).
  { apply rep_add; [apply rep_Num|].
    apply rep_div; [apply rep_Num|apply rep_Num|discriminate]. }
  exists f. split; [exact Hf|].
  assert (h / 2 == h * (1 # 2)) as E by field. rewrite E in B1, B2.
  split; lra.
Qed.

(** The position after a step along an extent of [m] pixels. *)
Lemma step_pos (p v d : Q) (m : num) (mq : Q) :
  0 <= p -> 0 <= v * d -> rep m mq -> 1 <= mq ->
  exists pos, rep ((Num p + Num v * Num d / JS.max m (Num 1)) mod Num 1)%js pos
              /\ 0 <= pos /\ pos < 1.
Proof.
  intros p0 vd0 Hm Hm1.
  assert (Qmax mq 1 == mq) as EM by (apply Q.max_l; exact Hm1).
  apply (rem_within _ (Num 1) (p + v * d / Qmax mq 1) 1).
  - apply rep_add; [apply rep_Num|].
    apply rep_div; [apply rep_mul; apply rep_Num
                   |apply rep_max; [exact Hm|apply rep_Num]|].
    rewrite EM. lra.
  - apply rep_Num.
  - assert (0 <= v * d / Qmax mq 1).
    { apply Qle_shift_div_l; [rewrite EM; lra|]. lra. }
    lra.
  - reflexivity.
Qed.

Lemma scaled_within pos (e lo : Q) (a : num) :
  rep a pos -> 0 <= pos -> pos <= 1 -> 1 <= e ->
  exists f, rep (JS.floor (Num lo + a * Num e))%js f
            /\ lo - 1 < f /\ f <= lo + pos * e.
Proof.
  intros Ha P0 P1 He.
  destruct (floor_within (Num lo + a * Num e)%js (lo + pos * e))
    as (f & Hf & B1 & B2).
  { apply rep_add; [apply rep_Num|]. apply rep_mul; [exact Ha|apply rep_Num]. }
  exists f. split; [exact Hf|].
  assert (0 <= pos * e) by (apply Qmult_le_0_compat; lra).
  split; lra.
Qed.




End ScanExtra.

(** ** The store's actions and the save file *)

Module StoreExtra.

Import Types Scheduler Store.

(** A layer that has every field of the current [RectLayer]. *)
Definition complete (l : RectLayer) : Prop :=
  is_Some (scanPos l) /\ is_Some (scanDirection l)
  /\ is_Some (paramOverrides l) /\ is_Some (pitchSemitones l).

(** No sample attached and not marked as selected: the two fields a save
    file does not hold. *)
Definition plain (l : RectLayer) : Prop :=
  sampleBuffer l = None /\ selected l = false.

Definition ids (state : SonimageState) : list string := id <$> layers state.

(** [selectedLayerId] is null or the id of a layer of the store. *)
Definition selectionValid (state : SonimageState) : Prop :=
  forall i, selectedLayerId state = Some i -> i ∈ ids state.

Definition store0 (layers : list RectLayer) (sel : option string) : SonimageState :=
  {| imageNaturalWidth := 0; imageNaturalHeight := 0; cachedPixelData := None;
     imageProfile := None; rootOverride := None; scaleOverride := None;
     layers := layers; selectedLayerId := sel; isPlaying := false;
     isRecording := false; masterVolume := Num 0.8 |}.

Definition named (i : string) (l : RectLayer) : RectLayer :=
  {| id := i; x := x l; y := y l; width := width l; height := height l;
     scanX := scanX l; scanPos := scanPos l; scanSpeed := scanSpeed l;
     scanDirection := scanDirection l; volume := volume l; muted := muted l;
     generatedModeId := generatedModeId l; pixelMode := pixelMode l;
     soundSource := soundSource l; oscillatorType := oscillatorType l;
     sampleBuffer := sampleBuffer l; color := color l; label := label l;
     selected := selected l; effects := effects l;
     paramOverrides := paramOverrides l; pitchSemitones := pitchSemitones l |}.

Definition layerA : RectLayer := named "a" (ScanExtra.layerAt horizontal 0 0 100 50).
Definition layerB : RectLayer := named "b" (ScanExtra.layerAt vertical 10 10 30 40).

Lemma serialize_load_serialize l :
  serializeLayer (loadLayer (serializeLayer l)) = serializeLayer l.
Proof. reflexivity. Qed.

Lemma loadLayer_plain s : plain (loadLayer s) /\ complete (loadLayer s).
Proof. unfold plain, complete. simpl. repeat split; eauto. Qed.

Lemma load_serialize l : complete l -> plain l -> loadLayer (serializeLayer l) = l.
Proof.
  intros ((? & H1) & (? & H2) & (? & H3) & (? & H4)) (H5 & H6).
  destruct l; simpl in *; subst. reflexivity.
Qed.

Lemma fmap_id_on {A : Type} (f : A -> A) (l : list A) :
  Forall (fun a => f a = a) l -> f <$> l = l.
Proof.
  induction 1 as [|a l Ha _ IH]; [reflexivity|].
  cbn [fmap list_fmap]. rewrite Ha. f_equal. exact IH.
Qed.

(** *** The write-back of a frame and an edit made meanwhile *)

Lemma writeBack_mapLayers u f state :
  (forall l, writeBackLayer u (f l) = f (writeBackLayer u l)) ->
  writeBack u (mapLayers f state) = mapLayers f (writeBack u state).
Proof.
  intros H. unfold writeBack, mapLayers. simpl. f_equal.
  rewrite <- !list_fmap_compose. apply list_fmap_ext. intros _ l _. apply H.
Qed.

Lemma writeBackLayer_id u l : id (writeBackLayer u l) = id l.
Proof. unfold writeBackLayer. destruct (u !! id l); reflexivity. Qed.

Ltac through_writeBack :=
  intros l; unfold onLayer, writeBackLayer; simpl;
  destruct (_ !! id l) eqn:E; simpl;
  destruct (bool_decide _); simpl; rewrite ?E; reflexivity.

Lemma writeBack_toggleMute u i state :
  writeBack u (toggleMute i state) = toggleMute i (writeBack u state).
Proof. apply writeBack_mapLayers. through_writeBack. Qed.

Lemma writeBack_setGeneratedMode u i m state :
  writeBack u (setGeneratedMode i m state) = setGeneratedMode i m (writeBack u state).
Proof. apply writeBack_mapLayers. through_writeBack. Qed.

Lemma writeBack_setParamOverride u i p state :
  writeBack u (setParamOverride i p state) = setParamOverride i p (writeBack u state).
Proof. apply writeBack_mapLayers. through_writeBack. Qed.

Lemma writeBack_selectLayer u sel state :
  writeBack u (selectLayer sel state) = selectLayer sel (writeBack u state).
Proof.
  unfold writeBack, selectLayer. simpl. f_equal.
  rewrite <- !list_fmap_compose. apply list_fmap_ext. intros _ l _. simpl.
  unfold writeBackLayer. simpl. destruct (u !! id l); reflexivity.
Qed.

Lemma writeBack_removeLayer u i state :
  writeBack u (removeLayer i state) = removeLayer i (writeBack u state).
Proof.
  unfold writeBack, removeLayer. simpl. f_equal.
  induction (layers state) as [|l ls IH]; [reflexivity|].
  rewrite fmap_cons, !filter_cons, writeBackLayer_id.
  destruct (decide (id l <> i)); [rewrite fmap_cons; f_equal|]; exact IH.
Qed.

Lemma frame_through (anm : gset string) delta read (act : SonimageState -> SonimageState)
    state :
  (forall u, writeBack u (act state) = act (writeBack u state)) ->
  frame anm delta read (act state) = act (frame anm delta read state).
Proof.
  intros H. unfold frame. destruct (_ && _); [apply H|reflexivity].
Qed.

(** *** Removing a layer *)

Lemma ids_filter i (ls : list RectLayer) :
  id <$> filter (fun l => id l <> i) ls = filter (fun j => j <> i) (id <$> ls).
Proof.
  induction ls as [|l ls IH]; [reflexivity|].
  rewrite fmap_cons, !filter_cons.
  destruct (decide (id l <> i)); [rewrite fmap_cons; f_equal|]; exact IH.
Qed.

Lemma filter_absent i (ls : list RectLayer) :
  i ∉ id <$> ls -> filter (fun l => id l <> i) ls = ls.
Proof.
  induction ls as [|l ls IH]; intros H; [reflexivity|].
  rewrite fmap_cons, not_elem_of_cons in H. destruct H as [H1 H2].
  rewrite filter_cons_True by congruence. f_equal. apply IH, H2.
Qed.

Lemma filter_one i (ls : list RectLayer) :
  NoDup (id <$> ls) -> i ∈ id <$> ls ->
  S (length (filter (fun l => id l <> i) ls)) = length ls.
Proof.
  induction ls as [|l ls IH]; intros Hnd Hin.
  - inversion Hin.
  - rewrite fmap_cons in Hnd, Hin. apply NoDup_cons in Hnd as [Hl Hnd].
    destruct (decide (id l = i)) as [He|Hne].
    + rewrite filter_cons_False by (intros H; apply H, He).
      rewrite filter_absent by (rewrite <- He; exact Hl). reflexivity.
    + rewrite filter_cons_True by exact Hne. simpl. f_equal.
      apply IH; [exact Hnd|].
      apply elem_of_cons in Hin as [Hin|Hin]; [congruence|exact Hin].
Qed.

(** *** Edits made one after the other *)

Lemma mapLayers_mapLayers f g state :
  mapLayers f (mapLayers g state) = mapLayers (fun l => f (g l)) state.
Proof.
  unfold mapLayers. simpl. f_equal. rewrite <- list_fmap_compose. reflexivity.
Qed.

Lemma mapLayers_ext f g state :
  (forall l, f l = g l) -> mapLayers f state = mapLayers g state.
Proof.
  intros H. unfold mapLayers. f_equal. apply list_fmap_ext. intros _ l _. apply H.
Qed.

Lemma mapLayers_id f state : (forall l, f l = l) -> mapLayers f state = state.
Proof.
  intros H. unfold mapLayers. rewrite fmap_id_on.
  - destruct state; reflexivity.
  - apply Forall_forall. intros l _. apply H.
Qed.

(** X17.  Loading what [serializeComposition] wrote loses nothing that is
    saved: serializing the loaded layers again gives the same save file.
    Every loaded layer has no sample buffer, is not selected and has every
    optional field filled in; the store ends with no selection, not
    playing and without an image profile. *)
Theorem load_keeps_what_was_saved
    (imageDataUrl : string) (ls : list RectLayer) (state : SonimageState) :
  let state' := loadSaveFile (serializeComposition imageDataUrl ls) state in
  serializeComposition imageDataUrl (layers state')
  = serializeComposition imageDataUrl ls
  /\ length (layers state') = length ls
  /\ Forall (fun l => plain l /\ complete l) (layers state')
  /\ selectedLayerId state' = None /\ isPlaying state' = false
  /\ imageProfile state' = None.
Proof.
  simpl. split; [|split; [|split]].
  - unfold serializeComposition. f_equal.
    rewrite <- !list_fmap_compose. apply list_fmap_ext. intros _ l _.
    apply serialize_load_serialize.
  - rewrite !length_fmap. reflexivity.
  - rewrite <- list_fmap_compose. apply Forall_fmap, Forall_forall.
    intros l _. apply loadLayer_plain.
  - repeat split.
Qed.

(** X18.  Layers that have every field, no sample buffer and are not
    marked as selected come back from a save and a load exactly as they
    were, in the same order. *)
Theorem save_load_round_trip
    (imageDataUrl : string) (ls : list RectLayer) (state : SonimageState) :
  Forall (fun l => complete l /\ plain l) ls ->
  layers (loadSaveFile (serializeComposition imageDataUrl ls) state) = ls.
Proof.
  intros H. simpl. rewrite <- list_fmap_compose. apply fmap_id_on.
  eapply Forall_impl; [exact H|]. intros l [Hc Hp]. apply load_serialize; assumption.
Qed.

Lemma save_load_round_trip_witness :
  layers (loadSaveFile (serializeComposition "data:image/png;base64,"
                          [layerA; layerB])
            (store0 [] None))
  = [layerA; layerB].
Proof.
  apply save_load_round_trip.
  repeat (apply List.Forall_cons;
          [unfold complete, plain; simpl; repeat split; eauto|]).
  apply List.Forall_nil.
Defined.

(** X19.  An edit the user makes between the frame's read of the store
    and its write-back is not lost: for [toggleMute], [setGeneratedMode],
    [setParamOverride], [selectLayer] and [removeLayer], the frame run on
    the edited store gives the store the edit gives after the frame. *)
Theorem frame_commutes_with_edits
    (audioNodeMap : gset string) (delta : num) (read state : SonimageState)
    (layerId modeId : string) (patch : gmap string num) (sel : option string) :
  let frame := frame audioNodeMap delta read in
  frame (toggleMute layerId state) = toggleMute layerId (frame state)
  /\ frame (setGeneratedMode layerId modeId state)
     = setGeneratedMode layerId modeId (frame state)
  /\ frame (setParamOverride layerId patch state)
     = setParamOverride layerId patch (frame state)
  /\ frame (selectLayer sel state) = selectLayer sel (frame state)
  /\ frame (removeLayer layerId state) = removeLayer layerId (frame state).
Proof.
  cbv zeta. repeat split.
  - apply (frame_through _ _ _ (toggleMute layerId)).
    intros u. apply writeBack_toggleMute.
  - apply (frame_through _ _ _ (setGeneratedMode layerId modeId)).
    intros u. apply writeBack_setGeneratedMode.
  - apply (frame_through _ _ _ (setParamOverride layerId patch)).
    intros u. apply writeBack_setParamOverride.
  - apply (frame_through _ _ _ (selectLayer sel)).
    intros u. apply writeBack_selectLayer.
  - apply (frame_through _ _ _ (removeLayer layerId)).
    intros u. apply writeBack_removeLayer.
Qed.

(** X20.  In a store whose layers have distinct ids and whose selection,
    if any, names one of them, [removeLayer(id)] keeps both properties,
    leaves no layer with that id, keeps every other layer (in order), and
    removes exactly one layer when the id was there and nothing, not even
    the selection, when it was not. *)
Theorem removeLayer_keeps_store_consistent (layerId : string) (state : SonimageState) :
  NoDup (ids state) -> selectionValid state ->
  let state' := removeLayer layerId state in
  (layerId ∉ ids state')
  /\ NoDup (ids state') /\ selectionValid state'
  /\ layers state' = filter (fun l => id l <> layerId) (layers state)
  /\ (layerId ∈ ids state -> S (length (layers state')) = length (layers state))
  /\ (layerId ∉ ids state -> state' = state).
Proof.
  intros Hnd Hsel. cbv zeta. unfold selectionValid, ids in *.
  cbn [removeLayer layers selectedLayerId].
  split; [|split; [|split; [|split; [|split]]]].
  - rewrite (ids_filter layerId (layers state)). intros H.
    apply list_elem_of_filter in H as [H _].
    apply H. reflexivity.
  - rewrite (ids_filter layerId (layers state)). apply NoDup_filter, Hnd.
  - intros i Hi. rewrite (ids_filter layerId (layers state)).
    apply list_elem_of_filter.
    destruct (bool_decide (selectedLayerId state = Some layerId)) eqn:E;
      [discriminate Hi|].
    apply bool_decide_eq_false in E. split; [congruence|]. apply Hsel, Hi.
  - reflexivity.
  - intros Hin. apply filter_one; assumption.
  - intros Hout. unfold removeLayer. rewrite filter_absent by exact Hout.
    rewrite bool_decide_eq_false_2.
    + destruct state; reflexivity.
    + intros H. apply Hout, Hsel, H.
Qed.

Lemma removeLayer_keeps_store_consistent_witness :
  let state' := removeLayer "a" (store0 [layerA; layerB] (Some "a")) in
  ("a" ∉ ids state')
  /\ NoDup (ids state') /\ selectionValid state'
  /\ layers state' = [layerB]
  /\ selectedLayerId state' = None.
Proof.
  assert (NoDup (ids (store0 [layerA; layerB] (Some "a")))) as Hnd.
  { apply (bool_decide_unpack _). vm_compute. exact I. }
  assert (selectionValid (store0 [layerA; layerB] (Some "a"))) as Hsel.
  { intros i [= <-]. apply (bool_decide_unpack _). vm_compute. exact I. }
  destruct (removeLayer_keeps_store_consistent "a" _ Hnd Hsel)
    as (H1 & H2 & H3 & _).
  cbv zeta. repeat split; assumption.
Defined.

(** X21.  How edits of one layer compose: muting twice restores the store
    exactly; of two [selectLayer] or two [setGeneratedMode] calls the
    later one wins; an empty [setParamOverride] patch clears the overrides
    whatever was set before; and two non-empty patches act as their union,
    the later patch winning on the keys they share. *)
Theorem edits_compose
    (state : SonimageState) (layerId m1 m2 : string) (a b : option string)
    (p1 p2 : gmap string num) :
  toggleMute layerId (toggleMute layerId state) = state
  /\ selectLayer b (selectLayer a state) = selectLayer b state
  /\ setGeneratedMode layerId m2 (setGeneratedMode layerId m1 state)
     = setGeneratedMode layerId m2 state
  /\ setParamOverride layerId ∅ (setParamOverride layerId p1 state)
     = setParamOverride layerId ∅ state
  /\ (p1 <> ∅ -> p2 <> ∅ ->
      setParamOverride layerId p2 (setParamOverride layerId p1 state)
      = setParamOverride layerId (p2 ∪ p1) state).
Proof.
  split; [|split; [|split; [|split]]].
  - unfold toggleMute. rewrite mapLayers_mapLayers. apply mapLayers_id.
    intros l. unfold onLayer. destruct (bool_decide (id l = layerId)) eqn:E; simpl.
    + rewrite E. destruct l; simpl. rewrite negb_involutive. reflexivity.
    + rewrite E. reflexivity.
  - unfold selectLayer. simpl. f_equal.
    rewrite <- list_fmap_compose. apply list_fmap_ext. intros _ l _. reflexivity.
  - unfold setGeneratedMode. rewrite mapLayers_mapLayers. apply mapLayers_ext.
    intros l. unfold onLayer. destruct (bool_decide (id l = layerId)) eqn:E; simpl;
      rewrite E; reflexivity.
  - unfold setParamOverride. rewrite mapLayers_mapLayers. apply mapLayers_ext.
    intros l. unfold onLayer. destruct (bool_decide (id l = layerId)) eqn:E; simpl;
      rewrite E; reflexivity.
  - intros H1 H2. unfold setParamOverride. rewrite mapLayers_mapLayers.
    apply mapLayers_ext.
    intros l. unfold onLayer. destruct (bool_decide (id l = layerId)) eqn:E; simpl;
      rewrite E; [|reflexivity].
    rewrite !bool_decide_eq_false_2
      by first [assumption | apply map_positive_l_alt; assumption].
    rewrite (assoc_L (∪)). reflexivity.
Qed.

End StoreExtra.

(** ** More on the layer node (AudioLayerNode.ts) *)

Module LayerNodeExtra.

Import WebAudio LayerNode Smoothing JSFacts.
Local Open Scope Q_scope.

(** *** Retuning the oscillator bank *)

Lemma near_self (f : num) : (JS.abs (f - f) >? Num 0.5)%js = false.
Proof.
  destruct f as [q|]; [|reflexivity].
  apply (ltb_rep_false (Num 0.5) (JS.abs (Num q - Num q)) 0.5 (Qabs (q - q))).
  - reflexivity.
  - apply rep_abs, rep_sub; reflexivity.
  - assert (q - q == 0) as E by ring. rewrite (Qabs_wd _ _ E). discriminate.
Qed.

Lemma retune_retune now now' profile i osc last :
  let r := retune now profile i osc last in
  retune now' profile i (fst r) (snd r) = r.
Proof.
  cbv zeta. unfold retune.
  destruct (JS.abs (last - _) >? Num 0.5)%js eqn:E; cbn [fst snd].
  - rewrite near_self. reflexivity.
  - rewrite E. reflexivity.
Qed.

Lemma retune_near now profile i osc last l f :
  snd (retune now profile i osc last) = Num l ->
  Frequency.binToFrequency (JS.of_nat i) (JS.of_nat NUM_BINS) (Some profile) = Num f ->
  Qabs (l - f) <= 0.5.
Proof.
  unfold retune. intros Hl Hf. rewrite Hf in *.
  destruct (JS.abs (last - Num f) >? Num 0.5)%js eqn:E; cbn [snd] in Hl.
  - injection Hl as <-. assert (f - f == 0) as Z by ring.
    rewrite (Qabs_wd _ _ Z). discriminate.
  - subst last.
    apply (ltb_rep_false (Num 0.5) (JS.abs (Num l - Num f)) 0.5 (Qabs (l - f)));
      [reflexivity|apply rep_abs, rep_sub; reflexivity|exact E].
Qed.

(** *** The dominant oscillator type *)

(** The weight of a type in [ModeParams.oscillatorType]. *)
Definition weight (w : ModeParams.OscillatorWeighting) (t : Types.OscillatorType)
  : num :=
  match t with
  | Types.sine => ModeParams.sine w
  | Types.triangle => ModeParams.triangle w
  | Types.sawtooth => ModeParams.sawtooth w
  | Types.square => ModeParams.square w
  end.

(** The place of a type among the keys of the object. *)
Definition keyOrder (t : Types.OscillatorType) : nat :=
  match t with
  | Types.sine => 0 | Types.triangle => 1 | Types.sawtooth => 2 | Types.square => 3
  end.

(** *** Slewing *)

Lemma rep_sign a x :
  rep a x ->
  rep (sign a) (if Qlt_le_dec 0 x then 1 else if Qlt_le_dec x 0 then -1 else 0).
Proof.
  destruct a as [q|]; simpl; [|tauto]. intros Hq.
  destruct (Qlt_le_dec 0 x) as [H|H].
  - assert (JS.Qltb 0 q = true) as -> by (apply WebAudioSpec.Qltb_true; lra).
    reflexivity.
  - assert (JS.Qltb 0 q = false) as -> by (apply WebAudioSpec.Qltb_false; lra).
    destruct (Qlt_le_dec x 0) as [H'|H'].
    + assert (JS.Qltb q 0 = true) as -> by (apply WebAudioSpec.Qltb_true; lra).
      reflexivity.
    + assert (JS.Qltb q 0 = false) as -> by (apply WebAudioSpec.Qltb_false; lra).
      reflexivity.
Qed.

(** The value [slew] moves to, as a rational. *)
Definition slewQ (c t m : Q) : Q :=
  if Qlt_le_dec (Qabs (t - c)) m then t
  else if Qlt_le_dec 0 (t - c) then c + m
  else if Qlt_le_dec (t - c) 0 then c - m
  else c.

Lemma slew_rep a c t r dt :
  rep a c -> rep (slew a (Num t) (Num r) (Num dt)) (slewQ c t (r * dt)).
Proof.
  intros Ha. unfold slew, slewQ.
  assert (rep (Num t - a)%js (t - c)) as Hd by (apply rep_sub; [reflexivity|exact Ha]).
  assert (rep (Num r * Num dt)%js (r * dt)) as Hm by (apply rep_mul; reflexivity).
  destruct (Qlt_le_dec (Qabs (t - c)) (r * dt)) as [H|H].
  - assert ((JS.abs (Num t - a) <? Num r * Num dt)%js = true) as ->.
    { apply (ltb_rep _ _ (Qabs (t - c)) (r * dt)); [apply rep_abs, Hd|exact Hm|exact H]. }
    reflexivity.
  - assert ((JS.abs (Num t - a) <? Num r * Num dt)%js = false) as ->.
    { apply (ltb_rep_false _ _ (Qabs (t - c)) (r * dt));
        [apply rep_abs, Hd|exact Hm|exact H]. }
    pose proof (rep_add _ _ _ _ Ha (rep_mul _ _ _ _ (rep_sign _ _ Hd) Hm)) as R.
    eapply rep_eq; [exact R|].
    destruct (Qlt_le_dec 0 (t - c)); [ring|].
    destruct (Qlt_le_dec (t - c) 0); ring.
Qed.

Lemma Qabs_cases x : (0 <= x /\ Qabs x == x) \/ (x < 0 /\ Qabs x == - x).
Proof.
  destruct (Qlt_le_dec x 0) as [H|H].
  - right. split; [exact H|]. apply Qabs_neg. lra.
  - left. split; [exact H|]. apply Qabs_pos. exact H.
Qed.

(** One step with a positive [maxDelta]: the value stays between where it
    was and the target, and its distance to the target shrinks by
    [maxDelta], or it is at the target. *)
Lemma slewQ_step c t m :
  0 < m ->
  Qmin c t <= slewQ c t m /\ slewQ c t m <= Qmax c t
  /\ ((Qabs (t - c) < m /\ slewQ c t m == t)
      \/ (m <= Qabs (t - c)
          /\ Qabs (t - slewQ c t m) == Qabs (t - c) - m)).
Proof.
  intros Hm. unfold slewQ.
  pose proof (Q.le_min_l c t) as M1. pose proof (Q.le_min_r c t) as M2.
  pose proof (Q.le_max_l c t) as M3. pose proof (Q.le_max_r c t) as M4.
  destruct (Qabs_cases (t - c)) as [[S A]|[S A]];
    destruct (Qlt_le_dec (Qabs (t - c)) m) as [H|H].
  - split; [lra|]. split; [lra|]. left. split; [exact H|reflexivity].
  - destruct (Qlt_le_dec 0 (t - c)) as [P|P]; [|lra].
    split; [lra|]. split; [lra|]. right. split; [exact H|].
    rewrite Qabs_pos by lra. lra.
  - split; [lra|]. split; [lra|]. left. split; [exact H|reflexivity].
  - destruct (Qlt_le_dec 0 (t - c)) as [P|P]; [lra|].
    destruct (Qlt_le_dec (t - c) 0) as [N|N]; [|lra].
    split; [lra|]. split; [lra|]. right. split; [exact H|].
    rewrite Qabs_neg by lra. lra.
Qed.

(** [n] calls of [slew] towards the same target. *)
Definition slews (n : nat) (current target maxRate dt : num) : num :=
  Nat.iter n (fun a => slew a target maxRate dt) current.

Lemma slews_S n a t r dt : slews (S n) a t r dt = slews n (slew a t r dt) t r dt.
Proof. unfold slews. rewrite Nat.iter_succ_r. reflexivity. Qed.


(** X23.  When the four weights are numbers, [dominantOscType] returns a
    type of maximal weight, and among the types of that weight the first
    in the order of the object's keys: sine, triangle, sawtooth, square. *)
Theorem dominantOscType_is_heaviest (w : ModeParams.OscillatorWeighting) :
  (forall t, JS.is_num (weight w t) = true) ->
  forall t,
    JS.le (weight w t) (weight w (dominantOscType w))
    /\ (JS.same (weight w t) (weight w (dominantOscType w)) ->
        (keyOrder (dominantOscType w) <= keyOrder t)%nat).
Proof.
  intros Hnum.
  pose proof (Hnum Types.sine) as H1. pose proof (Hnum Types.triangle) as H2.
  pose proof (Hnum Types.sawtooth) as H3. pose proof (Hnum Types.square) as H4.
  destruct w as [a b c d]. simpl in H1, H2, H3, H4.
  destruct a as [a|], b as [b|], c as [c|], d as [d|]; try discriminate.
  unfold dominantOscType. cbn [ModeParams.sine ModeParams.triangle
    ModeParams.sawtooth ModeParams.square tail foldl snd].
  unfold JS.gtb, JS.ltb.
  destruct (JS.Qltb a b) eqn:E1; cbn [snd];
    [apply WebAudioSpec.Qltb_true in E1|apply WebAudioSpec.Qltb_false in E1];
    (destruct (JS.Qltb _ c) eqn:E2; cbn [snd];
     [apply WebAudioSpec.Qltb_true in E2|apply WebAudioSpec.Qltb_false in E2]);
    (destruct (JS.Qltb _ d) eqn:E3; cbn [snd fst];
     [apply WebAudioSpec.Qltb_true in E3|apply WebAudioSpec.Qltb_false in E3]);
    intros [| | |]; simpl; split; try lra; intros; first [lia | lra].
Qed.

Lemma dominantOscType_is_heaviest_witness :
  let w := {| ModeParams.sine := Num 0.2; ModeParams.triangle := Num 0.4;
              ModeParams.sawtooth := Num 0.4; ModeParams.square := Num 0.1 |} in
  JS.le (weight w Types.sawtooth) (weight w (dominantOscType w))
  /\ (JS.same (weight w Types.sawtooth) (weight w (dominantOscType w)) ->
      (keyOrder (dominantOscType w) <= keyOrder Types.sawtooth)%nat).
Proof.
  cbv zeta.
  apply (dominantOscType_is_heaviest
           {| ModeParams.sine := Num 0.2; ModeParams.triangle := Num 0.4;
              ModeParams.sawtooth := Num 0.4; ModeParams.square := Num 0.1 |}).
  intros [| | |]; reflexivity.
Defined.

(** X24.  With a positive step [maxRate * dt], repeated [slew] never
    overshoots: after any number of calls the value lies between where it
    started and the target; and it arrives: once [n] steps cover the
    distance, the value after [n] calls is the target (in exact
    arithmetic). *)
Theorem slew_reaches_target (n : nat) (a : num) (c t r dt : Q) :
  rep a c -> 0 < r * dt ->
  exists s, rep (slews n a (Num t) (Num r) (Num dt)) s
            /\ Qmin c t <= s /\ s <= Qmax c t
            /\ (Qabs (t - c) <= inject_Z (Z.of_nat n) * (r * dt) -> s == t).
Proof.
  revert a c. induction n as [|n IH]; intros a c Ha Hm.
  - exists c. split; [exact Ha|].
    split; [apply Q.le_min_l|]. split; [apply Q.le_max_l|].
    change (inject_Z (Z.of_nat 0)) with 0. intros H.
    destruct (Qabs_cases (t - c)) as [[S A]|[S A]]; lra.
  - rewrite slews_S.
    pose proof (slew_rep a c t r dt Ha) as H1.
    destruct (slewQ_step c t (r * dt) Hm) as (B1 & B2 & Hcase).
    destruct (IH _ _ H1 Hm) as (s & Hs & S1 & S2 & S3).
    exists s. split; [exact Hs|].
    pose proof (Q.le_min_l c t). pose proof (Q.le_min_r c t).
    pose proof (Q.le_max_l c t). pose proof (Q.le_max_r c t).
    assert (Qmin c t <= Qmin (slewQ c t (r * dt)) t) by (apply Q.min_glb; lra).
    assert (Qmax (slewQ c t (r * dt)) t <= Qmax c t) by (apply Q.max_lub; lra).
    split; [lra|]. split; [lra|].
    intros Hn. apply S3.
    rewrite Nat2Z.inj_succ, <- Z.add_1_r, inject_Z_plus in Hn.
    change (inject_Z 1) with 1 in Hn.
    destruct Hcase as [[_ E]|[_ E]].
    + assert (t - slewQ c t (r * dt) == 0) as Z by (rewrite E; ring).
      rewrite (Qabs_wd _ _ Z). change (Qabs 0) with 0.
      apply Qmult_le_0_compat; [|lra].
      change 0 with (inject_Z 0). rewrite <- Zle_Qle. lia.
    + rewrite E. lra.
Qed.

Lemma slew_reaches_target_witness :
  exists s, rep (slews 4 (Num 0) (Num 1) (Num 20) (Num (1 # 60))) s
            /\ Qmin 0 1 <= s /\ s <= Qmax 0 1
            /\ (Qabs (1 - 0) <= inject_Z (Z.of_nat 4) * (20 * (1 # 60)) -> s == 1).
Proof.
  apply (slew_reaches_target 4 (Num 0) 0 1 20 (1 # 60)); reflexivity.
Defined.

(** X25.  [slewBins] moves every bin as [slew] moves a single value: for
    bins and targets that are numbers, and any rate and frame time, bin
    [i] after [slewBins(current, target, rate, dt)] is
    [slew(current[i], target[i], rate, dt)]. *)
Theorem slewBins_is_slew_per_bin
    (current target : list num) (r dt : Q) (i : nat) (c t : Q) :
  current !! i = Some (Num c) -> target !! i = Some (Num t) ->
  exists a, slewBins current target (Num r) (Num dt) !! i = Some a
            /\ JS.same a (slew (Num c) (Num t) (Num r) (Num dt)).
Proof.
  intros Hc Ht. unfold slewBins. rewrite list_lookup_imap, Hc.
  cbn [fmap option_fmap option_map]. eexists. split; [reflexivity|].
  apply (rep_same _ _ (slewQ c t (r * dt))); [|apply slew_rep; reflexivity].
  unfold JS.index. rewrite Ht.
  assert (rep (Num t - Num c)%js (t - c)) as Hd by (apply rep_sub; reflexivity).
  assert (rep (Num r * Num dt)%js (r * dt)) as Hm by (apply rep_mul; reflexivity).
  pose proof (rep_add _ _ _ _ (rep_Num c)
                (rep_mul _ _ _ _ (rep_sign _ _ Hd)
                   (rep_min _ _ _ _ (rep_abs _ _ Hd) Hm))) as R.
  eapply rep_eq; [exact R|].
  unfold slewQ.
  destruct (Qabs_cases (t - c)) as [[S A]|[S A]];
    destruct (Qlt_le_dec (Qabs (t - c)) (r * dt)) as [H|H].
  - rewrite Q.min_l by lra.
    destruct (Qlt_le_dec 0 (t - c)); [lra|].
    destruct (Qlt_le_dec (t - c) 0); lra.
  - rewrite Q.min_r by lra.
    destruct (Qlt_le_dec 0 (t - c)); [ring|].
    destruct (Qlt_le_dec (t - c) 0); ring.
  - rewrite Q.min_l by lra.
    destruct (Qlt_le_dec 0 (t - c)); [lra|].
    destruct (Qlt_le_dec (t - c) 0); lra.
  - rewrite Q.min_r by lra.
    destruct (Qlt_le_dec 0 (t - c)); [ring|].
    destruct (Qlt_le_dec (t - c) 0); ring.
Qed.

Lemma slewBins_is_slew_per_bin_witness :
  exists a, slewBins [Num 0; Num 1] [Num 1; Num 0] (Num 20) (Num (1 # 60)) !! 1%nat
            = Some a
            /\ JS.same a (slew (Num 1) (Num 0) (Num 20) (Num (1 # 60))).
Proof.
  apply (slewBins_is_slew_per_bin [Num 0; Num 1] [Num 1; Num 0] 20 (1 # 60) 1 1 0);
    reflexivity.
Defined.

End LayerNodeExtra.

(** ** Hue, saturation and lightness (colorUtils.ts) *)

Module ColorExtra.

Import ColorUtils JSFacts.
Local Open Scope Q_scope.

Lemma eqb_rep_false a b x y : rep a x -> rep b y -> (a =? b)%js = false -> ~ x == y.
Proof.
  intros Ha Hb E H. apply (eqb_rep a b x y Ha Hb) in H. congruence.
Qed.

Lemma quotient_within (n d lo hi : Q) :
  0 < d -> lo * d <= n -> n <= hi * d -> lo <= n / d /\ n / d <= hi.
Proof.
  intros Hd H1 H2. split.
  - apply Qle_shift_div_l; assumption.
  - apply Qle_shift_div_r; assumption.
Qed.

Lemma channel_rep (a : num) (q : Q) :
  rep a q -> 0 <= q -> q <= 255 ->
  rep (a / Num 255)%js (q / 255) /\ 0 <= q / 255 /\ q / 255 <= 1.
Proof.
  intros Ha H0 H1. split.
  - apply rep_div; [exact Ha|reflexivity|discriminate].
  - apply quotient_within; lra.
Qed.



End ColorExtra.

(** ** The distortion curve (EffectsChain) *)

Module CurveExtra.

Import Curve JSFacts.
Local Open Scope Q_scope.

(** Where sample [i] sits in [-1, 1), and the value of the curve there. *)
Definition position (i : nat) : Q := inject_Z (Z.of_nat i) * 2 / 256 - 1.

Definition shape (PI k x : Q) : Q := ((PI + k) * x) / (PI + k * Qabs x).

Lemma shape_den PI k x : 0 < PI -> 0 <= k -> 0 < PI + k * Qabs x.
Proof.
  intros HP Hk. pose proof (Qabs_nonneg x).
  assert (0 <= k * Qabs x) by (apply Qmult_le_0_compat; assumption). lra.
Qed.

Lemma cross_sign x y : x < y -> x * Qabs y - y * Qabs x <= 0.
Proof.
  intros H.
  destruct (LayerNodeExtra.Qabs_cases x) as [[X A]|[X A]];
    destruct (LayerNodeExtra.Qabs_cases y) as [[Y B]|[Y B]]; rewrite A, B.
  - assert (x * y - y * x == 0) as -> by ring. lra.
  - lra.
  - assert (x * y - y * - x == 2 * (x * y)) as -> by ring.
    assert (0 <= (- x) * y) by (apply Qmult_le_0_compat; lra).
    assert (- x * y == - (x * y)) as E by ring. rewrite E in *. lra.
  - assert (x * - y - y * - x == 0) as -> by ring. lra.
Qed.

Lemma shape_mono PI k x y :
  0 < PI -> 0 <= k -> x < y -> shape PI k x < shape PI k y.
Proof.
  intros HP Hk Hxy. unfold shape.
  pose proof (shape_den PI k x HP Hk) as Dx.
  pose proof (shape_den PI k y HP Hk) as Dy.
  set (dx := PI + k * Qabs x) in *. set (dy := PI + k * Qabs y) in *.
  assert ((PI + k) * y / dy - (PI + k) * x / dx
          == ((PI + k) * (y * dx - x * dy)) / (dx * dy)) as E
    by (field; split; lra).
  assert (0 < ((PI + k) * (y * dx - x * dy)) / (dx * dy)); [|lra].
  apply Qlt_shift_div_l.
  - apply Qmult_lt_0_compat; assumption.
  - assert (0 * (dx * dy) == 0) as -> by ring.
    apply Qmult_lt_0_compat; [lra|].
    subst dx dy.
    assert (y * (PI + k * Qabs x) - x * (PI + k * Qabs y)
            == PI * (y - x) + k * - (x * Qabs y - y * Qabs x)) as -> by ring.
    pose proof (cross_sign x y Hxy).
    assert (0 < PI * (y - x)) by (apply Qmult_lt_0_compat; lra).
    assert (0 <= k * - (x * Qabs y - y * Qabs x))
      by (apply Qmult_le_0_compat; lra).
    lra.
Qed.

Lemma shape_ends PI k :
  0 < PI -> 0 <= k ->
  shape PI k (-1) == -1 /\ shape PI k 0 == 0 /\ shape PI k 1 == 1.
Proof.
  intros HP Hk. unfold shape.
  change (Qabs (-1)) with 1. change (Qabs 0) with 0. change (Qabs 1) with 1.
  repeat split; field; lra.
Qed.

Lemma shape_wd PI k x y : x == y -> shape PI k x == shape PI k y.
Proof.
  intros E. unfold shape. rewrite (Qabs_wd _ _ E), E. reflexivity.
Qed.

Lemma position_mono i j : (i < j)%nat -> position i < position j.
Proof.
  intros H. unfold position.
  assert (inject_Z (Z.of_nat i) < inject_Z (Z.of_nat j))
    by (rewrite <- Zlt_Qlt; lia).
  assert (forall v : Q, v * 2 / 256 == v * (1 # 128)) as E by (intros; field).
  rewrite !E. lra.
Qed.

Lemma position_range i : (i < 256)%nat -> -1 <= position i /\ position i < 1.
Proof.
  intros H. unfold position.
  assert (0 <= inject_Z (Z.of_nat i))
    by (change 0 with (inject_Z 0); rewrite <- Zle_Qle; lia).
  assert (inject_Z (Z.of_nat i) < 256)
    by (change 256 with (inject_Z 256); rewrite <- Zlt_Qlt; lia).
  assert (forall v : Q, v * 2 / 256 == v * (1 # 128)) as E by (intros; field).
  rewrite E. split; lra.
Qed.

Lemma sample_rep PI k i :
  0 < PI -> 0 <= k -> (i < 256)%nat ->
  exists a, makeDistortionCurve PI (Num k) !! i = Some a
            /\ rep a (shape PI k (position i)).
Proof.
  intros HP Hk Hi. unfold makeDistortionCurve. cbv zeta.
  rewrite list_lookup_fmap, lookup_seq_lt by exact Hi.
  cbn [fmap option_fmap option_map Nat.add]. eexists. split; [reflexivity|].
  assert (rep ((JS.of_nat i * Num 2) / JS.of_nat 256 - Num 1)%js (position i)) as Hx.
  { unfold position. apply rep_sub; [|reflexivity].
    apply rep_div; [apply rep_mul; [apply rep_of_nat|reflexivity]
                   |apply rep_of_nat|discriminate]. }
  unfold shape. apply rep_div.
  - apply rep_mul; [apply rep_add; reflexivity|exact Hx].
  - apply rep_add; [reflexivity|].
    apply rep_mul; [reflexivity|apply rep_abs, Hx].
  - pose proof (shape_den PI k (position i) HP Hk). lra.
Qed.

(** X27.  For a non-negative amount (and the positive [Math.PI]),
    [makeDistortionCurve] gives 256 samples that rise strictly from -1 at
    sample 0 through 0 at sample 128 and stay below 1: the waveshaper
    keeps the order and the sign of its input and never leaves [-1, 1). *)
Theorem makeDistortionCurve_rises (PI k : Q) :
  0 < PI -> 0 <= k ->
  let curve := makeDistortionCurve PI (Num k) in
  length curve = 256%nat
  /\ rep (JS.index curve 0) (-1) /\ rep (JS.index curve 128) 0
  /\ forall i j, (i < j)%nat -> (j < 256)%nat ->
       exists a b, rep (JS.index curve i) a /\ rep (JS.index curve j) b
                   /\ -1 <= a /\ a < b /\ b < 1.
Proof.
  intros HP Hk. cbv zeta.
  destruct (shape_ends PI k HP Hk) as (E1 & E0 & E2).
  split; [unfold makeDistortionCurve; rewrite length_fmap, length_seq; reflexivity|].
  split; [|split].
  - destruct (sample_rep PI k 0 HP Hk) as (a & Ha & Ra); [lia|].
    unfold JS.index. rewrite Ha. eapply rep_eq; [exact Ra|].
    rewrite <- E1. apply shape_wd. reflexivity.
  - destruct (sample_rep PI k 128 HP Hk) as (a & Ha & Ra); [lia|].
    unfold JS.index. rewrite Ha. eapply rep_eq; [exact Ra|].
    rewrite <- E0. apply shape_wd. reflexivity.
  - intros i j Hij Hj.
    destruct (sample_rep PI k i HP Hk) as (a & Ha & Ra); [lia|].
    destruct (sample_rep PI k j HP Hk) as (b & Hb & Rb); [lia|].
    exists (shape PI k (position i)), (shape PI k (position j)).
    unfold JS.index. rewrite Ha, Hb.
    split; [exact Ra|]. split; [exact Rb|].
    destruct (position_range i) as [P1 P2]; [lia|].
    destruct (position_range j) as [P3 P4]; [lia|].
    pose proof (position_mono i j Hij) as Pm.
    split; [|split].
    + destruct (Qlt_le_dec (-1) (position i)) as [L|L].
      * pose proof (shape_mono PI k (-1) (position i) HP Hk L). lra.
      * assert (position i == -1) as E by lra.
        rewrite (shape_wd PI k _ _ E). lra.
    + apply shape_mono; assumption.
    + pose proof (shape_mono PI k (position j) 1 HP Hk P4). lra.
Qed.

Lemma makeDistortionCurve_rises_witness :
  let curve := makeDistortionCurve (355 # 113) (Num 100) in
  length curve = 256%nat
  /\ rep (JS.index curve 0) (-1) /\ rep (JS.index curve 128) 0
  /\ forall i j, (i < j)%nat -> (j < 256)%nat ->
       exists a b, rep (JS.index curve i) a /\ rep (JS.index curve j) b
                   /\ -1 <= a /\ a < b /\ b < 1.
Proof. apply (makeDistortionCurve_rises (355 # 113) 100); [reflexivity|discriminate]. Defined.

End CurveExtra.
